(** * mslotto: a shallow embedding of [main.go] and its specification

    The program scrapes a lottery site: it discovers game links on a landing
    page, fetches every game page under a bounded number of goroutines,
    parses two tables of each page into a [Game], sorts the games by
    expected value and writes a CSV report.

    Layout of this file:
    - the pieces of the Go language, standard library and run-time system
      the program leans on (64-bit [int], [strings], [strconv], [float64],
      [math.Round]), and what the platform decides for them;
    - the program itself, function by function, under the names of the
      source; [main] and its goroutines are a transition relation,
      [main_step];
    - the reference definitions that follow the wording of the
      specification, the fixtures and the vocabulary of the statements;
    - the theorems. *)

From Stdlib Require Import ZArith List String Ascii Bool Lia.
From Stdlib Require Import Permutation Sorted.
From Stdlib Require Import Floats.SpecFloat.
Import ListNotations.

Local Open Scope string_scope.
Local Open Scope list_scope.
Local Open Scope Z_scope.

(* ================================================================= *)
(** ** Go's [int] on a 64-bit target *)

Module GoInt.

Definition minInt64 : Z := - 2 ^ 63.
Definition maxInt64 : Z := 2 ^ 63 - 1.

Definition in_range (z : Z) : Prop := minInt64 <= z <= maxInt64.

Definition in_rangeb (z : Z) : bool := (minInt64 <=? z) && (z <=? maxInt64).

(** Two's complement wrap-around of an arithmetic result. *)
Definition wrap (z : Z) : Z := (z + 2 ^ 63) mod 2 ^ 64 - 2 ^ 63.

Definition add (x y : Z) : Z := wrap (x + y).
Definition sub (x y : Z) : Z := wrap (x - y).

(** The sum of a list of [int]s as a Go loop [t += x] computes it. *)
Definition sum (l : list Z) : Z := fold_left add l 0.

End GoInt.

(* ================================================================= *)
(** ** What the platform fixes

    Three things the program relies on are decided outside its source.

    - [float_literal]: the value [strconv.ParseFloat] gives a well-formed
      literal, with a flag set when the value is out of range ([±Inf]
      returned together with [ErrRange]); [None] when the syntax is
      rejected.
    - [int_of_unrepresentable]: the result of the conversion [int(f)] when
      [f] is NaN, infinite or too large; the language leaves it to the
      implementation.
    - [lower_unicode]: the result of [strings.ToLower] on a string that
      holds a byte above 127.  There [strings.ToLower] decodes the string
      as UTF-8 and maps every rune through the case tables of package
      [unicode], which are those of the Unicode version of the release
      (U+0130 and U+212A, for instance, become the ASCII letters i and
      k); a byte that is not UTF-8 becomes U+FFFD. *)

Definition float64 : Type := spec_float.

Class Platform : Type := {
  float_literal : string -> option (float64 * bool);
  int_of_unrepresentable : float64 -> Z;
  lower_unicode : string -> string
}.

(* ================================================================= *)
(** ** Package [strings]

    Go strings are byte sequences; [string] of the standard library is a
    list of 8-bit characters.  Runes are read off the bytes as UTF-8
    where the package does so. *)

Module strings.

Definition is_upper (c : ascii) : bool :=
  (65 <=? nat_of_ascii c)%nat && (nat_of_ascii c <=? 90)%nat.

Definition lower_byte (c : ascii) : ascii :=
  if is_upper c then ascii_of_nat (nat_of_ascii c + 32) else c.

(** The loop of [ToLower] over a string of ASCII bytes. *)
Fixpoint lower_ascii (s : string) : string :=
  match s with
  | EmptyString => EmptyString
  | String c s' => String (lower_byte c) (lower_ascii s')
  end.

Fixpoint is_ascii (s : string) : bool :=
  match s with
  | EmptyString => true
  | String c s' => (nat_of_ascii c <? 128)%nat && is_ascii s'
  end.

Section Unicode.

Context {P : Platform}.

(** [ToLower]: a string of ASCII bytes is lower-cased byte by byte; any
    other string is mapped rune by rune, by the tables of the platform. *)
Definition ToLower (s : string) : string :=
  if is_ascii s then lower_ascii s else lower_unicode s.

End Unicode.

(** [Contains s substr]: [substr] occurs in [s]. *)
Fixpoint Contains (s substr : string) : bool :=
  String.prefix substr s ||
  match s with
  | EmptyString => false
  | String _ s' => Contains s' substr
  end.

(** [ReplaceAll s old new] for a non-empty [old]: the scan is left to
    right and non-overlapping; [skip] counts the bytes of a match that
    are still to be dropped. *)
Fixpoint replace_from (skip : nat) (s old new : string) : string :=
  match s with
  | EmptyString => EmptyString
  | String c s' =>
      match skip with
      | S k => replace_from k s' old new
      | O =>
          if String.prefix old s
          then (new ++ replace_from (String.length old - 1) s' old new)%string
          else String c (replace_from 0 s' old new)
      end
  end.

Definition ReplaceAll (s old new : string) : string :=
  replace_from 0 s old new.

(** [Split s sep] for a non-empty [sep]; [cur] is the piece being read. *)
Fixpoint split_from (skip : nat) (s sep cur : string) : list string :=
  match s with
  | EmptyString => [cur]
  | String c s' =>
      match skip with
      | S k => split_from k s' sep cur
      | O =>
          if String.prefix sep s
          then cur :: split_from (String.length sep - 1) s' sep EmptyString
          else split_from 0 s' sep (cur ++ String c EmptyString)%string
      end
  end.

Definition Split (s sep : string) : list string :=
  split_from 0 s sep EmptyString.

(** The runes for which [unicode.IsSpace] holds, each as the bytes of its
    UTF-8 encoding: U+0009 to U+000D, U+0020, U+0085, U+00A0, U+1680,
    U+2000 to U+200A, U+2028, U+2029, U+202F, U+205F and U+3000. *)
Definition space_runes : list (list nat) :=
  [ [9]; [10]; [11]; [12]; [13]; [32];
    [194; 133]; [194; 160];
    [225; 154; 128];
    [226; 128; 128]; [226; 128; 129]; [226; 128; 130]; [226; 128; 131];
    [226; 128; 132]; [226; 128; 133]; [226; 128; 134]; [226; 128; 135];
    [226; 128; 136]; [226; 128; 137]; [226; 128; 138];
    [226; 128; 168]; [226; 128; 169]; [226; 128; 175];
    [226; 129; 159];
    [227; 128; 128] ]%nat.

Fixpoint starts_with (code : list nat) (bytes : list ascii) : bool :=
  match code, bytes with
  | [], _ => true
  | n :: code', c :: bytes' =>
      Nat.eqb (nat_of_ascii c) n && starts_with code' bytes'
  | _ :: _, [] => false
  end.

(** Drops the runes of [runes] that [bytes] starts with, one rune a turn.
    A rune is decoded as one of them exactly when its encoding is read:
    these encodings are well formed, and a byte sequence that is not
    UTF-8 decodes to U+FFFD. *)
Fixpoint drop_runes (runes : list (list nat)) (fuel : nat)
         (bytes : list ascii) : list ascii :=
  match fuel with
  | O => bytes
  | S k =>
      match find (fun code => starts_with code bytes) runes with
      | Some code => drop_runes runes k (skipn (List.length code) bytes)
      | None => bytes
      end
  end.

Fixpoint trim_left (f : ascii -> bool) (s : string) : string :=
  match s with
  | EmptyString => EmptyString
  | String c s' => if f c then trim_left f s' else s
  end.

(** Drops the longest suffix of bytes satisfying [f]. *)
Fixpoint trim_right (f : ascii -> bool) (s : string) : string :=
  match s with
  | EmptyString => EmptyString
  | String c s' =>
      match trim_right f s' with
      | EmptyString => if f c then EmptyString else String c EmptyString
      | r => String c r
      end
  end.

(** [TrimSpace]: the white-space runes are dropped from the front, then
    from the back, where the last rune is read by decoding backwards. *)
Definition TrimSpace (s : string) : string :=
  let bytes := list_ascii_of_string s in
  let front := drop_runes space_runes (List.length bytes) bytes in
  let back :=
    drop_runes (map (@rev nat) space_runes) (List.length front) (rev front) in
  string_of_list_ascii (rev back).

Fixpoint mem_byte (c : ascii) (cutset : string) : bool :=
  match cutset with
  | EmptyString => false
  | String d r => Ascii.eqb c d || mem_byte c r
  end.

Definition Trim (s cutset : string) : string :=
  trim_right (fun c => mem_byte c cutset)
             (trim_left (fun c => mem_byte c cutset) s).

(** Number of occurrences of a byte. *)
Fixpoint count_byte (c : ascii) (s : string) : nat :=
  match s with
  | EmptyString => O
  | String d s' => ((if Ascii.eqb d c then 1 else 0) + count_byte c s')%nat
  end.

End strings.

(* ================================================================= *)
(** ** [float64]

    IEEE 754 binary64 as the [spec_float] of the standard library: 53 bits
    of precision, infinities at exponent 1024, every operation rounded to
    nearest, ties to even.  NaN carries no payload. *)

Module F64.

Definition prec : Z := 53.
Definition emax : Z := 1024.

Definition zero : float64 := S754_zero false.

Definition add : float64 -> float64 -> float64 := SFadd prec emax.
Definition sub : float64 -> float64 -> float64 := SFsub prec emax.
Definition mul : float64 -> float64 -> float64 := SFmul prec emax.
Definition div : float64 -> float64 -> float64 := SFdiv prec emax.

(** [x < y], [x <= y], [x > y], [x >= y]: all false on NaN. *)
Definition ltb (x y : float64) : bool := SFltb x y.
Definition leb (x y : float64) : bool := SFleb x y.
Definition gtb (x y : float64) : bool := SFltb y x.
Definition geb (x y : float64) : bool := SFleb y x.

(** The conversion [float64(n)] of an integer. *)
Definition of_int (n : Z) : float64 := binary_normalize prec emax n 0 false.

(** The float nearest to the exact quotient [m / d]. *)
Definition of_ratio (neg : bool) (m d : positive) : float64 :=
  let '(q, e, l) := SFdiv_core_binary prec emax (Zpos m) 0 (Zpos d) 0 in
  binary_round_aux prec emax neg q e l.

Definition is_nan (x : float64) : bool :=
  match x with S754_nan => true | _ => false end.

Definition is_finite (x : float64) : bool :=
  match x with
  | S754_zero _ | S754_finite _ _ _ => true
  | _ => false
  end.

(** The integer part, towards zero; [None] on NaN and the infinities. *)
Definition trunc (x : float64) : option Z :=
  match x with
  | S754_zero _ => Some 0
  | S754_finite s m e =>
      Some (cond_Zopp s (if 0 <=? e then Z.shiftl (Zpos m) e
                         else Z.shiftr (Zpos m) (- e)))
  | _ => None
  end.

End F64.

(* ================================================================= *)
(** ** Package [math] *)

Module math.

(** [math.Round]: the nearest integer, halves away from zero; zeros,
    infinities and NaN are returned unchanged, and a result of magnitude
    zero keeps the sign of its argument. *)
Definition Round (x : float64) : float64 :=
  match x with
  | S754_finite s m e =>
      if 0 <=? e then x
      else
        let d := 2 ^ (- e) in
        match (2 * Zpos m + d) / (2 * d) with
        | Z0 => S754_zero s
        | q => F64.of_int (cond_Zopp s q)
        end
  | _ => x
  end.

End math.

(* ================================================================= *)
(** ** Package [strconv] *)

Module strconv.

Inductive NumError : Type := ErrSyntax | ErrRange.

Definition is_digit (c : ascii) : bool :=
  (48 <=? nat_of_ascii c)%nat && (nat_of_ascii c <=? 57)%nat.

Definition digit_val (c : ascii) : Z := Z.of_nat (nat_of_ascii c) - 48.

(** The value of a string of decimal digits read after [acc]; [None] when
    a byte is not a digit. *)
Fixpoint digits_val (acc : Z) (s : string) : option Z :=
  match s with
  | EmptyString => Some acc
  | String c s' =>
      if is_digit c then digits_val (acc * 10 + digit_val c) s' else None
  end.

Definition strip_sign (s : string) : bool * string :=
  match s with
  | String "+" r => (false, r)
  | String "-" r => (true, r)
  | _ => (false, s)
  end.

Definition maxUint64 : Z := 2 ^ 64 - 1.

(** The loop of [ParseUint] in base 10, [n] being the value read so far:
    a byte that is not a digit is a syntax error, and the bound is
    returned with [ErrRange] as soon as the digits read overflow, whatever
    follows them. *)
Fixpoint parse_uint (n : Z) (s : string) : Z * option NumError :=
  match s with
  | EmptyString => (n, None)
  | String c s' =>
      if is_digit c then
        if maxUint64 / 10 + 1 <=? n then (maxUint64, Some ErrRange)
        else
          let n1 := n * 10 + digit_val c in
          if maxUint64 <? n1 then (maxUint64, Some ErrRange)
          else parse_uint n1 s'
      else (0, Some ErrSyntax)
  end.

(** [ParseUint(s, 10, 0)]. *)
Definition ParseUint (s : string) : Z * option NumError :=
  match s with
  | EmptyString => (0, Some ErrSyntax)
  | _ => parse_uint 0 s
  end.

(** [ParseInt(s, 10, 0)]: a value that does not fit in [int] gives the
    nearest bound with [ErrRange]. *)
Definition ParseInt (s : string) : Z * option NumError :=
  match s with
  | EmptyString => (0, Some ErrSyntax)
  | _ =>
      let '(neg, body) := strip_sign s in
      match ParseUint body with
      | (_, Some ErrSyntax) => (0, Some ErrSyntax)
      | (un, _) =>
          let cutoff := 2 ^ 63 in
          if negb neg && (cutoff <=? un) then (cutoff - 1, Some ErrRange)
          else if neg && (cutoff <? un) then (- cutoff, Some ErrRange)
          else (if neg then - un else un, None)
      end
  end.

(** [strconv.Atoi]: strings of 1 to 18 bytes are read by a loop of their
    own, in which no value can overflow; the others go through
    [ParseInt]. *)
Definition Atoi (s : string) : Z * option NumError :=
  let sLen := String.length s in
  if (0 <? sLen)%nat && (sLen <? 19)%nat then
    let '(neg, body) := strip_sign s in
    match body with
    | EmptyString => (0, Some ErrSyntax)
    | _ =>
        match digits_val 0 body with
        | None => (0, Some ErrSyntax)
        | Some n => (if neg then - n else n, None)
        end
    end
  else ParseInt s.

Definition digit_char (d : Z) : ascii := ascii_of_nat (Z.to_nat d + 48).

(** Decimal digits of a natural number, most significant first; [fuel]
    bounds the number of digits. *)
Fixpoint utoa (fuel : nat) (n : Z) (acc : string) : string :=
  match fuel with
  | O => acc
  | S k =>
      let acc' := String (digit_char (n mod 10)) acc in
      if n <? 10 then acc' else utoa k (n / 10) acc'
  end.

Definition Utoa (n : Z) : string :=
  utoa (S (Z.to_nat (Z.log2 n))) n EmptyString.

(** [strconv.Itoa]. *)
Definition Itoa (n : Z) : string :=
  if n <? 0 then String "-" (Utoa (- n)) else Utoa n.

(** [%.2f]: the exact value rounded to two decimals, ties to even. *)
Definition FormatFixed2 (x : float64) : string :=
  match x with
  | S754_nan => "NaN"
  | S754_infinity s => if s then "-Inf" else "+Inf"
  | S754_zero s => if s then "-0.00" else "0.00"
  | S754_finite s m e =>
      let n := 100 * Zpos m in
      let h :=
        if 0 <=? e then Z.shiftl n e
        else
          let d := 2 ^ (- e) in
          let q := n / d in
          let r := n mod d in
          if (d <? 2 * r) || ((d =? 2 * r) && Z.odd q) then q + 1 else q in
      ((if s then "-" else "") ++ Utoa (h / 100) ++ "." ++
       String (digit_char (h mod 100 / 10))
              (String (digit_char (h mod 10)) EmptyString))%string
  end.

End strconv.

(* ================================================================= *)
(** ** The operations that depend on the platform *)

Section PlatformOps.

Context {P : Platform}.

(** [strconv.ParseFloat(s, 64)]: zero and [ErrSyntax] on a syntax error. *)
Definition ParseFloat (s : string) : float64 * option strconv.NumError :=
  match float_literal s with
  | None => (F64.zero, Some strconv.ErrSyntax)
  | Some (f, true) => (f, Some strconv.ErrRange)
  | Some (f, false) => (f, None)
  end.

(** The conversion [int(f)]: truncation towards zero. *)
Definition int_of_float (f : float64) : Z :=
  match F64.trunc f with
  | Some n =>
      if GoInt.in_rangeb n then n
      else GoInt.wrap (int_of_unrepresentable f)
  | None => GoInt.wrap (int_of_unrepresentable f)
  end.

End PlatformOps.

(** *** A reference platform

    Literals of the shape [[+-]digits[.digits][(e|E)[+-]digits]] and the
    special values [inf], [infinity] and [nan] in any letter case: on
    these [strconv.ParseFloat] returns the nearest [float64].  The
    hexadecimal mantissas and the underscores between digits that
    [strconv] accepts as well are not read by this parser.  Conversions of
    unrepresentable values give the least integer, as the conversion
    instruction of amd64 does.  The case tables of [unicode] are not
    reproduced: in a string that holds a byte above 127 this platform
    lowers the ASCII letters only and keeps every other byte, so that it
    stands for no release of Go on such strings.  Every string evaluated
    on this platform below is ASCII; the theorems hold for all
    platforms. *)

Module Reference.

(** Reads a run of digits: value after [acc], number of digits, rest. *)
Fixpoint read_digits (s : string) (acc : Z) (n : Z) : Z * Z * string :=
  match s with
  | String c s' =>
      if strconv.is_digit c
      then read_digits s' (acc * 10 + strconv.digit_val c) (n + 1)
      else (acc, n, s)
  | EmptyString => (acc, n, s)
  end.

(** Digits of an exponent; as in [strconv], digits read once the value
    has reached 10000 are skipped. *)
Fixpoint read_exp (s : string) (acc : Z) (n : Z) : Z * Z * string :=
  match s with
  | String c s' =>
      if strconv.is_digit c
      then read_exp s'
             (if acc <? 10000 then acc * 10 + strconv.digit_val c else acc)
             (n + 1)
      else (acc, n, s)
  | EmptyString => (acc, n, s)
  end.

(** Sign, decimal mantissa and power of ten of a literal. *)
Definition decimal_literal (s : string) : option (bool * Z * Z) :=
  let '(neg, s1) := strconv.strip_sign s in
  let '(mi, ni, s2) := read_digits s1 0 0 in
  let '(mf, nf, s3) :=
    match s2 with
    | String "." r => read_digits r mi 0
    | _ => (mi, 0, s2)
    end in
  if ni + nf =? 0 then None
  else
    match s3 with
    | EmptyString => Some (neg, mf, - nf)
    | String c r =>
        if Ascii.eqb (strings.lower_byte c) "e"
        then
          let '(eneg, r1) := strconv.strip_sign r in
          let '(e, ne, r2) := read_exp r1 0 0 in
          if ne =? 0 then None
          else
            match r2 with
            | EmptyString => Some (neg, mf, (if eneg then - e else e) - nf)
            | _ => None
            end
        else None
    end.

Definition special_literal (s : string) : option float64 :=
  let l := strings.lower_ascii s in
  if String.eqb l "nan" then Some S754_nan
  else
    let '(neg, body) := strconv.strip_sign l in
    if String.eqb body "inf" || String.eqb body "infinity"
    then Some (S754_infinity neg)
    else None.

Definition nearest (neg : bool) (m e10 : Z) : float64 :=
  match m with
  | Zpos p =>
      if 0 <=? e10
      then binary_normalize F64.prec F64.emax
             (cond_Zopp neg (Zpos p * 10 ^ e10)) 0 false
      else F64.of_ratio neg p (Z.to_pos (10 ^ (- e10)))
  | _ => S754_zero neg
  end.

Definition read_literal (s : string) : option (float64 * bool) :=
  match special_literal s with
  | Some f => Some (f, false)
  | None =>
      match decimal_literal s with
      | Some (neg, m, e10) =>
          let f := nearest neg m e10 in
          Some (f, negb (F64.is_finite f))
      | None => None
      end
  end.

Definition platform : Platform := {|
  float_literal := read_literal;
  int_of_unrepresentable := fun _ => GoInt.minInt64;
  lower_unicode := strings.lower_ascii
|}.

End Reference.

(* ================================================================= *)
(** ** How a call ends, and what it prints *)

Inductive Outcome (A : Type) : Type :=
| Ret (a : A)              (* the call returns *)
| Exit (status : Z)        (* [log.Fatal]: the process exits at once *)
| Panic (msg : string).    (* a run-time panic nobody recovers *)

Arguments Ret {A} a.
Arguments Exit {A} status.
Arguments Panic {A} msg.

Definition aborts {A : Type} (o : Outcome A) : bool :=
  match o with Ret _ => false | _ => true end.

(** A computation: the lines it writes (log and standard output), then its
    outcome. *)
Definition Go (A : Type) : Type := list string * Outcome A.

Definition ret {A : Type} (a : A) : Go A := ([], Ret a).

Definition bind {A B : Type} (m : Go A) (k : A -> Go B) : Go B :=
  match m with
  | (out, Ret a) => let '(out', o) := k a in (out ++ out', o)
  | (out, Exit c) => (out, Exit c)
  | (out, Panic msg) => (out, Panic msg)
  end.

Notation "x <- m ;; k" := (bind m (fun x => k))
  (at level 61, m at next level, right associativity).

Definition Println (line : string) : Go unit := ([line], Ret tt).

(** [log.Fatal]: the message is logged, then [os.Exit(1)]. *)
Definition Fatal {A : Type} (msg : string) : Go A := ([msg], Exit 1).

Definition lift {A : Type} (o : Outcome A) : Go A := ([], o).

(* ================================================================= *)
(** ** The tokens of [golang.org/x/net/html]

    The tokenizer is not part of the repository: a page is given as the
    sequence of tokens it yields, which ends with [ErrorToken] (end of
    input).  A token of that type inside the list ends the page there. *)

Inductive TokenType : Type :=
| ErrorToken | TextToken | StartTagToken | EndTagToken
| SelfClosingTagToken | CommentToken | DoctypeToken.

Definition TokenType_eqb (a b : TokenType) : bool :=
  match a, b with
  | ErrorToken, ErrorToken | TextToken, TextToken
  | StartTagToken, StartTagToken | EndTagToken, EndTagToken
  | SelfClosingTagToken, SelfClosingTagToken
  | CommentToken, CommentToken | DoctypeToken, DoctypeToken => true
  | _, _ => false
  end.

Record Attribute : Type := { Key : string; Val : string }.

Record Token : Type := { Kind : TokenType; Data : string; Attr : list Attribute }.

Definition Page : Type := list Token.

(* ================================================================= *)
(** ** The outside world *)

Inductive Response : Type :=
| GetError (err : string)     (* [http.Get] returns an error *)
| ReadError (err : string)    (* [io.ReadAll] of the body returns an error *)
| Body (content : Page).

Record World : Type := {
  http_get : string -> Response;
  os_create : string -> option string   (* [Some err] when creation fails *)
}.

Definition fetch_fails (r : Response) : bool :=
  match r with Body _ => false | _ => true end.

(* ================================================================= *)
(** ** The program *)

Definition startUrl : string := "https://www.mslottery.com/gamestatus/active/".

Record PrizeTier : Type := {
  Value : Z;
  OriginalCount : Z;
  RemainingCount : Z
}.

Record Game : Type := {
  Name : string;
  Price : Z;
  Odds : float64;
  LaunchDate : string;
  GameNumber : Z;
  PrizeTiers : list PrizeTier;
  TotalOriginalPrizes : Z;
  TotalRemainingPrizes : Z;
  URL : string
}.

Definition GetHTML (w : World) : Go Page :=
  match http_get w startUrl with
  | GetError err => Fatal err
  | ReadError err => Fatal err
  | Body data => ret data
  end.

(** *** GetLinks *)

Record LinkScan : Type := {
  links : list string;
  inActiveSession : bool;
  divDepth : Z
}.

Definition is_marker (a : Attribute) : bool :=
  String.eqb (Key a) "class" && String.eqb (Val a) "col-lg-3 gamebox".

Definition hrefs (attrs : list Attribute) : list string :=
  map Val (filter (fun a => String.eqb (Key a) "href") attrs).

(** One turn of the loop of [GetLinks], after the test for [ErrorToken]. *)
Definition scan_token (st : LinkScan) (token : Token) : LinkScan :=
  let tt := Kind token in
  (* start of a div *)
  let st1 :=
    if TokenType_eqb tt StartTagToken && String.eqb (Data token) "div" then
      let st' :=
        if existsb is_marker (Attr token)
        then {| links := links st; inActiveSession := true; divDepth := 1 |}
        else st in
      if inActiveSession st' &&
         negb (String.eqb (Data token) "div" && (divDepth st' =? 1))
      then {| links := links st';
              inActiveSession := inActiveSession st';
              divDepth := GoInt.add (divDepth st') 1 |}
      else st'
    else st in
  (* end of a div *)
  let st2 :=
    if TokenType_eqb tt EndTagToken && String.eqb (Data token) "div" then
      if inActiveSession st1 then
        let d := GoInt.sub (divDepth st1) 1 in
        {| links := links st1;
           inActiveSession := if d =? 0 then false else inActiveSession st1;
           divDepth := d |}
      else st1
    else st1 in
  (* an anchor inside the session *)
  if inActiveSession st2 && TokenType_eqb tt StartTagToken
     && String.eqb (Data token) "a"
  then {| links := links st2 ++ hrefs (Attr token);
          inActiveSession := inActiveSession st2;
          divDepth := divDepth st2 |}
  else st2.

Fixpoint scan_tokens (page : Page) (st : LinkScan) : LinkScan :=
  match page with
  | [] => st
  | token :: rest =>
      if TokenType_eqb (Kind token) ErrorToken then st
      else scan_tokens rest (scan_token st token)
  end.

Definition scan_start : LinkScan :=
  {| links := []; inActiveSession := false; divDepth := 0 |}.

(** The links found on a page: the loop of [GetLinks] run to its
    [return]. *)
Definition page_links (page : Page) : list string :=
  links (scan_tokens page scan_start).

Definition GetLinks (w : World) : Go (list string) :=
  data <- GetHTML w ;; ret (page_links data).

(** *** GamePage, ExtractTables, ParseGame *)

Definition GamePage (w : World) (url : string) : Go (Page * option string) :=
  match http_get w url with
  | GetError err => Fatal err
  | ReadError err => ret ([], Some err)
  | Body data => ret (data, None)
  end.

Record TableScan : Type := {
  tables : list (list (list string));
  currentTable : list (list string);
  currentRow : list string;
  inTable : bool;
  inRow : bool;
  inCell : bool
}.

Definition table_token (st : TableScan) (t : Token) : TableScan :=
  match Kind t with
  | StartTagToken =>
      if String.eqb (Data t) "table" then
        {| tables := tables st; currentTable := []; currentRow := currentRow st;
           inTable := true; inRow := inRow st; inCell := inCell st |}
      else if String.eqb (Data t) "tr" then
        if inTable st then
          {| tables := tables st; currentTable := currentTable st;
             currentRow := []; inTable := inTable st; inRow := true;
             inCell := inCell st |}
        else st
      else if String.eqb (Data t) "td" || String.eqb (Data t) "th" then
        if inRow st then
          {| tables := tables st; currentTable := currentTable st;
             currentRow := currentRow st; inTable := inTable st;
             inRow := inRow st; inCell := true |}
        else st
      else st
  | EndTagToken =>
      if String.eqb (Data t) "td" || String.eqb (Data t) "th" then
        {| tables := tables st; currentTable := currentTable st;
           currentRow := currentRow st; inTable := inTable st;
           inRow := inRow st; inCell := false |}
      else if String.eqb (Data t) "tr" then
        if inRow st then
          {| tables := tables st;
             currentTable := currentTable st ++ [currentRow st];
             currentRow := currentRow st; inTable := inTable st;
             inRow := false; inCell := inCell st |}
        else st
      else if String.eqb (Data t) "table" then
        if inTable st then
          {| tables := tables st ++ [currentTable st];
             currentTable := currentTable st; currentRow := currentRow st;
             inTable := false; inRow := inRow st; inCell := inCell st |}
        else st
      else st
  | TextToken =>
      if inCell st then
        let txt := strings.TrimSpace (Data t) in
        if String.eqb txt "" then st
        else
          {| tables := tables st; currentTable := currentTable st;
             currentRow := currentRow st ++ [txt]; inTable := inTable st;
             inRow := inRow st; inCell := inCell st |}
      else st
  | _ => st
  end.

Fixpoint table_tokens (page : Page) (st : TableScan) : TableScan :=
  match page with
  | [] => st
  | t :: rest =>
      if TokenType_eqb (Kind t) ErrorToken then st
      else table_tokens rest (table_token st t)
  end.

Definition ExtractTables (htmlBytes : Page) : list (list (list string)) :=
  tables (table_tokens htmlBytes
            {| tables := []; currentTable := []; currentRow := [];
               inTable := false; inRow := false; inCell := false |}).

Definition ParseGame (w : World) (url : string)
  : Go (list (list (list string))) :=
  r <- GamePage w url ;;
  match snd r with
  | Some err =>
      _ <- Println ("Error fetching game page: " ++ url ++ " " ++ err)%string ;;
      ret []
  | None => ret (ExtractTables (fst r))
  end.

(** *** The cell parsers *)

Definition parseDollar (s : string) : Z :=
  let s := strings.ReplaceAll s "$" "" in
  let s := strings.ReplaceAll s "," "" in
  fst (strconv.Atoi s).

Definition parseInt (s : string) : Z :=
  fst (strconv.Atoi (strings.ReplaceAll s "," "")).

Section Program.

Context {P : Platform}.

Definition parseOdds (s : string) : float64 :=
  let parts := strings.Split s ":" in
  if negb (Nat.eqb (List.length parts) 2) then F64.zero
  else fst (ParseFloat (nth 1 parts EmptyString)).

(** *** ParseMetaData *)

Definition meta_row (acc : Z * float64 * string) (row : list string)
  : Z * float64 * string :=
  let '(price, odds, launchDate) := acc in
  match row with
  | row0 :: val :: _ =>
      let key := strings.ToLower row0 in
      if strings.Contains key "ticket price"
      then (parseDollar val, odds, launchDate)
      else if strings.Contains key "overall odds"
      then (price, parseOdds val, launchDate)
      else if strings.Contains key "launch date"
      then (price, odds, val)
      else acc
  | _ => acc
  end.

Definition ParseMetaData (table : list (list string))
  : Z * float64 * string :=
  fold_left meta_row table (0, F64.zero, EmptyString).

(** *** ParsePrizes *)

Definition prize_row (prizes : list PrizeTier) (row : list string)
  : list PrizeTier :=
  match row with
  | row0 :: row1 :: row2 :: _ =>
      if strings.Contains (strings.ToLower row0) "2nd chance" then prizes
      else
        prizes ++ [ {| Value := parseDollar row0;
                       OriginalCount := parseInt row1;
                       RemainingCount := parseInt row2 |} ]
  | _ => prizes
  end.

(** [table[1:]] panics on a table without rows. *)
Definition ParsePrizes (table : list (list string))
  : Outcome (list PrizeTier) :=
  match table with
  | [] => Panic "runtime error: slice bounds out of range [1:0]"
  | _ :: rows => Ret (fold_left prize_row rows [])
  end.

(** *** The methods of Game *)

Definition OriginalTickets (g : Game) : Z :=
  int_of_float
    (math.Round (F64.mul (Odds g) (F64.of_int (TotalOriginalPrizes g)))).

Definition RemainingTickets (g : Game) : Z :=
  int_of_float
    (math.Round (F64.mul (Odds g) (F64.of_int (TotalRemainingPrizes g)))).

(** One turn of the loop of [EV]. *)
Definition ev_tier (remainingTickets : Z) (expectedWin : float64)
           (p : PrizeTier) : float64 :=
  if (RemainingCount p <=? 0) || (Value p <=? 0) then expectedWin
  else
    let prob := F64.div (F64.of_int (RemainingCount p))
                        (F64.of_int remainingTickets) in
    F64.add expectedWin (F64.mul prob (F64.of_int (Value p))).

Definition EV (g : Game) : float64 :=
  let remainingTickets := RemainingTickets g in
  if remainingTickets =? 0 then F64.of_int (Price g)
  else
    let expectedWin :=
      fold_left (ev_tier remainingTickets) (PrizeTiers g) F64.zero in
    F64.sub (F64.of_int (Price g)) expectedWin.

(** *** exctractGameName, BuildGame *)

Definition exctractGameName (url : string) : string :=
  let parts := strings.Split (strings.Trim url "/") "/" in
  if (1 <? List.length parts)%nat
  then strings.ReplaceAll (last parts EmptyString) "-" " "
  else url.

Definition index_panic (i len : nat) : string :=
  ("runtime error: index out of range [" ++ strconv.Itoa (Z.of_nat i)
   ++ "] with length " ++ strconv.Itoa (Z.of_nat len))%string.

(** The two running totals of the loop of [BuildGame]. *)
Definition add_tier (acc : Z * Z) (p : PrizeTier) : Z * Z :=
  (GoInt.add (fst acc) (OriginalCount p),
   GoInt.add (snd acc) (RemainingCount p)).

Definition BuildGame (tables : list (list (list string)))
           (name url : string) : Outcome Game :=
  match nth_error tables 0 with
  | None => Panic (index_panic 0 (List.length tables))
  | Some meta =>
      match nth_error tables 1 with
      | None => Panic (index_panic 1 (List.length tables))
      | Some prizeTables =>
          let '(price, odds, launchdate) := ParseMetaData meta in
          match ParsePrizes prizeTables with
          | Ret prizeTiers =>
              let totals := fold_left add_tier prizeTiers (0, 0) in
              Ret {| Name := name;
                     Price := price;
                     Odds := odds;
                     LaunchDate := launchdate;
                     GameNumber := 0;
                     PrizeTiers := prizeTiers;
                     TotalOriginalPrizes := fst totals;
                     TotalRemainingPrizes := snd totals;
                     URL := url |}
          | Exit c => Exit c
          | Panic msg => Panic msg
          end
      end
  end.

(** *** WriteCSV *)

Definition csv_header : list string :=
  ["Name"; "Price"; "Odds"; "Launch Date"; "Original Winning Tickets";
   "Remaining Winning Tickets"; "Estimated Original Tickets";
   "Estimated Remaining Tickets"; "EV"; "URL"].

Definition csv_record (g : Game) : list string :=
  let ev := EV g in
  [ Name g;
    strconv.Itoa (Price g);
    ("1:" ++ strconv.FormatFixed2 (Odds g))%string;
    LaunchDate g;
    strconv.Itoa (TotalOriginalPrizes g);
    strconv.Itoa (TotalRemainingPrizes g);
    strconv.Itoa (OriginalTickets g);
    strconv.Itoa (RemainingTickets g);
    strconv.FormatFixed2 ev;
    URL g ].

(** The error returned, and the records written to the file when it could
    be created. *)
Definition WriteCSV (w : World) (games : list Game) (filename : string)
  : option string * option (list (list string)) :=
  match os_create w filename with
  | Some err => (Some err, None)
  | None => (None, Some (csv_header :: map csv_record games))
  end.

(** *** [sort.Slice] with the comparison of [main]

    [sort.Slice] belongs to the standard library.  It is modelled by its
    insertion sort, the algorithm it runs on short slices: each element
    in turn is swapped towards the front while it is [less] than its left
    neighbour.  The sorted prefix is kept reversed. *)

Definition less (a b : Game) : bool := F64.gtb (EV a) (EV b).

Fixpoint sift (x : Game) (rev_prefix : list Game) : list Game :=
  match rev_prefix with
  | [] => [x]
  | y :: rest => if less x y then y :: sift x rest else x :: y :: rest
  end.

Definition sortSlice (games : list Game) : list Game :=
  rev (fold_left (fun rp x => sift x rp) games []).

(** *** main

    The goroutine started for a link, up to the locked append. *)
Definition worker (w : World) (l : string) : Go Game :=
  tables <- ParseGame w l ;;
  let name := exctractGameName l in
  lift (BuildGame tables name l).

Definition semCap : nat := 75.

Inductive Control : Type :=
| Launching (todo : list string)  (* the [range] loop, links still to start *)
| Draining (i : nat)              (* the loop that fills the channel again *)
| Finished                        (* [main] has returned *)
| Dead (o : Outcome unit).        (* the process was ended by [Exit] or [Panic] *)

Record Proc : Type := {
  ctl : Control;
  sem : nat;                      (* values held by the channel *)
  running : list string;          (* links whose goroutine has not ended *)
  panicked : list string;         (* links whose goroutine is panicking *)
  games : list Game;
  output : list string;
  report : option (list (list string))
}.

Definition alive (c : Control) : bool :=
  match c with Launching _ | Draining _ => true | _ => false end.

Definition kill {A : Type} (o : Outcome A) : Outcome unit :=
  match o with
  | Ret _ => Ret tt
  | Exit c => Exit c
  | Panic msg => Panic msg
  end.

(** The last statements of [main], run in one step. *)
Definition finish (w : World) (s : Proc) : Proc :=
  let sorted := sortSlice (games s) in
  match WriteCSV w sorted "mslotto_games.csv" with
  | (Some err, _) =>
      {| ctl := Dead (Exit 1); sem := sem s; running := running s;
         panicked := panicked s; games := sorted;
         output := output s ++ [("Error writing CSV:" ++ err)%string];
         report := None |}
  | (None, file) =>
      {| ctl := Finished; sem := sem s; running := running s;
         panicked := panicked s; games := sorted;
         output := output s ++ ["Data written to mslotto_games.csv"];
         report := file |}
  end.

(** The interleavings of [main] and its goroutines.  A goroutine is run to
    its end in one step.  When it returns, its game is appended and its
    deferred receive frees a slot.  When it calls [log.Fatal] the process
    exits there, no deferred call is run.  When it panics, the deferred
    receive still frees the slot, and the process dies of the panic in a
    later step: until then the other goroutines and [main] go on. *)
Inductive main_step (w : World) : Proc -> Proc -> Prop :=
| step_launch : forall s l todo,
    ctl s = Launching (l :: todo) ->
    (sem s < semCap)%nat ->
    main_step w s {| ctl := Launching todo; sem := S (sem s);
                     running := l :: running s; panicked := panicked s;
                     games := games s; output := output s; report := report s |}
| step_range_done : forall s,
    ctl s = Launching [] ->
    main_step w s {| ctl := Draining 0; sem := sem s; running := running s;
                     panicked := panicked s; games := games s;
                     output := output s; report := report s |}
| step_worker_done : forall s before l after out g,
    alive (ctl s) = true ->
    running s = before ++ l :: after ->
    worker w l = (out, Ret g) ->
    main_step w s {| ctl := ctl s; sem := pred (sem s);
                     running := before ++ after; panicked := panicked s;
                     games := games s ++ [g];
                     output := output s ++ out; report := report s |}
| step_worker_exits : forall s before l after out status,
    alive (ctl s) = true ->
    running s = before ++ l :: after ->
    worker w l = (out, Exit status) ->
    main_step w s {| ctl := Dead (Exit status); sem := sem s;
                     running := running s; panicked := panicked s;
                     games := games s;
                     output := output s ++ out; report := report s |}
| step_worker_panics : forall s before l after out msg,
    alive (ctl s) = true ->
    running s = before ++ l :: after ->
    worker w l = (out, Panic msg) ->
    main_step w s {| ctl := ctl s; sem := pred (sem s);
                     running := before ++ after; panicked := l :: panicked s;
                     games := games s;
                     output := output s ++ out; report := report s |}
| step_crash : forall s l out msg,
    alive (ctl s) = true ->
    In l (panicked s) ->
    worker w l = (out, Panic msg) ->
    main_step w s {| ctl := Dead (Panic msg); sem := sem s;
                     running := running s; panicked := panicked s;
                     games := games s;
                     output := output s ++ [("panic: " ++ msg)%string];
                     report := report s |}
| step_drain : forall s i,
    ctl s = Draining i ->
    (i < semCap)%nat ->
    (sem s < semCap)%nat ->
    main_step w s {| ctl := Draining (S i); sem := S (sem s);
                     running := running s; panicked := panicked s;
                     games := games s;
                     output := output s; report := report s |}
| step_finish : forall s,
    ctl s = Draining semCap ->
    main_step w s (finish w s).

Inductive main_steps (w : World) : Proc -> Proc -> Prop :=
| steps_refl : forall s, main_steps w s s
| steps_step : forall s1 s2 s3,
    main_steps w s1 s2 -> main_step w s2 s3 -> main_steps w s1 s3.

(** The state in which [main] enters its first loop, or the dead process
    left by a failure on the landing page. *)
Definition main_start (w : World) : Proc :=
  match GetLinks w with
  | (out, Ret ls) =>
      {| ctl := Launching ls; sem := 0; running := []; panicked := [];
         games := []; output := out; report := None |}
  | (out, o) =>
      {| ctl := Dead (kill o); sem := 0; running := []; panicked := [];
         games := []; output := out; report := None |}
  end.

(** The states [main] can be in. *)
Definition reachable (w : World) (s : Proc) : Prop :=
  main_steps w (main_start w) s.


End Program.

(* ================================================================= *)
(** ** Reference definitions, after the wording of the specification *)

Module Spec.

(** Link discovery as the specification describes it: a depth counter
    that is zero outside the marked container, one on its start tag, and
    follows every nested [div] until the container's own end tag brings
    it back to zero; anchors are captured while it is positive. *)
Definition link_token (st : list string * nat) (token : Token)
  : list string * nat :=
  let '(found, depth) := st in
  match Kind token with
  | StartTagToken =>
      if String.eqb (Data token) "div" then
        match depth with
        | O => if existsb is_marker (Attr token) then (found, 1%nat) else st
        | S _ => (found, S depth)
        end
      else if String.eqb (Data token) "a" then
        match depth with
        | O => st
        | S _ => (found ++ hrefs (Attr token), depth)
        end
      else st
  | EndTagToken =>
      if String.eqb (Data token) "div" then (found, pred depth) else st
  | _ => st
  end.

Fixpoint link_tokens (page : Page) (st : list string * nat)
  : list string * nat :=
  match page with
  | [] => st
  | token :: rest =>
      if TokenType_eqb (Kind token) ErrorToken then st
      else link_tokens rest (link_token st token)
  end.

Definition links_in_marked_containers (page : Page) : list string :=
  fst (link_tokens page ([], O)).

(** The deepest nesting the reference counter reaches on a page. *)
Fixpoint max_depth (page : Page) (st : list string * nat) : nat :=
  match page with
  | [] => snd st
  | token :: rest =>
      if TokenType_eqb (Kind token) ErrorToken then snd st
      else Nat.max (snd st) (max_depth rest (link_token st token))
  end.

Section WithPlatform.

Context {P : Platform}.

Definition qualifies (p : PrizeTier) : bool :=
  (0 <? RemainingCount p) && (0 <? Value p).

(** (remainingCount / RemainingTickets) × value *)
Definition weighted_value (remainingTickets : Z) (p : PrizeTier)
  : float64 :=
  F64.mul (F64.div (F64.of_int (RemainingCount p))
                   (F64.of_int remainingTickets))
          (F64.of_int (Value p)).

(** A sum of floats, accumulated from zero in the order of the list. *)
Definition fsum (l : list float64) : float64 :=
  fold_left F64.add l F64.zero.

Definition expected_win (g : Game) : float64 :=
  fsum (map (weighted_value (RemainingTickets g))
            (filter qualifies (PrizeTiers g))).

Definition EV (g : Game) : float64 :=
  if RemainingTickets g =? 0 then F64.of_int (Price g)
  else F64.sub (F64.of_int (Price g)) (expected_win g).

End WithPlatform.

End Spec.

(* ================================================================= *)
(** ** Fixtures *)

Module Fixture.

Definition tag (k : TokenType) (name : string) (attrs : list Attribute)
  : Token :=
  {| Kind := k; Data := name; Attr := attrs |}.

Definition div_open (class : string) : Token :=
  tag StartTagToken "div" [ {| Key := "class"; Val := class |} ].

Definition div_close : Token := tag EndTagToken "div" [].

Definition anchor (href : string) : Token :=
  tag StartTagToken "a" [ {| Key := "href"; Val := href |} ].

Definition anchor_close : Token := tag EndTagToken "a" [].

(** A marked container with two anchors, and anchors outside it. *)
Definition landing : Page :=
  [ anchor "/about"; anchor_close;
    div_open "col-lg-3 gamebox";
      anchor "/games/lucky-7"; anchor_close;
      anchor "/games/gold-rush"; anchor_close;
    div_close;
    anchor "/contact"; anchor_close ].

(** A marked container whose first anchor sits in a nested [div] and
    whose second anchor follows that nested [div]. *)
Definition nested : Page :=
  [ div_open "col-lg-3 gamebox";
      div_open "thumb";
        anchor "/games/lucky-7"; anchor_close;
      div_close;
      anchor "/games/gold-rush"; anchor_close;
    div_close ].

Definition meta : list (list string) :=
  [ ["Ticket Price"; "$5"];
    ["Overall Odds"; "1:3.50"];
    ["Launch Date"; "2023-01-01"] ].

Definition prize_rows : list (list string) :=
  [ ["$100"; "50"; "10"];
    ["2nd Chance"; "5"; "5"] ].

(** 3.5 = 7881299347898368 × 2^-51 *)
Definition three_and_a_half : float64 :=
  S754_finite false 7881299347898368 (-51).

(** A page whose odds are infinite and whose remaining counts add up to
    zero. *)
Definition odd_meta : list (list string) :=
  [ ["Overall Odds"; "1:Inf"] ].

Definition odd_prizes : list (list string) :=
  [ ["Prize"; "Original"; "Remaining"];
    ["$100"; "5"; "5"];
    ["$1"; "5"; "-5"] ].

(** The Game [BuildGame] makes of that page. *)
Definition odd_game : Game :=
  {| Name := "lucky 7";
     Price := 0;
     Odds := S754_infinity false;
     LaunchDate := "";
     GameNumber := 0;
     PrizeTiers :=
       [ {| Value := 100; OriginalCount := 5; RemainingCount := 5 |};
         {| Value := 1; OriginalCount := 5; RemainingCount := -5 |} ];
     TotalOriginalPrizes := 10;
     TotalRemainingPrizes := 0;
     URL := "/games/lucky-7" |}.

(** Game pages, as the tokens of their two tables. *)
Definition text (s : string) : Token := tag TextToken s [].

Definition cell (s : string) : Page :=
  [ tag StartTagToken "td" []; text s; tag EndTagToken "td" [] ].

Definition row (cells : list string) : Page :=
  tag StartTagToken "tr" [] :: List.concat (map cell cells)
  ++ [ tag EndTagToken "tr" [] ].

Definition table (rows : list (list string)) : Page :=
  tag StartTagToken "table" [] :: List.concat (map row rows)
  ++ [ tag EndTagToken "table" [] ].

Definition lucky_7 : Page :=
  table meta ++ table (["Prize"; "Original"; "Remaining"] :: prize_rows).

Definition gold_rush : Page :=
  table [ ["Ticket Price"; "$2"]; ["Overall Odds"; "1:4.00"] ]
  ++ table [ ["Prize"; "Original"; "Remaining"];
             ["$1,000"; "20"; "2"];
             ["$10"; "1,000"; "400"] ].

(** A network on which everything succeeds. *)
Definition net_ok : World :=
  {| http_get := fun url =>
       if String.eqb url startUrl then Body landing
       else if String.eqb url "/games/lucky-7" then Body lucky_7
       else Body gold_rush;
     os_create := fun _ => None |}.

(** A game without remaining prizes, and the game of the fixture tables. *)
Definition sold_out : Game :=
  {| Name := "sold out";
     Price := 5;
     Odds := three_and_a_half;
     LaunchDate := "2023-01-01";
     GameNumber := 0;
     PrizeTiers :=
       [ {| Value := 100; OriginalCount := 50; RemainingCount := 0 |} ];
     TotalOriginalPrizes := 50;
     TotalRemainingPrizes := 0;
     URL := "/games/sold-out" |}.

Definition lucky_game : Game :=
  {| Name := "lucky 7";
     Price := 5;
     Odds := three_and_a_half;
     LaunchDate := "2023-01-01";
     GameNumber := 0;
     PrizeTiers :=
       [ {| Value := 100; OriginalCount := 50; RemainingCount := 10 |} ];
     TotalOriginalPrizes := 50;
     TotalRemainingPrizes := 10;
     URL := "/games/lucky-7" |}.

(** A game whose page gives no odds: the odds stay 0.0, and so do the
    estimated tickets. *)
Definition no_odds_meta : list (list string) :=
  [ ["Ticket Price"; "$5"] ].

Definition no_odds_game : Game :=
  {| Name := "lucky 7";
     Price := 5;
     Odds := S754_zero false;
     LaunchDate := "";
     GameNumber := 0;
     PrizeTiers :=
       [ {| Value := 100; OriginalCount := 50; RemainingCount := 10 |} ];
     TotalOriginalPrizes := 50;
     TotalRemainingPrizes := 10;
     URL := "/games/lucky-7" |}.

(** A landing page that lists one game, and two networks on which only
    that page can be fetched: on the first the request for the game page
    fails, on the second the reading of its body. *)
Definition one_link : Page :=
  [ div_open "col-lg-3 gamebox"; anchor "/games/lucky-7"; anchor_close;
    div_close ].

Definition net_get_fails : World :=
  {| http_get := fun url =>
       if String.eqb url startUrl then Body one_link
       else GetError "dial tcp: connection refused";
     os_create := fun _ => None |}.


End Fixture.

(* ================================================================= *)
(** ** Vocabulary of the statements *)

(** The two states the scan of [GetLinks] is ever in: outside a session
    with depth 0, or inside one with depth 1. *)
Definition depth_ok (st : LinkScan) : Prop :=
  (inActiveSession st = false /\ divDepth st = 0)
  \/ (inActiveSession st = true /\ divDepth st = 1).

(** The scan of the program and the reference scan agree on what they
    have found and on where they are. *)
Definition same_scan (st : LinkScan) (ref : list string * nat) : Prop :=
  links st = fst ref
  /\ ((inActiveSession st = false /\ divDepth st = 0 /\ snd ref = O)
      \/ (inActiveSession st = true /\ divDepth st = 1 /\ snd ref = 1%nat)).

(** Bytes of [s] other than [c]. *)
Fixpoint without_byte (c : ascii) (s : string) : string :=
  match s with
  | EmptyString => EmptyString
  | String d s' =>
      if Ascii.eqb d c then without_byte c s' else String d (without_byte c s')
  end.

(** The decimal digits of [s], in order. *)
Fixpoint keep_digits (s : string) : string :=
  match s with
  | EmptyString => EmptyString
  | String d s' =>
      if strconv.is_digit d then String d (keep_digits s') else keep_digits s'
  end.

(** The number a string of digits denotes, read after [acc]. *)
Fixpoint decimal_value (acc : Z) (ds : string) : Z :=
  match ds with
  | EmptyString => acc
  | String d ds' => decimal_value (acc * 10 + strconv.digit_val d) ds'
  end.

Fixpoint all_bytes (f : ascii -> bool) (s : string) : bool :=
  match s with
  | EmptyString => true
  | String d s' => f d && all_bytes f s'
  end.

(** A price as the site prints it: digits, with currency symbols and
    thousands separators among them. *)
Definition price_string (s : string) : bool :=
  all_bytes (fun c => strconv.is_digit c || Ascii.eqb c "$" || Ascii.eqb c ",") s
  && negb (String.eqb (keep_digits s) EmptyString).

(** An optional sign followed by at least one digit and nothing else. *)
Definition integer_syntax (s : string) : bool :=
  let body := snd (strconv.strip_sign s) in
  negb (String.eqb body EmptyString) && all_bytes strconv.is_digit body.

(** The digits a string starts with. *)
Fixpoint digit_prefix (s : string) : string :=
  match s with
  | EmptyString => EmptyString
  | String c s' =>
      if strconv.is_digit c then String c (digit_prefix s') else EmptyString
  end.

(** The exact sum of a list of integers. *)
Definition Zsum (l : list Z) : Z := fold_right Z.add 0 l.

(** The invariant of the data model: the totals are the sums of the tier
    counts, in the arithmetic of [int]. *)
Definition totals_ok (g : Game) : Prop :=
  TotalOriginalPrizes g = GoInt.wrap (Zsum (map OriginalCount (PrizeTiers g)))
  /\ TotalRemainingPrizes g
     = GoInt.wrap (Zsum (map RemainingCount (PrizeTiers g))).

(** Every integer field is a value of type [int]. *)
Definition tier_wf (p : PrizeTier) : Prop :=
  GoInt.in_range (Value p) /\ GoInt.in_range (OriginalCount p)
  /\ GoInt.in_range (RemainingCount p).

Definition Game_wf (g : Game) : Prop :=
  GoInt.in_range (Price g) /\ Forall tier_wf (PrizeTiers g).

(** A float that is not NaN and, unless it is a zero, has sign [s]. *)
Definition signed (s : bool) (x : float64) : Prop :=
  match x with
  | S754_nan => False
  | S754_zero _ => True
  | S754_infinity s' | S754_finite s' _ _ => s' = s
  end.

(** A float that is neither NaN, nor infinite, nor zero, of sign [s]. *)
Definition proper (s : bool) (x : float64) : Prop :=
  match x with
  | S754_finite s' _ _ => s' = s
  | _ => False
  end.

(** The position of a float that is not NaN on a line of integers triples,
    compared lexicographically. *)
Definition rank (x : float64) : Z * Z * Z :=
  match x with
  | S754_infinity true => (-2, 0, 0)
  | S754_finite true m e => (-1, - e, - Zpos m)
  | S754_zero _ | S754_nan => (0, 0, 0)
  | S754_finite false m e => (1, e, Zpos m)
  | S754_infinity false => (2, 0, 0)
  end.

Definition lex_le (a b : Z * Z * Z) : Prop :=
  let '(a1, a2, a3) := a in
  let '(b1, b2, b3) := b in
  a1 < b1 \/ (a1 = b1 /\ (a2 < b2 \/ (a2 = b2 /\ a3 <= b3))).

Section RunVocabulary.

Context {P : Platform}.

(** The links [main] ranges over. *)
Definition discovered (w : World) : list string :=
  match GetLinks w with
  | (_, Ret ls) => ls
  | _ => []
  end.

Definition todo_of (c : Control) : list string :=
  match c with Launching todo => todo | _ => [] end.

Definition drained_of (c : Control) : nat :=
  match c with Draining i => i | _ => O end.

(** What holds of every state of a run: the channel counts the live
    goroutines (and, while draining, the values [main] has put back),
    every link is either waiting, running, panicking or has delivered its
    game, and every game was built by the goroutine of its link. *)
Record Inv (w : World) (s : Proc) : Prop := {
  inv_sem :
    alive (ctl s) = true ->
    sem s = (List.length (running s) + drained_of (ctl s))%nat;
  inv_cap : (List.length (running s) <= semCap)%nat;
  inv_sem_cap : alive (ctl s) = true -> (sem s <= semCap)%nat;
  inv_links :
    alive (ctl s) = true ->
    Permutation (discovered w)
                (map URL (games s) ++ panicked s ++ running s
                 ++ todo_of (ctl s));
  inv_finished :
    ctl s = Finished ->
    running s = []
    /\ Permutation (discovered w) (map URL (games s) ++ panicked s);
  inv_games :
    Forall (fun g => exists out, worker w (URL g) = (out, Ret g)) (games s);
  inv_panicked :
    Forall (fun l => exists out msg, worker w l = (out, Panic msg))
           (panicked s);
  inv_report :
    ctl s = Finished ->
    report s = Some (csv_header :: map csv_record (games s))
    /\ exists unsorted, games s = sortSlice unsorted;
  inv_no_report : ctl s <> Finished -> report s = None
}.

(** One schedule of [main]: every goroutine ends before the next one is
    started, and a panic ends the process at once. *)
Fixpoint sequential (w : World) (todo : list string) (gs : list Game)
         (out : list string) : Proc :=
  match todo with
  | [] =>
      finish w {| ctl := Draining semCap; sem := semCap; running := [];
                  panicked := []; games := gs; output := out;
                  report := None |}
  | l :: rest =>
      match worker w l with
      | (o, Ret g) => sequential w rest (gs ++ [g]) (out ++ o)
      | (o, Exit status) =>
          {| ctl := Dead (Exit status); sem := 1; running := [l];
             panicked := []; games := gs; output := out ++ o;
             report := None |}
      | (o, Panic msg) =>
          {| ctl := Dead (Panic msg); sem := 0; running := [];
             panicked := [l]; games := gs;
             output := (out ++ o) ++ [("panic: " ++ msg)%string];
             report := None |}
      end
  end.

Definition sequential_main (w : World) : Proc :=
  match GetLinks w with
  | (out, Ret ls) => sequential w ls [] out
  | _ => main_start w
  end.

(** Schedules: a run written as the list of its steps, to be executed.
    [End i] ends the goroutine at place [i] among the running ones,
    [Crash i] lets the panic of the link at place [i] among the panicked
    ones end the process. *)
Inductive Action : Type :=
| Launch | RangeDone | End (i : nat) | Crash (i : nat) | Drain | Finish.

Definition act (w : World) (a : Action) (s : Proc) : option Proc :=
  match a with
  | Launch =>
      match ctl s with
      | Launching (l :: todo) =>
          if (sem s <? semCap)%nat
          then Some {| ctl := Launching todo; sem := S (sem s);
                       running := l :: running s; panicked := panicked s;
                       games := games s; output := output s;
                       report := report s |}
          else None
      | _ => None
      end
  | RangeDone =>
      match ctl s with
      | Launching [] =>
          Some {| ctl := Draining 0; sem := sem s; running := running s;
                  panicked := panicked s; games := games s;
                  output := output s; report := report s |}
      | _ => None
      end
  | End i =>
      if alive (ctl s) then
        match nth_error (running s) i with
        | Some l =>
            let before := firstn i (running s) in
            let after := skipn (S i) (running s) in
            match worker w l with
            | (out, Ret g) =>
                Some {| ctl := ctl s; sem := pred (sem s);
                        running := before ++ after; panicked := panicked s;
                        games := games s ++ [g];
                        output := output s ++ out; report := report s |}
            | (out, Exit status) =>
                Some {| ctl := Dead (Exit status); sem := sem s;
                        running := running s; panicked := panicked s;
                        games := games s;
                        output := output s ++ out; report := report s |}
            | (out, Panic msg) =>
                Some {| ctl := ctl s; sem := pred (sem s);
                        running := before ++ after;
                        panicked := l :: panicked s;
                        games := games s;
                        output := output s ++ out; report := report s |}
            end
        | None => None
        end
      else None
  | Crash i =>
      if alive (ctl s) then
        match nth_error (panicked s) i with
        | Some l =>
            match worker w l with
            | (_, Panic msg) =>
                Some {| ctl := Dead (Panic msg); sem := sem s;
                        running := running s; panicked := panicked s;
                        games := games s;
                        output := output s ++ [("panic: " ++ msg)%string];
                        report := report s |}
            | _ => None
            end
        | None => None
        end
      else None
  | Drain =>
      match ctl s with
      | Draining i =>
          if (i <? semCap)%nat && (sem s <? semCap)%nat
          then Some {| ctl := Draining (S i); sem := S (sem s);
                       running := running s; panicked := panicked s;
                       games := games s;
                       output := output s; report := report s |}
          else None
      | _ => None
      end
  | Finish =>
      match ctl s with
      | Draining i => if (i =? semCap)%nat then Some (finish w s) else None
      | _ => None
      end
  end.

Fixpoint run_schedule (w : World) (acts : list Action) (s : Proc)
  : option Proc :=
  match acts with
  | [] => Some s
  | a :: rest =>
      match act w a s with
      | Some s' => run_schedule w rest s'
      | None => None
      end
  end.

(** The state a schedule leads [main] to; the state it stopped in when a
    step of the schedule cannot be taken. *)
Fixpoint follow (w : World) (acts : list Action) (s : Proc) : Proc :=
  match acts with
  | [] => s
  | a :: rest =>
      match act w a s with
      | Some s' => follow w rest s'
      | None => s
      end
  end.

Definition after (w : World) (acts : list Action) : Proc :=
  follow w acts (main_start w).

(** The schedule that gives the channel its 75 values back. *)
Definition drain_all : list Action := repeat Drain semCap.

(** The claim that a failed fetch only skips its link. *)
Definition failed_links_are_skipped (w : World) : Prop :=
  forall l, In l (discovered w) ->
            fetch_fails (http_get w l) = true ->
            aborts (snd (worker w l)) = false.

End RunVocabulary.

(* ================================================================= *)
(** ** Vocabulary of the further properties *)

(** Pages written out from data: what the scans are to read back. *)
Module Render.

Definition anchors (hs : list string) : Page :=
  List.concat (map (fun h => [Fixture.anchor h; Fixture.anchor_close]) hs).

Definition container (hs : list string) : Page :=
  Fixture.div_open "col-lg-3 gamebox" :: anchors hs ++ [Fixture.div_close].

(** Anchors outside any container, then a marked container. *)
Definition block (b : list string * list string) : Page :=
  anchors (fst b) ++ container (snd b).

Definition landing (bs : list (list string * list string))
           (trailing : list string) : Page :=
  List.concat (map block bs) ++ anchors trailing.

Definition tables (ts : list (list (list string))) : Page :=
  List.concat (map Fixture.table ts).

End Render.

(** What [ExtractTables] keeps of the cells of a row: the trimmed texts
    that are not empty. *)
Definition clean_row (cells : list string) : list string :=
  filter (fun c => negb (String.eqb c EmptyString))
         (map strings.TrimSpace cells).

Definition is_tag (k : TokenType) (name : string) (t : Token) : bool :=
  TokenType_eqb (Kind t) k && String.eqb (Data t) name.

Definition count_tokens (f : Token -> bool) (page : Page) : nat :=
  List.length (filter f page).

(** The start tag of a marked container. *)
Definition opens_session (t : Token) : bool :=
  is_tag StartTagToken "div" t && existsb is_marker (Attr t).

(** The hrefs of all the anchors of a page, in document order. *)
Definition anchor_hrefs (page : Page) : list string :=
  List.concat
    (map (fun t => if is_tag StartTagToken "a" t then hrefs (Attr t) else [])
         page).

Section Labels.

Context {P : Platform}.

(** A row of the metadata table that [ParseMetaData] reads: at least two
    cells, the first holding one of the three labels. *)
Definition meta_label (row : list string) : bool :=
  match row with
  | row0 :: _ :: _ =>
      let key := strings.ToLower row0 in
      strings.Contains key "ticket price"
      || strings.Contains key "overall odds"
      || strings.Contains key "launch date"
  | _ => false
  end.

(** A row of the prize table that [ParsePrizes] turns into a tier. *)
Definition keeps_prize_row (row : list string) : bool :=
  match row with
  | row0 :: _ :: _ :: _ =>
      negb (strings.Contains (strings.ToLower row0) "2nd chance")
  | _ => false
  end.

End Labels.

Definition tier_of_row (row : list string) : PrizeTier :=
  {| Value := parseDollar (nth 0 row EmptyString);
     OriginalCount := parseInt (nth 1 row EmptyString);
     RemainingCount := parseInt (nth 2 row EmptyString) |}.

(** Every byte [c] of [s] turned into [d]. *)
Fixpoint replace_byte (c d : ascii) (s : string) : string :=
  match s with
  | EmptyString => EmptyString
  | String x s' =>
      String (if Ascii.eqb x c then d else x) (replace_byte c d s')
  end.

(** A count as the site prints it: digits with thousands separators. *)
Definition count_string (s : string) : bool :=
  all_bytes (fun c => strconv.is_digit c || Ascii.eqb c ",") s
  && negb (String.eqb (keep_digits s) EmptyString).

(** A path segment: not empty, no slash. *)
Definition segment (s : string) : bool :=
  negb (String.eqb s EmptyString) && Nat.eqb (strings.count_byte "/" s) 0.

(** No tier of the game can still be won. *)
Definition nothing_to_win (g : Game) : bool :=
  forallb (fun p => (RemainingCount p <=? 0) || (Value p <=? 0))
          (PrizeTiers g).

(** [n] slashes. *)
Fixpoint slashes (n : nat) : string :=
  match n with
  | O => EmptyString
  | S k => String "/" (slashes k)
  end.

Section RunLength.

Context {P : Platform}.

(** Runs of [main] with the number of their steps. *)
Inductive main_run (w : World) : nat -> Proc -> Proc -> Prop :=
| run_refl : forall s, main_run w 0 s s
| run_step : forall n s1 s2 s3,
    main_run w n s1 s2 -> main_step w s2 s3 -> main_run w (S n) s1 s3.

End RunLength.

(** A bound on the steps a state can still take: two for each link to
    start, one for each goroutine to end, one for each value put back
    into the channel, and the two steps that leave the loops. *)
Definition steps_left (s : Proc) : nat :=
  match ctl s with
  | Launching todo =>
      2 * List.length todo + List.length (running s) + semCap + 2
  | Draining i => List.length (running s) + (semCap - i) + 1
  | _ => 0
  end.

(** Two schedules for a landing page of two links: every goroutine ends
    before the next one is started; or both are started, and the second
    ends first.  Both go on until the channel is full again. *)
Definition one_by_one : list Action :=
  [Launch; End 0; Launch; End 0; RangeDone] ++ drain_all.

Definition second_first : list Action :=
  [Launch; Launch; End 0; End 0; RangeDone] ++ drain_all.

(** The network of the fixtures, on a disk that cannot be written. *)
Definition net_unwritable : World :=
  {| http_get := http_get Fixture.net_ok;
     os_create := fun _ => Some "permission denied" |}.

(** The last field of a record of the report. *)
Definition url_column (rows : list (list string)) : list string :=
  map (fun r => last r EmptyString) rows.

(** A header cell written as a data cell. *)
Definition th_to_td (t : Token) : Token :=
  match Kind t with
  | StartTagToken | EndTagToken =>
      if String.eqb (Data t) "th"
      then {| Kind := Kind t; Data := "td"; Attr := Attr t |}
      else t
  | _ => t
  end.

Section GameOfLink.

Context {P : Platform}.

(** The game the goroutine of a link delivers, if it delivers one. *)
Definition game_of (w : World) (l : string) : option Game :=
  match snd (worker w l) with
  | Ret g => Some g
  | _ => None
  end.

End GameOfLink.

(* ================================================================= *)
(** * Theorems *)

(** ** Strings *)

Lemma prefix_empty : forall s, String.prefix EmptyString s = true.
Proof. destruct s; reflexivity. Qed.

Lemma prefix_byte : forall c d s,
  String.prefix (String c EmptyString) (String d s) = Ascii.eqb d c.
Proof.
  intros c d s. cbn [String.prefix].
  destruct (ascii_dec c d) as [->|Hne].
  - rewrite prefix_empty, Ascii.eqb_refl. reflexivity.
  - symmetry. apply Ascii.eqb_neq. congruence.
Qed.

Lemma replace_byte_away : forall c s,
  strings.ReplaceAll s (String c EmptyString) EmptyString = without_byte c s.
Proof.
  intros c s. unfold strings.ReplaceAll.
  induction s as [|d s IH]; [reflexivity|].
  cbn [strings.replace_from without_byte]. rewrite prefix_byte.
  cbn [String.length Nat.sub]. rewrite IH.
  destruct (Ascii.eqb d c); reflexivity.
Qed.

Lemma split_byte_cons : forall c d s cur,
  strings.split_from 0 (String d s) (String c EmptyString) cur
  = if Ascii.eqb d c
    then cur :: strings.split_from 0 s (String c EmptyString) EmptyString
    else strings.split_from 0 s (String c EmptyString)
                            (cur ++ String d EmptyString)%string.
Proof.
  intros. cbn [strings.split_from]. rewrite prefix_byte. reflexivity.
Qed.

Lemma split_length : forall c s cur,
  List.length (strings.split_from 0 s (String c EmptyString) cur)
  = S (strings.count_byte c s).
Proof.
  intros c s. induction s as [|d s IH]; intros cur; [reflexivity|].
  rewrite split_byte_cons. cbn [strings.count_byte].
  destruct (Ascii.eqb d c); cbn [List.length]; rewrite IH; reflexivity.
Qed.

Lemma append_assoc : forall a b c : string,
  ((a ++ b) ++ c = a ++ (b ++ c))%string.
Proof. induction a; intros; cbn; [|rewrite IHa]; reflexivity. Qed.

Lemma append_empty_r : forall a : string, (a ++ EmptyString)%string = a.
Proof. induction a; cbn; [|rewrite IHa]; reflexivity. Qed.

Lemma split_no_sep : forall c s cur,
  strings.count_byte c s = O ->
  strings.split_from 0 s (String c EmptyString) cur = [(cur ++ s)%string].
Proof.
  intros c s. induction s as [|d s IH]; intros cur H.
  - cbn. rewrite append_empty_r. reflexivity.
  - rewrite split_byte_cons. cbn [strings.count_byte] in H.
    destruct (Ascii.eqb d c); [discriminate|].
    rewrite IH by exact H. rewrite append_assoc. reflexivity.
Qed.

Lemma split_one_sep : forall c l r cur,
  strings.count_byte c l = O ->
  strings.count_byte c r = O ->
  strings.split_from 0 (l ++ String c r)%string (String c EmptyString) cur
  = [(cur ++ l)%string; r].
Proof.
  intros c l. induction l as [|d l IH]; intros r cur Hl Hr.
  - cbn [String.append]. rewrite split_byte_cons, Ascii.eqb_refl.
    rewrite split_no_sep by exact Hr. rewrite append_empty_r. reflexivity.
  - cbn [String.append]. rewrite split_byte_cons.
    cbn [strings.count_byte] in Hl.
    destruct (Ascii.eqb d c); [discriminate|].
    rewrite IH by assumption. rewrite append_assoc. reflexivity.
Qed.

(** ** strconv *)

Lemma digits_val_decimal : forall ds acc,
  all_bytes strconv.is_digit ds = true ->
  strconv.digits_val acc ds = Some (decimal_value acc ds).
Proof.
  induction ds as [|d ds IH]; intros acc H; [reflexivity|].
  cbn in H. apply andb_true_iff in H as [Hd Hds].
  cbn [strconv.digits_val decimal_value]. rewrite Hd. apply IH, Hds.
Qed.

Lemma digits_val_none : forall ds acc,
  all_bytes strconv.is_digit ds = false ->
  strconv.digits_val acc ds = None.
Proof.
  induction ds as [|d ds IH]; intros acc H; [discriminate|].
  cbn in H. cbn [strconv.digits_val].
  destruct (strconv.is_digit d); [apply IH, H | reflexivity].
Qed.

Lemma digit_val_range : forall d,
  strconv.is_digit d = true -> 0 <= strconv.digit_val d <= 9.
Proof.
  intros d H. unfold strconv.is_digit in H. unfold strconv.digit_val.
  apply andb_true_iff in H as [H1 H2].
  apply Nat.leb_le in H1. apply Nat.leb_le in H2. lia.
Qed.

Lemma decimal_value_nonneg : forall ds acc,
  all_bytes strconv.is_digit ds = true -> 0 <= acc ->
  0 <= decimal_value acc ds.
Proof.
  induction ds as [|d ds IH]; intros acc H Hacc; [exact Hacc|].
  cbn in H. apply andb_true_iff in H as [Hd Hds].
  cbn [decimal_value]. apply IH; [exact Hds|].
  pose proof (digit_val_range d Hd). lia.
Qed.

Lemma decimal_value_ge : forall ds acc,
  all_bytes strconv.is_digit ds = true -> 0 <= acc ->
  acc <= decimal_value acc ds.
Proof.
  induction ds as [|d ds IH]; intros acc H Hacc; [cbn; lia|].
  cbn in H. apply andb_true_iff in H as [Hd Hds].
  cbn [decimal_value]. pose proof (digit_val_range d Hd).
  specialize (IH (acc * 10 + strconv.digit_val d) Hds ltac:(lia)). lia.
Qed.

Lemma decimal_value_bound : forall ds acc,
  all_bytes strconv.is_digit ds = true -> 0 <= acc ->
  decimal_value acc ds < (acc + 1) * 10 ^ Z.of_nat (String.length ds).
Proof.
  induction ds as [|d ds IH]; intros acc H Hacc; [cbn; lia|].
  cbn in H. apply andb_true_iff in H as [Hd Hds].
  cbn [decimal_value String.length]. pose proof (digit_val_range d Hd).
  specialize (IH (acc * 10 + strconv.digit_val d) Hds ltac:(lia)).
  rewrite Nat2Z.inj_succ, Z.pow_succ_r by lia.
  assert (0 < 10 ^ Z.of_nat (String.length ds)) by (apply Z.pow_pos_nonneg; lia).
  nia.
Qed.

Lemma digit_prefix_digits : forall s,
  all_bytes strconv.is_digit (digit_prefix s) = true.
Proof.
  induction s as [|c s IH]; [reflexivity|].
  cbn [digit_prefix]. destruct (strconv.is_digit c) eqn:E; [|reflexivity].
  cbn [all_bytes]. rewrite E, IH. reflexivity.
Qed.

Lemma digit_prefix_length : forall s,
  (String.length (digit_prefix s) <= String.length s)%nat.
Proof.
  induction s as [|c s IH]; [cbn; lia|].
  cbn [digit_prefix]. destruct (strconv.is_digit c); cbn [String.length]; lia.
Qed.

Lemma digits_val_some : forall s acc n,
  strconv.digits_val acc s = Some n -> all_bytes strconv.is_digit s = true.
Proof.
  induction s as [|c s IH]; intros acc n H; [reflexivity|].
  cbn [strconv.digits_val] in H. cbn [all_bytes].
  destruct (strconv.is_digit c); [|discriminate H].
  rewrite (IH _ _ H). reflexivity.
Qed.

Lemma strip_sign_length : forall s,
  (String.length (snd (strconv.strip_sign s)) <= String.length s)%nat.
Proof.
  intros [|c s]; [cbn; lia|]. unfold strconv.strip_sign.
  destruct c as [[] [] [] [] [] [] [] []]; cbn; lia.
Qed.

Lemma strip_sign_digit : forall c s,
  strconv.is_digit c = true ->
  strconv.strip_sign (String c s) = (false, String c s).
Proof.
  intros c s Hc. unfold strconv.strip_sign.
  destruct c as [[] [] [] [] [] [] [] []]; try reflexivity; discriminate Hc.
Qed.

Ltac uint_bounds :=
  unfold strconv.maxUint64, GoInt.minInt64, GoInt.maxInt64 in *;
  change (2 ^ 64) with 18446744073709551616 in *;
  change (2 ^ 63) with 9223372036854775808 in *;
  change ((18446744073709551616 - 1) / 10 + 1) with 1844674407370955162 in *.

(** The loop of [ParseUint] on digits whose value fits. *)
Lemma parse_uint_digits : forall ds n,
  all_bytes strconv.is_digit ds = true -> 0 <= n ->
  decimal_value n ds <= strconv.maxUint64 ->
  strconv.parse_uint n ds = (decimal_value n ds, None).
Proof.
  induction ds as [|d ds IH]; intros n H Hn Hmax; [reflexivity|].
  cbn in H. apply andb_true_iff in H as [Hd Hds].
  cbn [strconv.parse_uint decimal_value] in *. rewrite Hd. cbv zeta.
  pose proof (digit_val_range d Hd) as Hr.
  pose proof (decimal_value_ge ds (n * 10 + strconv.digit_val d) Hds
                ltac:(lia)) as Hge.
  destruct (Z.leb_spec (strconv.maxUint64 / 10 + 1) n) as [Hc|Hc].
  { exfalso. uint_bounds. lia. }
  destruct (Z.ltb_spec strconv.maxUint64 (n * 10 + strconv.digit_val d))
    as [Ho|Ho].
  { exfalso. lia. }
  apply IH; [exact Hds | lia | exact Hmax].
Qed.

(** The loop of [ParseUint] on a string that holds a byte that is no
    digit: the error is that of the first thing met, the overflow of the
    digits read or the bad byte. *)
Lemma parse_uint_bad_byte : forall s n,
  all_bytes strconv.is_digit s = false ->
  0 <= n <= strconv.maxUint64 ->
  strconv.parse_uint n s
  = if decimal_value n (digit_prefix s) <=? strconv.maxUint64
    then (0, Some strconv.ErrSyntax)
    else (strconv.maxUint64, Some strconv.ErrRange).
Proof.
  induction s as [|c s IH]; intros n H Hn; [discriminate H|].
  cbn [all_bytes] in H. cbn [strconv.parse_uint digit_prefix].
  destruct (strconv.is_digit c) eqn:Hd.
  - cbn [andb] in H. cbn [decimal_value]. cbv zeta.
    pose proof (digit_val_range c Hd) as Hr.
    pose proof (decimal_value_ge (digit_prefix s)
                  (n * 10 + strconv.digit_val c) (digit_prefix_digits s)
                  ltac:(lia)) as Hge.
    destruct (Z.leb_spec (strconv.maxUint64 / 10 + 1) n) as [Hc|Hc].
    { destruct (Z.leb_spec
                  (decimal_value (n * 10 + strconv.digit_val c)
                     (digit_prefix s)) strconv.maxUint64) as [Hle|_];
        [exfalso; uint_bounds; lia | reflexivity]. }
    destruct (Z.ltb_spec strconv.maxUint64 (n * 10 + strconv.digit_val c))
      as [Ho|Ho].
    { destruct (Z.leb_spec
                  (decimal_value (n * 10 + strconv.digit_val c)
                     (digit_prefix s)) strconv.maxUint64) as [Hle|_];
        [exfalso; lia | reflexivity]. }
    apply IH; [exact H | lia].
  - cbn [decimal_value].
    destruct (Z.leb_spec n strconv.maxUint64); [reflexivity | lia].
Qed.

Lemma parse_uint_nonneg : forall s n,
  0 <= n -> 0 <= fst (strconv.parse_uint n s).
Proof.
  induction s as [|c s IH]; intros n Hn; [exact Hn|].
  cbn [strconv.parse_uint].
  destruct (strconv.is_digit c) eqn:Hd; [|cbn; lia].
  cbv zeta. pose proof (digit_val_range c Hd).
  destruct (strconv.maxUint64 / 10 + 1 <=? n); [cbn; uint_bounds; lia|].
  destruct (strconv.maxUint64 <? n * 10 + strconv.digit_val c);
    [cbn; uint_bounds; lia|].
  apply IH. lia.
Qed.

Lemma Atoi_digits : forall ds,
  ds <> EmptyString ->
  all_bytes strconv.is_digit ds = true ->
  decimal_value 0 ds <= GoInt.maxInt64 ->
  strconv.Atoi ds = (decimal_value 0 ds, None).
Proof.
  intros ds Hne Hd Hmax. unfold strconv.Atoi. cbv zeta.
  destruct ds as [|c ds]; [congruence|].
  assert (Hc : strconv.is_digit c = true).
  { cbn in Hd. apply andb_true_iff in Hd as [Hc _]. exact Hc. }
  pose proof (decimal_value_nonneg _ 0 Hd ltac:(lia)) as Hnn.
  destruct ((0 <? String.length (String c ds))%nat
            && (String.length (String c ds) <? 19)%nat).
  - rewrite (strip_sign_digit c ds Hc).
    rewrite digits_val_decimal by exact Hd. reflexivity.
  - unfold strconv.ParseInt. rewrite (strip_sign_digit c ds Hc).
    unfold strconv.ParseUint.
    rewrite parse_uint_digits by (try exact Hd; uint_bounds; lia).
    cbv zeta. cbn [negb andb].
    destruct (Z.leb_spec (2 ^ 63) (decimal_value 0 (String c ds)));
      [uint_bounds; lia | reflexivity].
Qed.

Lemma Atoi_negative : forall ds,
  ds <> EmptyString ->
  all_bytes strconv.is_digit ds = true ->
  decimal_value 0 ds <= 2 ^ 63 ->
  strconv.Atoi (String "-" ds) = (- decimal_value 0 ds, None).
Proof.
  intros ds Hne Hd Hmax. unfold strconv.Atoi. cbv zeta.
  destruct ds as [|c ds]; [congruence|].
  pose proof (decimal_value_nonneg _ 0 Hd ltac:(lia)) as Hnn.
  destruct ((0 <? String.length (String "-" (String c ds)))%nat
            && (String.length (String "-" (String c ds)) <? 19)%nat).
  - cbn [strconv.strip_sign].
    rewrite digits_val_decimal by exact Hd. reflexivity.
  - unfold strconv.ParseInt. cbn [strconv.strip_sign].
    unfold strconv.ParseUint.
    rewrite parse_uint_digits by (try exact Hd; uint_bounds; lia).
    cbv zeta. cbn [negb andb].
    destruct (Z.ltb_spec (2 ^ 63) (decimal_value 0 (String c ds)));
      [uint_bounds; lia | reflexivity].
Qed.

(** [Atoi] on a string that is not an optionally signed run of digits:
    0 with a syntax error, unless the digits after the sign overflow
    before the first other byte is read. *)
Lemma Atoi_malformed : forall s,
  integer_syntax s = false ->
  strconv.Atoi s
  = if decimal_value 0 (digit_prefix (snd (strconv.strip_sign s)))
       <=? strconv.maxUint64
    then (0, Some strconv.ErrSyntax)
    else (if fst (strconv.strip_sign s)
          then GoInt.minInt64 else GoInt.maxInt64, Some strconv.ErrRange).
Proof.
  intros s H. unfold integer_syntax in H. unfold strconv.Atoi. cbv zeta.
  pose proof (strip_sign_length s) as Hlen.
  destruct ((0 <? String.length s)%nat && (String.length s <? 19)%nat) eqn:E.
  - apply andb_true_iff in E as [_ E]. apply Nat.ltb_lt in E.
    destruct (strconv.strip_sign s) as [neg body]. cbn [fst snd] in *.
    assert (Hsmall : decimal_value 0 (digit_prefix body)
                     <= strconv.maxUint64).
    { pose proof (decimal_value_bound (digit_prefix body) 0
                    (digit_prefix_digits body) ltac:(lia)) as Hb.
      pose proof (digit_prefix_length body) as Hp.
      assert (10 ^ Z.of_nat (String.length (digit_prefix body)) <= 10 ^ 18).
      { apply Z.pow_le_mono_r; lia. }
      change (10 ^ 18) with 1000000000000000000 in *. uint_bounds. lia. }
    destruct (Z.leb_spec (decimal_value 0 (digit_prefix body))
                         strconv.maxUint64); [|lia].
    destruct body as [|c body]; [reflexivity|].
    cbn [String.eqb negb andb] in H.
    rewrite digits_val_none by exact H. reflexivity.
  - unfold strconv.ParseInt.
    destruct s as [|c0 s0]; [reflexivity|].
    destruct (strconv.strip_sign (String c0 s0)) as [neg body].
    cbn [fst snd] in *. unfold strconv.ParseUint.
    destruct body as [|c body]; [reflexivity|].
    cbn [String.eqb negb andb] in H.
    rewrite parse_uint_bad_byte by (try exact H; uint_bounds; lia).
    destruct (decimal_value 0 (digit_prefix (String c body))
              <=? strconv.maxUint64); [reflexivity|].
    cbv zeta. destruct neg; reflexivity.
Qed.

Lemma without_price_bytes : forall s,
  all_bytes (fun c => strconv.is_digit c || Ascii.eqb c "$" || Ascii.eqb c ",") s
  = true ->
  without_byte "," (without_byte "$" s) = keep_digits s
  /\ all_bytes strconv.is_digit (keep_digits s) = true.
Proof.
  induction s as [|d s IH]; intros H; [split; reflexivity|].
  cbn in H. apply andb_true_iff in H as [Hd Hs].
  destruct (IH Hs) as [IH1 IH2].
  cbn [without_byte keep_digits].
  destruct (strconv.is_digit d) eqn:Ed.
  - assert (Ascii.eqb d "$" = false /\ Ascii.eqb d "," = false) as [E1 E2].
    { split; apply Ascii.eqb_neq; intros ->; discriminate Ed. }
    rewrite E1. cbn [without_byte]. rewrite E2, IH1. cbn. rewrite Ed, IH2.
    split; reflexivity.
  - cbn in Hd. destruct (Ascii.eqb d "$") eqn:E1.
    + split; assumption.
    + cbn in Hd. cbn [without_byte]. rewrite Hd. split; assumption.
Qed.

(** C8, as the program has it.  A price written with digits, currency
    symbols and thousands separators parses to the number its digits
    denote, as long as that number is an [int].  When what is left after
    removing the symbols and separators is not an optionally signed run of
    digits, [parseDollar] returns 0, unless the digits that follow the
    sign overflow 64 bits before the first other byte is read: then it
    returns the bound [strconv.Atoi] clamps to.  A malformed rest of fewer
    than 19 bytes always gives 0.  No error is ever signalled: the result
    is a plain integer.  For instance "$1,000" gives 1000. *)
Theorem parseDollar_price :
  (forall s,
     price_string s = true ->
     decimal_value 0 (keep_digits s) <= GoInt.maxInt64 ->
     parseDollar s = decimal_value 0 (keep_digits s))
  /\ (forall s,
        let rest := without_byte "," (without_byte "$" s) in
        let digits := digit_prefix (snd (strconv.strip_sign rest)) in
        integer_syntax rest = false ->
        (decimal_value 0 digits <= strconv.maxUint64 -> parseDollar s = 0)
        /\ (strconv.maxUint64 < decimal_value 0 digits ->
            parseDollar s
            = if fst (strconv.strip_sign rest)
              then GoInt.minInt64 else GoInt.maxInt64)
        /\ ((String.length rest < 19)%nat -> parseDollar s = 0))
  /\ parseDollar "$1,000" = 1000.
Proof.
  split; [|split].
  - intros s Hs Hmax. unfold price_string in Hs.
    apply andb_true_iff in Hs as [Hb Hne].
    destruct (without_price_bytes s Hb) as [Hw Hd].
    unfold parseDollar. rewrite !replace_byte_away, Hw.
    rewrite Atoi_digits; [reflexivity| |exact Hd|exact Hmax].
    intros E. rewrite E in Hne. discriminate Hne.
  - intros s rest digits H. subst rest digits.
    unfold parseDollar. cbv zeta. rewrite !replace_byte_away.
    rewrite Atoi_malformed by exact H.
    set (rest := without_byte "," (without_byte "$" s)) in *.
    set (digits := digit_prefix (snd (strconv.strip_sign rest))).
    assert (Hsmall : decimal_value 0 digits <= strconv.maxUint64 ->
                     fst (if decimal_value 0 digits <=? strconv.maxUint64
                          then (0, Some strconv.ErrSyntax)
                          else (if fst (strconv.strip_sign rest)
                                then GoInt.minInt64 else GoInt.maxInt64,
                                Some strconv.ErrRange)) = 0).
    { intros Hle.
      destruct (Z.leb_spec (decimal_value 0 digits) strconv.maxUint64);
        [reflexivity | lia]. }
    split; [exact Hsmall|]. split.
    + intros Hgt.
      destruct (Z.leb_spec (decimal_value 0 digits) strconv.maxUint64);
        [lia | reflexivity].
    + intros Hlen. apply Hsmall. subst digits.
      pose proof (decimal_value_bound _ 0
                    (digit_prefix_digits (snd (strconv.strip_sign rest)))
                    ltac:(lia)) as Hb.
      pose proof (digit_prefix_length (snd (strconv.strip_sign rest))) as Hp.
      pose proof (strip_sign_length rest) as Hs.
      assert (10 ^ Z.of_nat
                (String.length
                   (digit_prefix (snd (strconv.strip_sign rest))))
              <= 10 ^ 18).
      { apply Z.pow_le_mono_r; lia. }
      change (10 ^ 18) with 1000000000000000000 in *. uint_bounds. lia.
  - vm_compute. reflexivity.
Qed.

(** "$12,500" is a price; "$1.50" is not an integer once the symbol is
    gone. *)
Lemma parseDollar_price_witness :
  price_string "$12,500" = true
  /\ integer_syntax (without_byte "," (without_byte "$" "$1.50")) = false
  /\ parseDollar "$12,500" = 12500
  /\ parseDollar "$1.50" = 0.
Proof.
  split; [vm_compute; reflexivity|]. split; [vm_compute; reflexivity|]. split.
  - apply (proj1 parseDollar_price "$12,500"); [vm_compute; reflexivity|].
    vm_compute. discriminate.
  - apply (proj1 (proj1 (proj2 parseDollar_price) "$1.50" eq_refl)).
    vm_compute. discriminate.
Defined.

(** C8, as the specification words it, fails: twenty digits and a letter
    are malformed, and [parseDollar] returns the largest [int], not 0. *)
Theorem parseDollar_clamps_malformed_overflow :
  integer_syntax
    (without_byte "," (without_byte "$" "$99,999,999,999,999,999,999x"))
  = false
  /\ parseDollar "$99,999,999,999,999,999,999x" = GoInt.maxInt64
  /\ parseDollar "$99,999,999,999,999,999,999x" <> 0.
Proof.
  split; [vm_compute; reflexivity|].
  split; [vm_compute; reflexivity | vm_compute; discriminate].
Qed.

(** ** parseOdds *)

Section OddsTheorems.

Context {P : Platform}.

Lemma parseOdds_split : forall l r,
  strings.count_byte ":" l = O ->
  strings.count_byte ":" r = O ->
  parseOdds (l ++ String ":" r)%string = fst (ParseFloat r).
Proof.
  intros l r Hl Hr. unfold parseOdds, strings.Split.
  rewrite split_one_sep by assumption. reflexivity.
Qed.

(** C7.  On a string "1:X" whose right-hand side X holds no further colon,
    [parseOdds] returns the float X denotes (the value
    [strconv.ParseFloat] reads in X); on a string that does not hold
    exactly one colon it returns 0.0; and when the right-hand side is not
    the syntax of a float it returns 0.0 as well. *)
Theorem parseOdds_reads_right_hand_side :
  (forall X f out_of_range,
     strings.count_byte ":" X = O ->
     float_literal X = Some (f, out_of_range) ->
     parseOdds ("1:" ++ X)%string = f)
  /\ (forall s, strings.count_byte ":" s <> 1%nat -> parseOdds s = F64.zero)
  /\ (forall l r,
        strings.count_byte ":" l = O ->
        strings.count_byte ":" r = O ->
        float_literal r = None ->
        parseOdds (l ++ ":" ++ r)%string = F64.zero).
Proof.
  split; [|split].
  - intros X f ovf HX Hf.
    change ("1:" ++ X)%string with ("1" ++ String ":" X)%string.
    rewrite parseOdds_split by (try reflexivity; exact HX).
    unfold ParseFloat. rewrite Hf. destruct ovf; reflexivity.
  - intros s Hs. unfold parseOdds, strings.Split.
    rewrite split_length.
    destruct (Nat.eqb_spec (S (strings.count_byte ":" s)) 2) as [E|E].
    + exfalso. apply Hs. lia.
    + reflexivity.
  - intros l r Hl Hr Hf.
    change (":" ++ r)%string with (String ":" r).
    rewrite parseOdds_split by assumption.
    unfold ParseFloat. rewrite Hf. reflexivity.
Qed.

End OddsTheorems.

(** "1:4.50" reads as 4.5; without a colon, or with a comma for the
    decimal point, the result is 0.0. *)
Lemma parseOdds_reads_right_hand_side_witness :
  parseOdds (P := Reference.platform) "1:4.50"
  = S754_finite false 5066549580791808 (-50)
  /\ parseOdds (P := Reference.platform) "4.50" = F64.zero
  /\ parseOdds (P := Reference.platform) "1:4,50" = F64.zero.
Proof.
  pose proof (@parseOdds_reads_right_hand_side Reference.platform)
    as [H1 [H2 H3]].
  split; [|split].
  - apply (H1 "4.50" _ false); vm_compute; reflexivity.
  - apply H2. vm_compute. discriminate.
  - apply (H3 "1" "4,50"); vm_compute; reflexivity.
Defined.

(** ** Arithmetic of [int] *)

Ltac int_bounds :=
  unfold GoInt.in_range, GoInt.wrap, GoInt.minInt64, GoInt.maxInt64 in *;
  change (2 ^ 64) with 18446744073709551616 in *;
  change (2 ^ 63) with 9223372036854775808 in *.

Lemma wrap_in_range : forall z, GoInt.in_range (GoInt.wrap z).
Proof.
  intros z. int_bounds.
  assert (Hpos : 0 < 18446744073709551616) by lia.
  pose proof (Z.mod_pos_bound (z + 9223372036854775808) _ Hpos). lia.
Qed.

Lemma wrap_small : forall z, GoInt.in_range z -> GoInt.wrap z = z.
Proof.
  intros z H. int_bounds. rewrite Z.mod_small by lia. lia.
Qed.

Lemma wrap_add_l : forall a b, GoInt.wrap (GoInt.wrap a + b) = GoInt.wrap (a + b).
Proof.
  intros a b. int_bounds.
  replace ((a + 9223372036854775808) mod 18446744073709551616
           - 9223372036854775808 + b + 9223372036854775808)
    with ((a + 9223372036854775808) mod 18446744073709551616 + b) by lia.
  rewrite Z.add_mod_idemp_l by lia.
  f_equal. f_equal. lia.
Qed.

Lemma fold_add_wrap : forall l a,
  fold_left GoInt.add l (GoInt.wrap a) = GoInt.wrap (a + Zsum l).
Proof.
  induction l as [|x l IH]; intros a; cbn [fold_left].
  - f_equal. cbn. lia.
  - change (GoInt.add (GoInt.wrap a) x) with (GoInt.wrap (GoInt.wrap a + x)).
    rewrite wrap_add_l, IH. f_equal.
    change (Zsum (x :: l)) with (x + Zsum l). lia.
Qed.

Lemma sum_wrap : forall l, GoInt.sum l = GoInt.wrap (Zsum l).
Proof.
  intros l. unfold GoInt.sum.
  change 0 with (GoInt.wrap 0) at 1. rewrite fold_add_wrap. reflexivity.
Qed.

Lemma fold_add_tier : forall l a b,
  fold_left add_tier l (a, b)
  = (fold_left GoInt.add (map OriginalCount l) a,
     fold_left GoInt.add (map RemainingCount l) b).
Proof.
  induction l as [|p l IH]; intros a b; [reflexivity|].
  cbn [fold_left map]. unfold add_tier at 2. cbn [fst snd]. apply IH.
Qed.

(** ** BuildGame *)

Section BuildTheorems.

Context {P : Platform}.

Lemma BuildGame_Ret : forall tbls name url g,
  BuildGame tbls name url = Ret g ->
  exists meta header rows rest,
    tbls = meta :: (header :: rows) :: rest
    /\ g = {| Name := name;
              Price := fst (fst (ParseMetaData meta));
              Odds := snd (fst (ParseMetaData meta));
              LaunchDate := snd (ParseMetaData meta);
              GameNumber := 0;
              PrizeTiers := fold_left prize_row rows [];
              TotalOriginalPrizes :=
                GoInt.sum (map OriginalCount (fold_left prize_row rows []));
              TotalRemainingPrizes :=
                GoInt.sum (map RemainingCount (fold_left prize_row rows []));
              URL := url |}.
Proof.
  intros tbls name url g H. unfold BuildGame in H.
  destruct tbls as [|meta [|prizeTables rest]]; cbn in H; try discriminate.
  destruct (ParseMetaData meta) as [[price odds] launchdate] eqn:Em.
  destruct prizeTables as [|header rows]; cbn in H; [discriminate|].
  exists meta, header, rows, rest. split; [reflexivity|].
  rewrite fold_add_tier in H. cbn [fst snd] in H.
  injection H as <-. rewrite Em. reflexivity.
Qed.

Lemma BuildGame_URL : forall tbls name url g,
  BuildGame tbls name url = Ret g -> URL g = url.
Proof.
  intros * H. apply BuildGame_Ret in H as (? & ? & ? & ? & _ & ->). reflexivity.
Qed.

Lemma BuildGame_totals : forall tbls name url g,
  BuildGame tbls name url = Ret g -> totals_ok g.
Proof.
  intros * H. apply BuildGame_Ret in H as (? & ? & ? & ? & _ & ->).
  split; cbn; apply sum_wrap.
Qed.


Lemma BuildGame_returns : forall tbls name url meta header rows rest,
  tbls = meta :: (header :: rows) :: rest ->
  exists g, BuildGame tbls name url = Ret g.
Proof.
  intros * ->. unfold BuildGame. cbn.
  destruct (ParseMetaData meta) as [[price odds] launchdate].
  eexists; reflexivity.
Qed.

(** ** The goroutine of a link *)

Lemma worker_unfold : forall w l,
  worker w l =
  match http_get w l with
  | GetError err => ([err], Exit 1)
  | ReadError err =>
      (["Error fetching game page: " ++ l ++ " " ++ err]%string,
       BuildGame [] (exctractGameName l) l)
  | Body data => ([], BuildGame (ExtractTables data) (exctractGameName l) l)
  end.
Proof.
  intros w l. unfold worker, ParseGame, GamePage.
  destruct (http_get w l) as [err|err|data]; cbn; try reflexivity.
Qed.

Lemma worker_URL : forall w l out g,
  worker w l = (out, Ret g) -> URL g = l.
Proof.
  intros w l out g H. rewrite worker_unfold in H.
  destruct (http_get w l); try discriminate;
    injection H as _ H; try discriminate; eapply BuildGame_URL; exact H.
Qed.

Lemma worker_fetched : forall w l out g,
  worker w l = (out, Ret g) -> fetch_fails (http_get w l) = false.
Proof.
  intros w l out g H. rewrite worker_unfold in H.
  destruct (http_get w l); try discriminate; reflexivity.
Qed.

Lemma worker_totals : forall w l out g,
  worker w l = (out, Ret g) -> totals_ok g.
Proof.
  intros w l out g H. rewrite worker_unfold in H.
  destruct (http_get w l); try discriminate;
    injection H as _ H; try discriminate; eapply BuildGame_totals; exact H.
Qed.

(** ** sort.Slice keeps the games *)

Lemma sift_perm : forall x rp, Permutation (x :: rp) (sift x rp).
Proof.
  intros x rp. induction rp as [|y rp IH]; cbn [sift]; [reflexivity|].
  destruct (less x y); [|reflexivity].
  rewrite perm_swap. apply perm_skip, IH.
Qed.

Lemma sort_fold_perm : forall l rp,
  Permutation (l ++ rp) (fold_left (fun rp x => sift x rp) l rp).
Proof.
  induction l as [|x l IH]; intros rp; cbn [fold_left app]; [reflexivity|].
  rewrite <- IH. rewrite <- sift_perm. apply Permutation_middle.
Qed.

Lemma sortSlice_perm : forall l, Permutation l (sortSlice l).
Proof.
  intros l. unfold sortSlice. rewrite <- Permutation_rev.
  rewrite <- sort_fold_perm, app_nil_r. reflexivity.
Qed.

(** ** The states of a run *)

Lemma start_Inv : forall w, Inv w (main_start w).
Proof.
  intros w. unfold main_start.
  destruct (GetLinks w) as [out o] eqn:E.
  destruct o as [ls| |]; constructor; cbn; intros; try discriminate;
    try reflexivity; try constructor; try lia.
  unfold discovered. rewrite E. reflexivity.
Qed.

Ltac still_no_report H :=
  try reflexivity;
  try (apply H; let E := fresh "E" in
       intros E; try discriminate E; rewrite E in *; discriminate).

Lemma step_Inv : forall w s s', Inv w s -> main_step w s s' -> Inv w s'.
Proof.
  intros w s s' I St.
  destruct I as [Isem Icap Isc Ilinks Ifin Igames Ipan Irep Inorep].
  destruct St as [s l todo Hc Hlt | s Hc | s before l after out g Ha Hr Hw
                 | s before l after out status Ha Hr Hw
                 | s before l after out msg Ha Hr Hw
                 | s l out msg Ha Hl Hw | s i Hc Hi Hlt | s Hc].
  - (* a goroutine is started *)
    rewrite Hc in *. cbn in *.
    specialize (Isem eq_refl). specialize (Ilinks eq_refl).
    constructor; cbn; intros; try discriminate; try assumption; try lia;
      still_no_report Inorep.
    rewrite Ilinks. do 2 apply Permutation_app_head.
    symmetry. apply Permutation_middle.
  - (* the range loop ends *)
    rewrite Hc in *. cbn in *.
    specialize (Isem eq_refl). specialize (Ilinks eq_refl).
    constructor; cbn; intros; try discriminate; try assumption; try lia;
      still_no_report Inorep.
  - (* a goroutine delivers its game *)
    specialize (Isem Ha). specialize (Ilinks Ha). specialize (Isc Ha).
    pose proof (worker_URL _ _ _ _ Hw) as Hu.
    rewrite Hr in *. rewrite length_app in *. cbn [List.length] in *.
    constructor; cbn; intros; try assumption; try lia.
    + rewrite length_app. lia.
    + rewrite length_app. lia.
    + rewrite Ilinks, map_app. cbn [map]. rewrite Hu.
      rewrite <- !app_assoc. apply Permutation_app_head. cbn [app].
      rewrite (Permutation_middle (panicked s)).
      apply Permutation_app_head.
      symmetry. apply Permutation_middle.
    + destruct (ctl s); discriminate.
    + apply Forall_app. split; [assumption|].
      constructor; [|constructor]. exists out. rewrite Hu. exact Hw.
    + destruct (ctl s); discriminate.
    + apply Inorep. assumption.
  - (* a goroutine exits the process *)
    constructor; cbn; intros; try discriminate; try assumption;
      still_no_report Inorep.
  - (* a goroutine panics: its deferred receive frees the slot *)
    specialize (Isem Ha). specialize (Ilinks Ha). specialize (Isc Ha).
    rewrite Hr in *. rewrite length_app in *. cbn [List.length] in *.
    constructor; cbn; intros; try assumption; try lia.
    + rewrite length_app. lia.
    + rewrite length_app. lia.
    + rewrite Ilinks. apply Permutation_app_head. cbn [app].
      rewrite <- !app_assoc. cbn [app].
      rewrite (Permutation_middle (panicked s)).
      apply Permutation_app_head.
      symmetry. apply Permutation_middle.
    + destruct (ctl s); discriminate.
    + constructor; [|assumption]. exists out, msg. exact Hw.
    + destruct (ctl s); discriminate.
    + apply Inorep. assumption.
  - (* the process dies of a panic *)
    constructor; cbn; intros; try discriminate; try assumption;
      still_no_report Inorep.
  - (* main puts one value back *)
    rewrite Hc in *. cbn in *.
    specialize (Isem eq_refl). specialize (Ilinks eq_refl).
    constructor; cbn; intros; try discriminate; try assumption; try lia;
      still_no_report Inorep.
  - (* sorting and writing *)
    rewrite Hc in *. cbn in *.
    specialize (Isem eq_refl). specialize (Ilinks eq_refl).
    specialize (Isc eq_refl).
    assert (Hrun : running s = []).
    { destruct (running s); [reflexivity|]. cbn in Isem. unfold semCap in *. lia. }
    unfold finish, WriteCSV.
    destruct (os_create w "mslotto_games.csv") as [err|];
      constructor; cbn; intros; try discriminate; try assumption;
      try congruence.
    + eapply Permutation_Forall; [apply sortSlice_perm | assumption].
    + split; [assumption|].
      rewrite Ilinks, Hrun, !app_nil_r.
      apply Permutation_app_tail, Permutation_map, sortSlice_perm.
    + eapply Permutation_Forall; [apply sortSlice_perm | assumption].
    + split; [reflexivity|]. exists (games s). reflexivity.
Qed.

Lemma reachable_Inv : forall w s, reachable w s -> Inv w s.
Proof.
  intros w s H. unfold reachable in H.
  remember (main_start w) as s0 eqn:E0.
  induction H as [s|s1 s2 s3 _ IH St]; [subst s; apply start_Inv|].
  eapply step_Inv; [exact (IH E0) | exact St].
Qed.

Lemma alive_can_step : forall w s,
  Inv w s -> alive (ctl s) = true -> exists s', main_step w s s'.
Proof.
  intros w s I Ha.
  assert (Hworker : running s <> [] -> exists s', main_step w s s').
  { intros Hne. destruct (running s) as [|l rest] eqn:Hr; [congruence|].
    destruct (worker w l) as [out [g|status|msg]] eqn:Hw; eexists.
    - eapply (step_worker_done w s [] l rest); eassumption.
    - eapply (step_worker_exits w s [] l rest); eassumption.
    - eapply (step_worker_panics w s [] l rest); eassumption. }
  pose proof (inv_sem w s I Ha) as Hsem.
  pose proof (inv_sem_cap w s I Ha) as Hcap.
  destruct (ctl s) as [[|l todo]|i| |o] eqn:Hc; try discriminate Ha.
  - eexists. apply step_range_done. exact Hc.
  - destruct (Nat.lt_ge_cases (sem s) semCap) as [Hlt|Hge].
    + eexists. eapply step_launch; eassumption.
    + apply Hworker. intros Hr. rewrite Hr in Hsem. cbn in Hsem.
      unfold semCap in *. lia.
  - cbn [drained_of] in Hsem.
    destruct (Nat.eq_dec i semCap) as [->|Hi].
    + eexists. apply step_finish. exact Hc.
    + destruct (Nat.lt_ge_cases (sem s) semCap) as [Hlt|Hge].
      * eexists. eapply step_drain; [exact Hc | lia | exact Hlt].
      * apply Hworker. intros Hr. rewrite Hr in Hsem. cbn in Hsem. lia.
Qed.




(** Once [main] has left the loop that takes every slot back, no
    goroutine is running and every link has its game or has panicked. *)
Lemma joined_links : forall w s,
  reachable w s ->
  ctl s = Draining semCap \/ ctl s = Finished ->
  running s = []
  /\ Permutation (discovered w) (map URL (games s) ++ panicked s).
Proof.
  intros w s Hr [Hd|Hf]; pose proof (reachable_Inv w s Hr) as I.
  - pose proof (inv_sem w s I) as Hs. pose proof (inv_sem_cap w s I) as Hc.
    pose proof (inv_links w s I) as Hl.
    rewrite Hd in *. cbn in *.
    specialize (Hs eq_refl). specialize (Hc eq_refl). specialize (Hl eq_refl).
    assert (Hrun : running s = []).
    { destruct (running s); [reflexivity|]. cbn in Hs. unfold semCap in *. lia. }
    rewrite Hrun, !app_nil_r in Hl. split; [exact Hrun | exact Hl].
  - apply (inv_finished w s I Hf).
Qed.

Lemma nth_error_split_at : forall (A : Type) (l : list A) i x,
  nth_error l i = Some x -> l = firstn i l ++ x :: skipn (S i) l.
Proof.
  intros A l. induction l as [|y l IH]; intros i x H.
  - destruct i; discriminate H.
  - destruct i as [|i].
    + cbn in H. injection H as ->. reflexivity.
    + cbn in H. cbn [firstn skipn app]. f_equal. apply IH, H.
Qed.

(** A step of a schedule is a step of [main]. *)
Lemma act_step : forall w a s s',
  act w a s = Some s' -> main_step w s s'.
Proof.
  intros w a s s' H. destruct a as [| |i|i| |]; cbn [act] in H.
  - destruct (ctl s) as [[|l todo]| | |] eqn:Hc; try discriminate H.
    destruct (Nat.ltb_spec (sem s) semCap) as [Hlt|_]; [|discriminate H].
    injection H as <-. eapply step_launch; eassumption.
  - destruct (ctl s) as [[|l todo]| | |] eqn:Hc; try discriminate H.
    injection H as <-. apply step_range_done, Hc.
  - destruct (alive (ctl s)) eqn:Ha; [|discriminate H].
    destruct (nth_error (running s) i) as [l|] eqn:Hn; [|discriminate H].
    pose proof (nth_error_split_at _ _ _ _ Hn) as Hr.
    destruct (worker w l) as [out [g|status|msg]] eqn:Hw;
      cbv zeta in H; injection H as <-.
    + eapply step_worker_done; eassumption.
    + eapply step_worker_exits; eassumption.
    + eapply step_worker_panics; eassumption.
  - destruct (alive (ctl s)) eqn:Ha; [|discriminate H].
    destruct (nth_error (panicked s) i) as [l|] eqn:Hn; [|discriminate H].
    destruct (worker w l) as [out [g|status|msg]] eqn:Hw;
      try discriminate H.
    injection H as <-.
    eapply step_crash; [exact Ha | eapply nth_error_In, Hn | exact Hw].
  - destruct (ctl s) as [|i| |] eqn:Hc; try discriminate H.
    destruct (Nat.ltb_spec i semCap) as [Hi|_]; [|discriminate H].
    destruct (Nat.ltb_spec (sem s) semCap) as [Hlt|_]; [|discriminate H].
    injection H as <-. eapply step_drain; eassumption.
  - destruct (ctl s) as [|i| |] eqn:Hc; try discriminate H.
    destruct (Nat.eqb_spec i semCap) as [->|_]; [|discriminate H].
    injection H as <-. apply step_finish, Hc.
Qed.

Lemma follow_steps : forall w acts s, main_steps w s (follow w acts s).
Proof.
  intros w acts. induction acts as [|a acts IH]; intros s; [apply steps_refl|].
  cbn [follow]. destruct (act w a s) as [s'|] eqn:E; [|apply steps_refl].
  clear - IH E. specialize (IH s'). apply act_step in E.
  induction IH as [s'|s1 s2 s3 _ IH' H23].
  - eapply steps_step; [apply steps_refl | exact E].
  - eapply steps_step; [apply IH', E | exact H23].
Qed.

Lemma after_reachable : forall w acts, reachable w (after w acts).
Proof. intros w acts. apply follow_steps. Qed.

End BuildTheorems.

(** ** A run that finishes *)

Section SequentialRun.

Context {P : Platform}.

Lemma drain_steps : forall w s0 gs out n i,
  (i + n = semCap)%nat ->
  main_steps w s0 {| ctl := Draining i; sem := i; running := []; panicked := [];
                games := gs; output := out; report := None |} ->
  main_steps w s0 {| ctl := Draining semCap; sem := semCap; running := [];
                panicked := []; games := gs; output := out; report := None |}.
Proof.
  intros w s0 gs out n. induction n as [|n IH]; intros i Hi H.
  - replace i with semCap in H by lia. exact H.
  - apply (IH (S i)); [lia|].
    eapply steps_step; [exact H|].
    match goal with
    | |- main_step _ ?s _ => apply (step_drain w s i); cbn; [reflexivity|lia|lia]
    end.
Qed.

Lemma sequential_steps : forall w s0 todo gs out,
  main_steps w s0 {| ctl := Launching todo; sem := 0; running := [];
                panicked := []; games := gs; output := out; report := None |} ->
  main_steps w s0 (sequential w todo gs out).
Proof.
  intros w s0 todo. induction todo as [|l rest IH]; intros gs out H;
    cbn [sequential].
  - eapply steps_step; [|apply step_finish; reflexivity].
    apply (drain_steps w s0 gs out semCap 0); [reflexivity|].
    eapply steps_step; [exact H|].
    match goal with
    | |- main_step _ ?s _ => apply (step_range_done w s); reflexivity
    end.
  - assert (Hl : main_steps w s0 {| ctl := Launching rest; sem := 1;
                               running := [l]; panicked := []; games := gs;
                               output := out; report := None |}).
    { eapply steps_step; [exact H|].
      match goal with
      | |- main_step _ ?s _ =>
          apply (step_launch w s l rest); cbn; [reflexivity|unfold semCap; lia]
      end. }
    destruct (worker w l) as [o r] eqn:Ew. destruct r as [g| |].
    + apply IH. eapply steps_step; [exact Hl|].
      match goal with
      | |- main_step _ ?s _ =>
          apply (step_worker_done w s [] l [] o g); [reflexivity..|exact Ew]
      end.
    + eapply steps_step; [exact Hl|].
      match goal with
      | |- main_step _ ?s _ =>
          apply (step_worker_exits w s [] l [] o status);
          [reflexivity|reflexivity|exact Ew]
      end.
    + eapply steps_step.
      * eapply steps_step; [exact Hl|].
        match goal with
        | |- main_step _ ?s _ =>
            apply (step_worker_panics w s [] l [] o msg);
            [reflexivity|reflexivity|exact Ew]
        end.
      * match goal with
        | |- main_step _ ?s _ =>
            apply (step_crash w s l o msg);
            [reflexivity|left; reflexivity|exact Ew]
        end.
Qed.

(** The sequential schedule is a run of [main]. *)
Lemma sequential_reachable : forall w, reachable w (sequential_main w).
Proof.
  intros w. unfold reachable, sequential_main.
  destruct (GetLinks w) as [out o] eqn:E.
  destruct o as [ls| |]; try apply steps_refl.
  apply sequential_steps. unfold main_start. rewrite E. apply steps_refl.
Qed.

End SequentialRun.

(** ** Claims about the run *)

Section RunTheorems.

Context {P : Platform}.

Lemma finished_link_fate : forall w s l,
  reachable w s -> ctl s = Finished -> In l (discovered w) ->
  (exists out g, In g (games s) /\ worker w l = (out, Ret g))
  \/ (In l (panicked s) /\ exists out msg, worker w l = (out, Panic msg)).
Proof.
  intros w s l Hr Hf Hl.
  pose proof (reachable_Inv w s Hr) as I.
  destruct (inv_finished w s I Hf) as [_ Hp].
  apply (Permutation_in _ Hp) in Hl.
  apply in_app_or in Hl as [Hl|Hl].
  - left. apply in_map_iff in Hl as (g & Hu & Hg).
    pose proof (inv_games w s I) as Hall.
    rewrite Forall_forall in Hall. destruct (Hall g Hg) as [out Hw].
    exists out, g. split; [exact Hg|]. rewrite <- Hu. exact Hw.
  - right. split; [exact Hl|].
    pose proof (inv_panicked w s I) as Hall.
    rewrite Forall_forall in Hall. exact (Hall l Hl).
Qed.

Lemma no_game_without_fetch : forall w s l,
  reachable w s -> fetch_fails (http_get w l) = true ->
  forall g, In g (games s) -> URL g <> l.
Proof.
  intros w s l Hr Hfail g Hg Hu.
  pose proof (inv_games w s (reachable_Inv w s Hr)) as Hall.
  rewrite Forall_forall in Hall. destruct (Hall g Hg) as [out Hw].
  rewrite Hu in Hw. apply worker_fetched in Hw.
  rewrite Hw in Hfail. discriminate Hfail.
Qed.

(** C9.  A Game built by [BuildGame] has [TotalOriginalPrizes] equal to
    the sum of [OriginalCount] over its tiers and [TotalRemainingPrizes]
    equal to the sum of [RemainingCount] over them, the sums being those
    of type [int] (exact whenever they fit in 64 bits); and nothing
    afterwards changes this: it holds of every game of the shared
    collection in every state of the run, the sorted collection that is
    written included. *)
Theorem totals_equal_tier_sums :
  (forall tbls name url g,
     BuildGame tbls name url = Ret g ->
     totals_ok g
     /\ (GoInt.in_range (Zsum (map OriginalCount (PrizeTiers g))) ->
         TotalOriginalPrizes g = Zsum (map OriginalCount (PrizeTiers g)))
     /\ (GoInt.in_range (Zsum (map RemainingCount (PrizeTiers g))) ->
         TotalRemainingPrizes g = Zsum (map RemainingCount (PrizeTiers g))))
  /\ (forall w s, reachable w s -> Forall totals_ok (games s)).
Proof.
  split.
  - intros tbls name url g H.
    pose proof (BuildGame_totals _ _ _ _ H) as [Ho Hr].
    split; [split; assumption|]. split; intros Hin.
    + rewrite Ho. apply wrap_small, Hin.
    + rewrite Hr. apply wrap_small, Hin.
  - intros w s Hr.
    pose proof (inv_games w s (reachable_Inv w s Hr)) as Hall.
    eapply Forall_impl; [|exact Hall].
    intros g [out Hw]. eapply worker_totals. exact Hw.
Qed.


(** C10.  The limiter holds 75 slots; in every state of a run at most 75
    goroutines are running; the report exists only once [main] has
    finished; and when [main] leaves the loop that takes every slot back,
    as when it has finished, no goroutine is running: the goroutine of
    each of the N discovered links has come to its end, having delivered
    its game or panicked. *)
Theorem at_most_75_workers_and_all_joined :
  semCap = 75%nat
  /\ forall w s,
       reachable w s ->
       (List.length (running s) <= semCap)%nat
       /\ (report s <> None -> ctl s = Finished)
       /\ (ctl s = Draining semCap \/ ctl s = Finished ->
           running s = []
           /\ Permutation (discovered w) (map URL (games s) ++ panicked s)
           /\ (List.length (games s) + List.length (panicked s))%nat
              = List.length (discovered w)).
Proof.
  split; [reflexivity|].
  intros w s Hr. pose proof (reachable_Inv w s Hr) as I.
  split; [exact (inv_cap w s I)|]. split.
  - intros Hrep. destruct (ctl s) eqn:Ec; try reflexivity;
      exfalso; apply Hrep; apply (inv_no_report w s I); rewrite Ec; discriminate.
  - assert (Hcount : Permutation (discovered w)
                                 (map URL (games s) ++ panicked s) ->
              (List.length (games s) + List.length (panicked s))%nat
              = List.length (discovered w)).
    { intros Hp. apply Permutation_length in Hp.
      rewrite length_app, length_map in Hp. symmetry. exact Hp. }
    intros [Hd|Hf].
    + pose proof (inv_sem w s I) as Hs. pose proof (inv_sem_cap w s I) as Hc.
      pose proof (inv_links w s I) as Hl.
      rewrite Hd in *. cbn in *.
      specialize (Hs eq_refl). specialize (Hc eq_refl). specialize (Hl eq_refl).
      assert (Hrun : running s = []).
      { destruct (running s); [reflexivity|]. cbn in Hs. unfold semCap in *. lia. }
      rewrite Hrun, !app_nil_r in Hl.
      split; [exact Hrun|]. split; [exact Hl|]. apply Hcount, Hl.
    + destruct (inv_finished w s I Hf) as [Hrun Hp].
      split; [exact Hrun|]. split; [exact Hp|]. apply Hcount, Hp.
Qed.

(** C1, as the program has it.  A game link whose [http.Get] fails is
    logged and is fatal: its goroutine exits the process with status 1,
    the link contributes no Game, and no run that discovered it finishes.
    A failure while reading the body of a game page is logged by
    [ParseGame], which then returns no tables.  A failure of either kind
    on the landing page is fatal before any link is started. *)
Theorem failed_get_is_logged_and_fatal :
  (forall w l err,
     http_get w l = GetError err -> worker w l = ([err], Exit 1))
  /\ (forall w l err,
        http_get w l = ReadError err ->
        ParseGame w l
        = (["Error fetching game page: " ++ l ++ " " ++ err]%string, Ret []))
  /\ (forall w s l err,
        reachable w s ->
        http_get w l = GetError err ->
        (forall g, In g (games s) -> URL g <> l)
        /\ (In l (discovered w) -> ctl s <> Finished))
  /\ (forall w,
        fetch_fails (http_get w startUrl) = true ->
        ctl (main_start w) = Dead (Exit 1)).
Proof.
  split; [|split; [|split]].
  - intros w l err H. rewrite worker_unfold, H. reflexivity.
  - intros w l err H. unfold ParseGame, GamePage. rewrite H. reflexivity.
  - intros w s l err Hr H. split.
    + apply (no_game_without_fetch w s l Hr). rewrite H. reflexivity.
    + intros Hl Hf.
      assert (Hw : worker w l = ([err], Exit 1)).
      { rewrite worker_unfold, H. reflexivity. }
      destruct (finished_link_fate w s l Hr Hf Hl)
        as [(out & g & _ & Hw')|[_ (out & msg & Hw')]];
        rewrite Hw in Hw'; discriminate Hw'.
  - intros w H. unfold main_start, GetLinks, GetHTML.
    destruct (http_get w startUrl); [reflexivity | reflexivity | discriminate H].
Qed.

End RunTheorems.

(** The game of the fixture tables, and the games of a run that
    finishes. *)
Lemma totals_equal_tier_sums_witness :
  totals_ok Fixture.lucky_game
  /\ Forall totals_ok
       (games (sequential_main (P := Reference.platform) Fixture.net_ok)).
Proof.
  pose proof (@totals_equal_tier_sums Reference.platform) as [H1 H2].
  split.
  - apply (H1 [Fixture.meta;
               ["Prize"; "Original"; "Remaining"] :: Fixture.prize_rows]
              "lucky 7" "/games/lucky-7").
    vm_compute. reflexivity.
  - apply (H2 Fixture.net_ok). apply sequential_reachable.
Defined.


(** A run of two games that finishes. *)
Lemma at_most_75_workers_and_all_joined_witness :
  let s := sequential_main (P := Reference.platform) Fixture.net_ok in
  ctl s = Finished
  /\ (List.length (running s) <= semCap)%nat
  /\ running s = []
  /\ (List.length (games s) + List.length (panicked s))%nat
     = List.length (discovered Fixture.net_ok).
Proof.
  cbv zeta.
  assert (Hf : ctl (sequential_main (P := Reference.platform) Fixture.net_ok)
               = Finished) by (vm_compute; reflexivity).
  pose proof (proj2 (@at_most_75_workers_and_all_joined Reference.platform)
                Fixture.net_ok _ (sequential_reachable Fixture.net_ok))
    as [H1 [_ H3]].
  split; [exact Hf|]. split; [exact H1|].
  destruct (H3 (or_intror Hf)) as [Hrun [_ Hlen]].
  split; [exact Hrun | exact Hlen].
Defined.

(** A game page whose request is refused. *)
Lemma failed_get_is_logged_and_fatal_witness :
  worker (P := Reference.platform) Fixture.net_get_fails "/games/lucky-7"
  = (["dial tcp: connection refused"], Exit 1).
Proof.
  apply (proj1 (@failed_get_is_logged_and_fatal Reference.platform)).
  vm_compute. reflexivity.
Defined.

(** C1 as it is worded fails: on a network where the page of the one
    discovered game cannot be fetched, the goroutine of that link ends the
    process instead of skipping the link. *)
Lemma failed_link_aborts_the_run :
  ~ failed_links_are_skipped (P := Reference.platform) Fixture.net_get_fails.
Proof.
  intros H. specialize (H "/games/lucky-7").
  assert (Hin : In "/games/lucky-7" (discovered Fixture.net_get_fails)).
  { vm_compute. left. reflexivity. }
  assert (Hfail : fetch_fails (http_get Fixture.net_get_fails "/games/lucky-7")
                  = true) by (vm_compute; reflexivity).
  specialize (H Hin Hfail). vm_compute in H. discriminate H.
Qed.

(** ** The fixtures of the specification *)

(** C4.  On the metadata fixture and the prize fixture, under any header
    row, [BuildGame] yields Price 5, Odds 3.5, LaunchDate "2023-01-01", the
    single tier {100, 50, 10} and the totals 50 and 10: the row whose first
    cell is "2nd Chance" is left out, in whatever letter case it is
    written.  The only assumption is that [strconv.ParseFloat] reads
    "3.50" as 3.5. *)
Theorem BuildGame_on_fixture :
  forall (P : Platform) header name url,
    float_literal "3.50" = Some (Fixture.three_and_a_half, false) ->
    let expected :=
      Ret {| Name := name;
             Price := 5;
             Odds := Fixture.three_and_a_half;
             LaunchDate := "2023-01-01";
             GameNumber := 0;
             PrizeTiers :=
               [ {| Value := 100; OriginalCount := 50; RemainingCount := 10 |} ];
             TotalOriginalPrizes := 50;
             TotalRemainingPrizes := 10;
             URL := url |} in
    BuildGame [Fixture.meta; header :: Fixture.prize_rows] name url = expected
    /\ BuildGame [Fixture.meta;
                  [header; ["$100"; "50"; "10"]; ["2ND CHANCE"; "5"; "5"]]]
                 name url = expected
    /\ BuildGame [Fixture.meta;
                  [header; ["$100"; "50"; "10"]; ["2nd chance"; "5"; "5"]]]
                 name url = expected.
Proof.
  intros [fl iu] header name url H. cbn [float_literal] in H.
  cbv in H. cbv zeta. repeat split.
  all: cbv; rewrite H; reflexivity.
Qed.

(** The reference parser reads "3.50" as 3.5. *)
Lemma BuildGame_on_fixture_witness :
  BuildGame (P := Reference.platform)
    [Fixture.meta; ["Prize"; "Original"; "Remaining"] :: Fixture.prize_rows]
    "lucky 7" "/games/lucky-7"
  = Ret {| Name := "lucky 7";
           Price := 5;
           Odds := Fixture.three_and_a_half;
           LaunchDate := "2023-01-01";
           GameNumber := 0;
           PrizeTiers :=
             [ {| Value := 100; OriginalCount := 50; RemainingCount := 10 |} ];
           TotalOriginalPrizes := 50;
           TotalRemainingPrizes := 10;
           URL := "/games/lucky-7" |}.
Proof.
  apply (BuildGame_on_fixture Reference.platform
           ["Prize"; "Original"; "Remaining"] "lucky 7" "/games/lucky-7").
  vm_compute. reflexivity.
Defined.

(** 3.5 is the quotient of 7 by 2. *)
Lemma three_and_a_half_value :
  Fixture.three_and_a_half = F64.div (F64.of_int 7) (F64.of_int 2).
Proof. vm_compute. reflexivity. Qed.

(** ** Link discovery *)

Lemma scan_token_depth : forall st token,
  depth_ok st -> depth_ok (scan_token st token).
Proof.
  intros [ls a d] token [[Ha Hd]|[Ha Hd]]; cbn in Ha, Hd; subst a d;
    unfold scan_token, depth_ok; cbn -[String.eqb];
    destruct (Kind token); cbn -[String.eqb];
    destruct (String.eqb (Data token) "div");
    destruct (String.eqb (Data token) "a");
    destruct (existsb is_marker (Attr token));
    cbn; auto.
Qed.

(** The depth counter of [GetLinks] never leaves {0, 1}: a [div] opened
    inside a session is not counted. *)
Lemma divDepth_never_exceeds_one : forall page st,
  depth_ok st -> depth_ok (scan_tokens page st).
Proof.
  induction page as [|token rest IH]; intros st H; [exact H|].
  cbn [scan_tokens]. destruct (TokenType_eqb (Kind token) ErrorToken);
    [exact H|]. apply IH, scan_token_depth, H.
Qed.

Lemma eqb_div_a : forall s,
  String.eqb s "div" = true -> String.eqb s "a" = false.
Proof.
  intros s H. apply String.eqb_eq in H. subst s. reflexivity.
Qed.

Lemma scan_token_same : forall st ref token,
  same_scan st ref ->
  (snd (Spec.link_token ref token) <= 1)%nat ->
  same_scan (scan_token st token) (Spec.link_token ref token).
Proof.
  intros [ls a d] [found depth] token [Hl Hs] Hflat.
  cbn in Hl. subst found.
  unfold scan_token, Spec.link_token, same_scan in *.
  destruct Hs as [(Ha & Hd & Hr)|(Ha & Hd & Hr)];
    cbn in Ha, Hd, Hr; subst a d depth; cbn -[String.eqb] in *;
    destruct (Kind token); cbn -[String.eqb] in *;
    try (destruct (String.eqb (Data token) "div") eqn:Ediv;
         [rewrite (eqb_div_a _ Ediv)|];
         cbn -[String.eqb] in *;
         try destruct (String.eqb (Data token) "a");
         try destruct (existsb is_marker (Attr token));
         cbn in *; auto 6; lia);
    auto 6.
Qed.

(** On a page whose marked containers hold no nested [div], the program
    finds the links of the reference definition. *)
Lemma page_links_flat : forall page st ref,
  same_scan st ref ->
  (Spec.max_depth page ref <= 1)%nat ->
  links (scan_tokens page st) = fst (Spec.link_tokens page ref).
Proof.
  induction page as [|token rest IH]; intros st ref Hs Hflat.
  - exact (proj1 Hs).
  - cbn [scan_tokens Spec.link_tokens Spec.max_depth] in *.
    destruct (TokenType_eqb (Kind token) ErrorToken); [exact (proj1 Hs)|].
    apply IH.
    + apply scan_token_same; [exact Hs|].
      assert (Hm : (snd (Spec.link_token ref token)
                    <= Spec.max_depth rest (Spec.link_token ref token))%nat).
      { clear. generalize (Spec.link_token ref token) as r.
        destruct rest as [|t rest]; intros r; cbn [Spec.max_depth]; [lia|].
        destruct (TokenType_eqb (Kind t) ErrorToken); lia. }
      lia.
    + lia.
Qed.

Lemma GetLinks_without_nesting : forall page,
  (Spec.max_depth page ([], O) <= 1)%nat ->
  page_links page = Spec.links_in_marked_containers page.
Proof.
  intros page H. apply page_links_flat; [|exact H].
  split; [reflexivity|]. left. repeat split.
Qed.

(** The fixture of the specification: two anchors in the marked container,
    others outside. *)
Lemma GetLinks_on_landing_fixture :
  page_links Fixture.landing = ["/games/lucky-7"; "/games/gold-rush"]
  /\ Spec.links_in_marked_containers Fixture.landing
     = ["/games/lucky-7"; "/games/gold-rush"].
Proof. split; vm_compute; reflexivity. Qed.

(** C2, where the program departs from it.  In a marked container whose
    first anchor sits in a nested [div], the end tag of that nested [div]
    already ends the capture: the anchor that follows, still inside the
    marked container, is not returned, while the reference definition
    returns both.  The cause is general: on no page does the depth counter
    of [GetLinks] go beyond 1. *)
Theorem GetLinks_stops_at_first_closing_div :
  page_links Fixture.nested = ["/games/lucky-7"]
  /\ Spec.links_in_marked_containers Fixture.nested
     = ["/games/lucky-7"; "/games/gold-rush"]
  /\ forall page, 0 <= divDepth (scan_tokens page scan_start) <= 1.
Proof.
  split; [vm_compute; reflexivity|]. split; [vm_compute; reflexivity|].
  intros page.
  assert (H : depth_ok (scan_tokens page scan_start)).
  { apply divDepth_never_exceeds_one. left. split; reflexivity. }
  destruct H as [[_ H]|[_ H]]; rewrite H; lia.
Qed.

(** ** Rounding to [float64] *)

Lemma digits2_size : forall p, digits2_pos p = Pos.size p.
Proof. induction p; cbn; congruence. Qed.

Lemma Zdigits2_bounds : forall p,
  2 ^ (Zdigits2 (Zpos p) - 1) <= Zpos p < 2 ^ Zdigits2 (Zpos p).
Proof.
  intros p. cbn [Zdigits2]. rewrite digits2_size.
  pose proof (Pos.size_gt p) as Hgt. pose proof (Pos.size_le p) as Hle.
  assert (H1 : Zpos p < 2 ^ Zpos (Pos.size p)).
  { change 2 with (Zpos 2). rewrite <- Pos2Z.inj_pow. lia. }
  assert (H2 : 2 ^ Zpos (Pos.size p) <= 2 * Zpos p).
  { change 2 with (Zpos 2) at 1. rewrite <- Pos2Z.inj_pow. lia. }
  split; [|exact H1].
  replace (Zpos (Pos.size p)) with (Zpos (Pos.size p) - 1 + 1) in H2 by lia.
  rewrite Z.pow_add_r in H2 by lia. lia.
Qed.

Lemma Zdigits2_unique : forall m n,
  2 ^ (n - 1) <= m < 2 ^ n -> 0 < m -> Zdigits2 m = n.
Proof.
  intros m n [Hlo Hhi] Hm. destruct m as [|p|p]; try lia.
  pose proof (Zdigits2_bounds p) as [Blo Bhi].
  assert (Hd : 0 < Zdigits2 (Zpos p)) by (cbn; lia).
  set (d := Zdigits2 (Zpos p)) in *.
  destruct (Z.lt_trichotomy d n) as [Hlt|[Heq|Hgt]]; [|exact Heq|].
  - assert (2 ^ d <= 2 ^ (n - 1)) by (apply Z.pow_le_mono_r; lia). lia.
  - assert (0 <= n).
    { destruct (Z.le_gt_cases 0 n); [assumption|].
      rewrite (Z.pow_neg_r 2 n) in Hhi by lia. lia. }
    assert (2 ^ n <= 2 ^ (d - 1)) by (apply Z.pow_le_mono_r; lia). lia.
Qed.

Lemma shr_1_m : forall r, 0 <= shr_m r -> shr_m (shr_1 r) = shr_m r / 2.
Proof.
  intros [m r s] H. cbn in H. unfold shr_1.
  destruct m as [|[p|p|]|p]; cbn [shr_m]; try lia.
  - reflexivity.
  - apply Z.div_unique with 1; lia.
  - apply Z.div_unique with 0; lia.
  - reflexivity.
Qed.

Lemma iter_shr_m : forall n r,
  0 <= shr_m r -> shr_m (iter_pos shr_1 n r) = shr_m r / 2 ^ Zpos n.
Proof.
  assert (Hpow : forall k, 0 < 2 ^ Zpos k) by (intros; apply Z.pow_pos_nonneg; lia).
  assert (Hnn : forall r k, 0 <= shr_m r -> 0 <= shr_m r / 2 ^ Zpos k).
  { intros r k H. apply Z.div_pos; [exact H | apply Hpow]. }
  assert (Hdbl : forall k, 2 ^ Zpos k~0 = 2 ^ Zpos k * 2 ^ Zpos k).
  { intros k. rewrite <- Z.pow_add_r by lia. f_equal; lia. }
  induction n as [n IH|n IH|]; intros r H; cbn [iter_pos].
  - assert (H1 : 0 <= shr_m (shr_1 r)).
    { rewrite shr_1_m by exact H. apply Z.div_pos; lia. }
    assert (H2 : 0 <= shr_m (iter_pos shr_1 n (shr_1 r))).
    { rewrite IH by exact H1. apply Hnn, H1. }
    rewrite IH by exact H2. rewrite IH by exact H1. rewrite shr_1_m by exact H.
    assert (E : 2 ^ Zpos n~1 = 2 * (2 ^ Zpos n * 2 ^ Zpos n)).
    { rewrite <- Hdbl. rewrite <- (Z.pow_succ_r 2 (Zpos n~0)) by lia.
      f_equal; lia. }
    rewrite E. specialize (Hpow n).
    rewrite <- !Z.div_div by lia. reflexivity.
  - assert (H2 : 0 <= shr_m (iter_pos shr_1 n r)).
    { rewrite IH by exact H. apply Hnn, H. }
    rewrite IH by exact H2. rewrite IH by exact H.
    rewrite Hdbl. specialize (Hpow n).
    rewrite <- Z.div_div by lia. reflexivity.
  - rewrite shr_1_m by exact H. reflexivity.
Qed.

(** A right shift by [fexp]: the mantissa is divided by a power of two
    and the exponent grows by as much. *)
Lemma shr_fexp_m : forall m e l,
  0 <= m ->
  let k := Z.max 0 (fexp F64.prec F64.emax (Zdigits2 m + e) - e) in
  shr_m (fst (shr_fexp F64.prec F64.emax m e l)) = m / 2 ^ k
  /\ snd (shr_fexp F64.prec F64.emax m e l) = e + k.
Proof.
  intros m e l Hm k. unfold shr_fexp, shr.
  assert (Hrec : shr_m (shr_record_of_loc m l) = m).
  { destruct l as [|[]]; reflexivity. }
  subst k.
  destruct (fexp F64.prec F64.emax (Zdigits2 m + e) - e) as [|p|p] eqn:E;
    cbn [fst snd].
  - rewrite Hrec. cbn. rewrite Z.div_1_r. split; lia.
  - rewrite iter_shr_m by (rewrite Hrec; exact Hm). rewrite Hrec.
    rewrite Z.max_r by lia. split; reflexivity.
  - rewrite Hrec. rewrite Z.max_l by lia. cbn. rewrite Z.div_1_r. split; lia.
Qed.

Lemma round_nearest_even_bounds : forall m l,
  m <= round_nearest_even m l <= m + 1.
Proof.
  intros m [|[]]; cbn; try lia. destruct (Z.even m); lia.
Qed.

(** Rounding a non-negative mantissa never gives NaN, and gives the sign
    that was asked for. *)
Lemma round_aux_signed : forall s m e l,
  0 <= m -> signed s (binary_round_aux F64.prec F64.emax s m e l).
Proof.
  intros s m e l Hm. unfold binary_round_aux.
  destruct (shr_fexp F64.prec F64.emax m e l) as [mrs' e'] eqn:E1.
  pose proof (shr_fexp_m m e l Hm) as [H1 _]. rewrite E1 in H1. cbn [fst] in H1.
  assert (Hm' : 0 <= shr_m mrs').
  { rewrite H1. apply Z.div_pos; [exact Hm|]. apply Z.pow_pos_nonneg; lia. }
  pose proof (round_nearest_even_bounds (shr_m mrs') (loc_of_shr_record mrs'))
    as [Hr _].
  set (m2 := round_nearest_even (shr_m mrs') (loc_of_shr_record mrs')) in *.
  assert (Hm2 : 0 <= m2) by lia.
  destruct (shr_fexp F64.prec F64.emax m2 e' loc_Exact) as [mrs'' e''] eqn:E2.
  pose proof (shr_fexp_m m2 e' loc_Exact Hm2) as [H2 _].
  rewrite E2 in H2. cbn [fst] in H2.
  assert (Hm'' : 0 <= shr_m mrs'').
  { rewrite H2. apply Z.div_pos; [exact Hm2|]. apply Z.pow_pos_nonneg; lia. }
  destruct (shr_m mrs'') as [|p|p]; [exact I| |lia].
  destruct (e'' <=? F64.emax - F64.prec); reflexivity.
Qed.

Lemma round_signed : forall s m e,
  signed s (binary_round F64.prec F64.emax s m e).
Proof.
  intros s m e. unfold binary_round.
  destruct (shl_align m e _) as [mz ez]. apply round_aux_signed. lia.
Qed.

Lemma normalize_not_nan : forall m e sz,
  binary_normalize F64.prec F64.emax m e sz <> S754_nan.
Proof.
  intros m e sz. unfold binary_normalize.
  destruct m as [|p|p]; [discriminate| |].
  - pose proof (round_signed false p e) as H. intros E. rewrite E in H. exact H.
  - pose proof (round_signed true p e) as H. intros E. rewrite E in H. exact H.
Qed.

(** An aligned mantissa of at least 53 digits, of a magnitude in the
    normal range, rounds to a finite non-zero float. *)
Lemma round_aux_proper : forall s m e l,
  0 < m ->
  53 <= Zdigits2 m ->
  -1021 <= Zdigits2 m + e <= 1023 ->
  proper s (binary_round_aux F64.prec F64.emax s m e l).
Proof.
  intros s m e l Hm Hd Hc. unfold binary_round_aux.
  destruct m as [|p|p]; try lia.
  pose proof (Zdigits2_bounds p) as [Blo Bhi].
  set (d := Zdigits2 (Zpos p)) in *.
  destruct (shr_fexp F64.prec F64.emax (Zpos p) e l) as [mrs' e'] eqn:E1.
  pose proof (shr_fexp_m (Zpos p) e l ltac:(lia)) as [H1 H1e].
  rewrite E1 in H1, H1e. cbn [fst snd] in H1, H1e. fold d in H1, H1e.
  assert (Hk : Z.max 0 (fexp F64.prec F64.emax (d + e) - e) = d - 53).
  { unfold fexp, emin, F64.prec, F64.emax. lia. }
  rewrite Hk in H1, H1e.
  assert (Hp : 0 < 2 ^ (d - 53)) by (apply Z.pow_pos_nonneg; lia).
  assert (Hsplit1 : 2 ^ (d - 1) = 4503599627370496 * 2 ^ (d - 53)).
  { replace (d - 1) with (52 + (d - 53)) by lia.
    rewrite Z.pow_add_r by lia. reflexivity. }
  assert (Hsplit2 : 2 ^ d = 9007199254740992 * 2 ^ (d - 53)).
  { replace d with (53 + (d - 53)) at 1 by lia.
    rewrite Z.pow_add_r by lia. reflexivity. }
  assert (Hlo' : 4503599627370496 <= shr_m mrs').
  { rewrite H1. apply Z.div_le_lower_bound; lia. }
  assert (Hhi' : shr_m mrs' < 9007199254740992).
  { rewrite H1. apply Z.div_lt_upper_bound; lia. }
  pose proof (round_nearest_even_bounds (shr_m mrs') (loc_of_shr_record mrs'))
    as [Hr1 Hr2].
  set (m2 := round_nearest_even (shr_m mrs') (loc_of_shr_record mrs')) in *.
  destruct (shr_fexp F64.prec F64.emax m2 e' loc_Exact) as [mrs'' e''] eqn:E2.
  pose proof (shr_fexp_m m2 e' loc_Exact ltac:(lia)) as [H2 H2e].
  rewrite E2 in H2, H2e. cbn [fst snd] in H2, H2e.
  destruct (Z.eq_dec m2 9007199254740992) as [Etop|Ntop].
  - (* the mantissa was rounded up to 2^53 *)
    assert (Hd2 : Zdigits2 m2 = 54).
    { apply Zdigits2_unique; rewrite Etop; [|lia].
      change (2 ^ (54 - 1)) with 9007199254740992.
      change (2 ^ 54) with 18014398509481984. lia. }
    rewrite Hd2 in H2, H2e.
    assert (Hk2 : Z.max 0 (fexp F64.prec F64.emax (54 + e') - e') = 1).
    { unfold fexp, emin, F64.prec, F64.emax. lia. }
    rewrite Hk2 in H2, H2e. rewrite Etop in H2.
    change (9007199254740992 / 2 ^ 1) with 4503599627370496 in H2.
    rewrite H2.
    destruct (Z.leb_spec e'' (F64.emax - F64.prec)) as [_|Hov];
      [reflexivity|].
    unfold F64.emax, F64.prec in Hov. lia.
  - assert (Hd2 : Zdigits2 m2 = 53).
    { apply Zdigits2_unique; [|lia].
      change (2 ^ (53 - 1)) with 4503599627370496.
      change (2 ^ 53) with 9007199254740992. lia. }
    rewrite Hd2 in H2, H2e.
    assert (Hk2 : Z.max 0 (fexp F64.prec F64.emax (53 + e') - e') = 0).
    { unfold fexp, emin, F64.prec, F64.emax. lia. }
    rewrite Hk2 in H2, H2e. cbn in H2. rewrite Z.div_1_r in H2.
    rewrite H2. destruct m2 as [|q|q]; try lia.
    destruct (Z.leb_spec e'' (F64.emax - F64.prec)) as [_|Hov];
      [reflexivity|].
    unfold F64.emax, F64.prec in Hov. lia.
Qed.

Lemma iter_xO_value : forall d m,
  Zpos (Pos.iter xO m d) = Zpos m * 2 ^ Zpos d.
Proof.
  intros d m. induction d as [|d IH] using Pos.peano_ind.
  - cbn. lia.
  - rewrite Pos.iter_succ, Pos2Z.inj_xO, IH, Pos2Z.inj_succ.
    rewrite Z.pow_succ_r by lia. lia.
Qed.

(** The conversion of a non-zero [int] is a finite non-zero float of the
    same sign. *)
Lemma of_int_proper : forall n,
  GoInt.in_range n -> n <> 0 -> proper (n <? 0) (F64.of_int n).
Proof.
  intros n Hr Hn.
  assert (Hgen : forall s p, Zpos p <= 2 ^ 63 ->
            proper s (binary_round F64.prec F64.emax s p 0)).
  { intros s p Hp. unfold binary_round.
    pose proof (Zdigits2_bounds p) as [Blo Bhi].
    assert (Hd1 : 1 <= Zdigits2 (Zpos p)) by (cbn; lia).
    assert (Hd64 : Zdigits2 (Zpos p) <= 64).
    { destruct (Z.le_gt_cases (Zdigits2 (Zpos p)) 64) as [H|H]; [exact H|].
      assert (2 ^ 64 <= 2 ^ (Zdigits2 (Zpos p) - 1))
        by (apply Z.pow_le_mono_r; lia).
      change (2 ^ 64) with 18446744073709551616 in *.
      change (2 ^ 63) with 9223372036854775808 in *. lia. }
    change (Zpos (digits2_pos p)) with (Zdigits2 (Zpos p)).
    set (d := Zdigits2 (Zpos p)) in *.
    assert (Hf : fexp F64.prec F64.emax (d + 0) = d - 53).
    { unfold fexp, emin, F64.prec, F64.emax. lia. }
    rewrite Hf. unfold shl_align.
    destruct (d - 53 - 0) as [|k|k] eqn:Ek.
    - apply round_aux_proper; fold d; lia.
    - apply round_aux_proper; fold d; lia.
    - assert (Hv := iter_xO_value k p).
      assert (Hdz : Zdigits2 (Zpos (Pos.iter xO p k)) = 53).
      { apply Zdigits2_unique; [|lia]. rewrite Hv.
        assert (Hk : Zpos k = 53 - d) by lia. rewrite Hk.
        assert (E52 : 2 ^ (53 - 1) = 2 ^ (d - 1) * 2 ^ (53 - d)).
        { rewrite <- Z.pow_add_r by lia. f_equal. lia. }
        assert (E53 : 2 ^ 53 = 2 ^ d * 2 ^ (53 - d)).
        { rewrite <- Z.pow_add_r by lia. f_equal. lia. }
        rewrite E52, E53.
        assert (0 < 2 ^ (53 - d)) by (apply Z.pow_pos_nonneg; lia).
        split; [apply Z.mul_le_mono_nonneg_r; lia
               |apply Z.mul_lt_mono_pos_r; lia]. }
      apply round_aux_proper; rewrite ?Hdz; lia. }
  unfold GoInt.in_range, GoInt.minInt64, GoInt.maxInt64 in Hr.
  unfold F64.of_int, binary_normalize.
  destruct n as [|p|p]; [congruence| |].
  - apply (Hgen false). lia.
  - apply (Hgen true). lia.
Qed.

(** ** Signs of sums, products and quotients *)

Lemma proper_signed : forall s x, proper s x -> signed s x.
Proof. intros s [] H; cbn in *; tauto. Qed.

Lemma div_signed : forall sx sy x y,
  proper sx x -> proper sy y -> signed (xorb sx sy) (F64.div x y).
Proof.
  intros sx sy [| | |s1 m1 e1] [| | |s2 m2 e2] Hx Hy; cbn in Hx, Hy; try tauto.
  subst s1 s2. unfold F64.div, SFdiv.
  destruct (SFdiv_core_binary F64.prec F64.emax (Zpos m1) e1 (Zpos m2) e2)
    as [[mz ez] lz] eqn:E.
  apply round_aux_signed.
  unfold SFdiv_core_binary in E.
  match type of E with
  | (let '(q, r) := Z.div_eucl ?a ?b in _) = _ =>
      pose proof (Z_div_mod a b ltac:(lia)) as Hdm;
      assert (Ha : 0 <= a);
      [|destruct (Z.div_eucl a b) as [q r]; injection E as <- _ _;
        destruct Hdm as [Hq Hr]; nia]
  end.
  destruct (e1 - e2 - _) as [|k|k]; try lia.
  rewrite Z.shiftl_mul_pow2 by lia.
  assert (0 < 2 ^ Zpos k) by (apply Z.pow_pos_nonneg; lia). nia.
Qed.

Lemma mul_signed : forall sx sy x y,
  signed sx x -> proper sy y -> signed (xorb sx sy) (F64.mul x y).
Proof.
  intros sx sy [s1|s1| |s1 m1 e1] [| | |s2 m2 e2] Hx Hy; cbn in Hx, Hy;
    try tauto; subst; unfold F64.mul, SFmul; cbn; try reflexivity.
  apply round_aux_signed. lia.
Qed.

Lemma add_signed : forall s x y,
  signed s x -> signed s y -> signed s (F64.add x y).
Proof.
  intros s [s1|s1| |s1 m1 e1] [s2|s2| |s2 m2 e2] Hx Hy; cbn in Hx, Hy;
    try tauto; subst; unfold F64.add, SFadd;
    try solve [cbn; auto | destruct s; cbn; auto | destruct s1, s2; cbn; auto].
  cbv zeta. unfold binary_normalize.
  set (a := fst (shl_align m1 e1 (Z.min e1 e2))).
  set (b := fst (shl_align m2 e2 (Z.min e1 e2))).
  destruct s; cbn [cond_Zopp].
  - assert (E : - Zpos a + - Zpos b = Zneg (a + b)) by lia.
    rewrite E. apply round_signed.
  - assert (E : Zpos a + Zpos b = Zpos (a + b)) by lia.
    rewrite E. apply round_signed.
Qed.

Lemma sub_not_nan : forall s x y,
  F64.is_finite x = true -> signed s y -> F64.sub x y <> S754_nan.
Proof.
  intros s x y Hx Hy.
  destruct x as [s1|s1| |s1 m1 e1]; try discriminate Hx;
    destruct y as [s2|s2| |s2 m2 e2]; cbn in Hy; try tauto;
    unfold F64.sub, SFsub; try discriminate.
  - destruct s1, s2; discriminate.
  - apply normalize_not_nan.
Qed.

(** ** EV is never NaN *)

Section EVTheorems.

Context {P : Platform}.

Lemma int_of_float_in_range : forall f, GoInt.in_range (int_of_float f).
Proof.
  intros f. unfold int_of_float.
  destruct (F64.trunc f) as [n|]; [|apply wrap_in_range].
  destruct (GoInt.in_rangeb n) eqn:E; [|apply wrap_in_range].
  unfold GoInt.in_rangeb in E. apply andb_true_iff in E as [E1 E2].
  apply Z.leb_le in E1. apply Z.leb_le in E2. split; assumption.
Qed.

Lemma ev_tier_signed : forall t p acc,
  GoInt.in_range t -> t <> 0 -> tier_wf p ->
  signed (t <? 0) acc -> signed (t <? 0) (ev_tier t acc p).
Proof.
  intros t p acc Ht Hnz (Hv & _ & Hr) Hacc. unfold ev_tier.
  destruct (Z.leb_spec (RemainingCount p) 0) as [|Hrc]; [exact Hacc|].
  destruct (Z.leb_spec (Value p) 0) as [|Hval]; [exact Hacc|].
  cbn [orb]. apply add_signed; [exact Hacc|].
  pose proof (of_int_proper (RemainingCount p) Hr ltac:(lia)) as H1.
  pose proof (of_int_proper t Ht Hnz) as H2.
  pose proof (of_int_proper (Value p) Hv ltac:(lia)) as H3.
  replace (RemainingCount p <? 0) with false in H1 by (symmetry; apply Z.ltb_ge; lia).
  replace (Value p <? 0) with false in H3 by (symmetry; apply Z.ltb_ge; lia).
  pose proof (mul_signed _ _ _ _ (div_signed _ _ _ _ H1 H2) H3) as H.
  cbn [xorb] in H. rewrite xorb_false_r in H. exact H.
Qed.

Lemma expected_win_signed : forall t tiers acc,
  GoInt.in_range t -> t <> 0 -> Forall tier_wf tiers ->
  signed (t <? 0) acc ->
  signed (t <? 0) (fold_left (ev_tier t) tiers acc).
Proof.
  intros t tiers. induction tiers as [|p tiers IH]; intros acc Ht Hnz Hw Hacc.
  - exact Hacc.
  - cbn [fold_left]. inversion Hw as [|? ? Hp Hrest]; subst.
    apply IH; try assumption. apply ev_tier_signed; assumption.
Qed.

Lemma of_int_finite : forall n,
  GoInt.in_range n -> F64.is_finite (F64.of_int n) = true.
Proof.
  intros n Hn. destruct (Z.eq_dec n 0) as [->|Hnz]; [reflexivity|].
  pose proof (of_int_proper n Hn Hnz) as H.
  destruct (F64.of_int n); cbn in H; try tauto; reflexivity.
Qed.

Lemma EV_not_nan : forall g, Game_wf g -> EV g <> S754_nan.
Proof.
  intros g [Hp Ht]. unfold EV.
  pose proof (int_of_float_in_range
                (math.Round (F64.mul (Odds g)
                               (F64.of_int (TotalRemainingPrizes g))))) as Hr.
  fold (RemainingTickets g) in Hr.
  pose proof (of_int_finite (Price g) Hp) as Hfin.
  destruct (Z.eqb_spec (RemainingTickets g) 0) as [E|Hnz].
  - intros E'. rewrite E' in Hfin. discriminate Hfin.
  - apply (sub_not_nan (RemainingTickets g <? 0)); [exact Hfin|].
    apply expected_win_signed; try assumption. exact I.
Qed.

End EVTheorems.

(** ** Every Game of a run is made of [int]s *)

Lemma zero_in_range : GoInt.in_range 0.
Proof. int_bounds. lia. Qed.

Lemma Atoi_in_range : forall s, GoInt.in_range (fst (strconv.Atoi s)).
Proof.
  intros s. unfold strconv.Atoi. cbv zeta.
  pose proof (strip_sign_length s) as Hlen.
  destruct ((0 <? String.length s)%nat && (String.length s <? 19)%nat) eqn:E.
  - apply andb_true_iff in E as [_ E]. apply Nat.ltb_lt in E.
    destruct (strconv.strip_sign s) as [neg body]. cbn [snd] in Hlen.
    destruct body as [|c body]; [apply zero_in_range|].
    destruct (strconv.digits_val 0 (String c body)) as [n|] eqn:Hn;
      [|apply zero_in_range].
    pose proof (digits_val_some _ _ _ Hn) as Hd.
    pose proof (decimal_value_nonneg _ 0 Hd ltac:(lia)) as Hnn.
    pose proof (decimal_value_bound _ 0 Hd ltac:(lia)) as Hb.
    rewrite digits_val_decimal in Hn by exact Hd.
    remember (decimal_value 0 (String c body)) as v eqn:Hv.
    injection Hn as <-.
    assert (10 ^ Z.of_nat (String.length (String c body)) <= 10 ^ 18).
    { apply Z.pow_le_mono_r; lia. }
    change (10 ^ 18) with 1000000000000000000 in *.
    cbn [fst]. unfold GoInt.in_range. uint_bounds. destruct neg; lia.
  - unfold strconv.ParseInt.
    destruct s as [|c0 s0]; [apply zero_in_range|].
    destruct (strconv.strip_sign (String c0 s0)) as [neg body].
    unfold strconv.ParseUint.
    assert (Hun : 0 <= fst (match body with
                            | EmptyString => (0, Some strconv.ErrSyntax)
                            | String _ _ => strconv.parse_uint 0 body
                            end)).
    { destruct body; [cbn; lia|]. apply parse_uint_nonneg. lia. }
    destruct (match body with
              | EmptyString => (0, Some strconv.ErrSyntax)
              | String _ _ => strconv.parse_uint 0 body
              end) as [un [[|]|]]; cbn [fst] in *;
      try apply zero_in_range; cbv zeta;
      unfold GoInt.in_range; uint_bounds;
      destruct neg; cbn [negb andb];
      repeat match goal with
        | |- context [?a <=? ?b] => destruct (Z.leb_spec a b)
        | |- context [?a <? ?b] => destruct (Z.ltb_spec a b)
        end; cbn [fst]; lia.
Qed.

Lemma parseDollar_in_range : forall s, GoInt.in_range (parseDollar s).
Proof. intros s. apply Atoi_in_range. Qed.

Lemma parseInt_in_range : forall s, GoInt.in_range (parseInt s).
Proof. intros s. apply Atoi_in_range. Qed.

Section WellFormedGames.

Context {P : Platform}.

Lemma ParseMetaData_price : forall table,
  GoInt.in_range (fst (fst (ParseMetaData table))).
Proof.
  intros table. unfold ParseMetaData.
  assert (H : forall acc, GoInt.in_range (fst (fst acc)) ->
            GoInt.in_range (fst (fst (fold_left meta_row table acc)))).
  { induction table as [|row table IH]; intros acc Hacc; [exact Hacc|].
    cbn [fold_left]. apply IH.
    destruct acc as [[price odds] launchDate]. cbn [fst] in Hacc.
    unfold meta_row. destruct row as [|row0 [|val rest]]; try exact Hacc.
    destruct (strings.Contains _ "ticket price");
      [apply parseDollar_in_range|].
    destruct (strings.Contains _ "overall odds"); [exact Hacc|].
    destruct (strings.Contains _ "launch date"); exact Hacc. }
  apply H, zero_in_range.
Qed.

Lemma prize_rows_wf : forall rows acc,
  Forall tier_wf acc -> Forall tier_wf (fold_left prize_row rows acc).
Proof.
  induction rows as [|row rows IH]; intros acc Hacc; [exact Hacc|].
  cbn [fold_left]. apply IH. unfold prize_row.
  destruct row as [|row0 [|row1 [|row2 rest]]]; try exact Hacc.
  destruct (strings.Contains _ "2nd chance"); [exact Hacc|].
  apply Forall_app. split; [exact Hacc|].
  constructor; [|constructor].
  repeat split; cbn; first [apply parseDollar_in_range | apply parseInt_in_range].
Qed.

Lemma BuildGame_wf : forall tbls name url g,
  BuildGame tbls name url = Ret g -> Game_wf g.
Proof.
  intros * H. apply BuildGame_Ret in H as (meta & ? & rows & ? & _ & ->).
  split; cbn.
  - apply ParseMetaData_price.
  - apply prize_rows_wf. constructor.
Qed.

Lemma worker_wf : forall w l out g,
  worker w l = (out, Ret g) -> Game_wf g.
Proof.
  intros w l out g H. rewrite worker_unfold in H.
  destruct (http_get w l); try discriminate;
    injection H as _ H; try discriminate; eapply BuildGame_wf; exact H.
Qed.

Lemma reachable_wf : forall w s, reachable w s -> Forall Game_wf (games s).
Proof.
  intros w s Hr.
  pose proof (inv_games w s (reachable_Inv w s Hr)) as Hall.
  eapply Forall_impl; [|exact Hall].
  intros g [out Hw]. eapply worker_wf. exact Hw.
Qed.

End WellFormedGames.

(** ** The order of floats *)

Lemma lex_le_refl : forall a, lex_le a a.
Proof. intros [[a1 a2] a3]. cbn. lia. Qed.

Lemma lex_le_trans : forall a b c, lex_le a b -> lex_le b c -> lex_le a c.
Proof. intros [[a1 a2] a3] [[b1 b2] b3] [[c1 c2] c3]. cbn. lia. Qed.

Lemma lex_le_total : forall a b, lex_le a b \/ lex_le b a.
Proof. intros [[a1 a2] a3] [[b1 b2] b3]. cbn. lia. Qed.

Lemma lex_le_dec : forall a b, lex_le a b \/ ~ lex_le a b.
Proof. intros [[a1 a2] a3] [[b1 b2] b3]. cbn. lia. Qed.

Ltac compare_cases :=
  repeat match goal with
    | |- context [Z.compare ?a ?b] =>
        destruct (Z.compare_spec a b)
    | |- context [Pos.compare_cont Eq ?a ?b] =>
        change (Pos.compare_cont Eq a b) with (Pos.compare a b);
        destruct (Pos.compare_spec a b)
    end.

Lemma leb_rank : forall x y,
  x <> S754_nan -> y <> S754_nan ->
  (F64.leb x y = true <-> lex_le (rank x) (rank y)).
Proof.
  intros [s1|s1| |s1 m1 e1] [s2|s2| |s2 m2 e2] Hx Hy; try congruence;
    unfold F64.leb, SFleb, SFcompare, rank, lex_le;
    try destruct s1; try destruct s2;
    compare_cases; cbn; split; intros Hgoal; try discriminate;
    try reflexivity; try lia.
Qed.

Lemma ltb_rank : forall x y,
  x <> S754_nan -> y <> S754_nan ->
  (F64.ltb x y = true <-> ~ lex_le (rank y) (rank x)).
Proof.
  intros [s1|s1| |s1 m1 e1] [s2|s2| |s2 m2 e2] Hx Hy; try congruence;
    unfold F64.ltb, SFltb, SFcompare, rank, lex_le;
    try destruct s1; try destruct s2;
    compare_cases; cbn; split; intros Hgoal; try discriminate;
    try reflexivity; try lia.
Qed.

(** ** sort.Slice sorts *)

Section SortTheorems.

Context {P : Platform}.

Lemma not_less : forall x y,
  Game_wf x -> Game_wf y -> less x y = false ->
  lex_le (rank (EV x)) (rank (EV y)).
Proof.
  intros x y Hx Hy H. unfold less, F64.gtb in H.
  pose proof (ltb_rank (EV y) (EV x) (EV_not_nan y Hy) (EV_not_nan x Hx)) as R.
  unfold F64.ltb in R.
  destruct (lex_le_dec (rank (EV x)) (rank (EV y))) as [L|L]; [exact L|].
  apply R in L. rewrite L in H. discriminate H.
Qed.

Lemma is_less : forall x y,
  Game_wf x -> Game_wf y -> less x y = true ->
  lex_le (rank (EV y)) (rank (EV x)).
Proof.
  intros x y Hx Hy H. unfold less, F64.gtb in H.
  pose proof (ltb_rank (EV y) (EV x) (EV_not_nan y Hy) (EV_not_nan x Hx)) as R.
  unfold F64.ltb in R. apply R in H.
  destruct (lex_le_total (rank (EV y)) (rank (EV x))) as [L|L];
    [exact L | contradiction].
Qed.

(** The reversed prefix stays in ascending order of EV when an element is
    sifted into it. *)
Lemma sift_sorted : forall x rp,
  Game_wf x -> Forall Game_wf rp ->
  StronglySorted (fun a b => lex_le (rank (EV a)) (rank (EV b))) rp ->
  StronglySorted (fun a b => lex_le (rank (EV a)) (rank (EV b))) (sift x rp).
Proof.
  intros x rp Hx. induction rp as [|y rp IH]; intros Hw Hs; cbn [sift].
  - constructor; constructor.
  - inversion Hw as [|? ? Hy Hrest]; subst.
    inversion Hs as [|? ? Hs' Hall]; subst.
    destruct (less x y) eqn:E.
    + constructor; [apply IH; assumption|].
      eapply Permutation_Forall; [apply sift_perm|].
      constructor; [|exact Hall]. apply is_less; assumption.
    + pose proof (not_less x y Hx Hy E) as Hxy.
      constructor; [exact Hs|].
      constructor; [exact Hxy|].
      eapply Forall_impl; [|exact Hall].
      intros z Hz. eapply lex_le_trans; [exact Hxy | exact Hz].
Qed.

Lemma sort_fold_sorted : forall l rp,
  Forall Game_wf l -> Forall Game_wf rp ->
  StronglySorted (fun a b => lex_le (rank (EV a)) (rank (EV b))) rp ->
  StronglySorted (fun a b => lex_le (rank (EV a)) (rank (EV b)))
                 (fold_left (fun rp x => sift x rp) l rp).
Proof.
  induction l as [|x l IH]; intros rp Hl Hrp Hs; [exact Hs|].
  cbn [fold_left]. inversion Hl as [|? ? Hx Hl']; subst.
  apply IH; [exact Hl'| |apply sift_sorted; assumption].
  eapply Permutation_Forall; [apply sift_perm|]. constructor; assumption.
Qed.

Lemma sorted_snoc : forall (R : Game -> Game -> Prop) l a,
  StronglySorted R l -> Forall (fun x => R x a) l ->
  StronglySorted R (l ++ [a]).
Proof.
  intros R l a H. induction H as [|x l Hs IH Hall]; intros Ha; cbn [app].
  - constructor; constructor.
  - inversion Ha as [|? ? Hxa Hla]; subst.
    constructor; [apply IH, Hla|].
    apply Forall_app. split; [exact Hall|]. constructor; [exact Hxa|constructor].
Qed.

Lemma sorted_rev : forall (R : Game -> Game -> Prop) l,
  StronglySorted R l -> StronglySorted (fun a b => R b a) (rev l).
Proof.
  intros R l H. induction H as [|a l Hs IH Hall]; cbn [rev]; [constructor|].
  apply sorted_snoc; [exact IH|].
  rewrite Forall_forall in *. intros x Hx. apply Hall, in_rev, Hx.
Qed.

Lemma sorted_nth : forall (R : Game -> Game -> Prop) l,
  StronglySorted R l ->
  forall i j a b, (i < j)%nat ->
    nth_error l i = Some a -> nth_error l j = Some b -> R a b.
Proof.
  intros R l H. induction H as [|x l Hs IH Hall]; intros i j a b Hij Ha Hb.
  - destruct i; discriminate Ha.
  - destruct j as [|j]; [lia|]. cbn in Hb.
    destruct i as [|i]; cbn in Ha.
    + injection Ha as <-. rewrite Forall_forall in Hall.
      apply Hall. eapply nth_error_In. exact Hb.
    + eapply IH; [|exact Ha|exact Hb]. lia.
Qed.

(** [sort.Slice] leaves the games in non-increasing order of EV. *)
Lemma sortSlice_sorted : forall l,
  Forall Game_wf l ->
  forall i j a b, (i < j)%nat ->
    nth_error (sortSlice l) i = Some a ->
    nth_error (sortSlice l) j = Some b ->
    F64.geb (EV a) (EV b) = true.
Proof.
  intros l Hl i j a b Hij Ha Hb.
  assert (Hwf : Forall Game_wf (sortSlice l)).
  { eapply Permutation_Forall; [apply sortSlice_perm | exact Hl]. }
  rewrite Forall_forall in Hwf.
  pose proof (Hwf a (nth_error_In _ _ Ha)) as Wa.
  pose proof (Hwf b (nth_error_In _ _ Hb)) as Wb.
  unfold F64.geb. apply leb_rank; try (apply EV_not_nan; assumption).
  pose proof (sort_fold_sorted l [] Hl (Forall_nil _) (SSorted_nil _)) as Hs.
  apply sorted_rev in Hs. fold (sortSlice l) in Hs.
  exact (sorted_nth _ _ Hs i j a b Hij Ha Hb).
Qed.


(** C6.  Whenever a report has been written, its rows after the header are
    the records of the sorted games, in their order, and for every pair of
    rows the EV of the earlier one is greater than or equal to the EV of
    the later one. *)
Theorem report_rows_in_non_increasing_EV :
  forall w s rows,
    reachable w s ->
    report s = Some rows ->
    rows = csv_header :: map csv_record (games s)
    /\ forall i j gi gj,
         (i < j)%nat ->
         nth_error (games s) i = Some gi ->
         nth_error (games s) j = Some gj ->
         F64.geb (EV gi) (EV gj) = true.
Proof.
  intros w s rows Hr Hrep.
  pose proof (reachable_Inv w s Hr) as I.
  assert (Hf : ctl s = Finished).
  { destruct (ctl s) eqn:Ec; try reflexivity;
      rewrite (inv_no_report w s I) in Hrep by (rewrite Ec; discriminate);
      discriminate Hrep. }
  destruct (inv_report w s I Hf) as [Hrows [unsorted Hu]].
  split; [congruence|].
  pose proof (reachable_wf w s Hr) as Hwf.
  rewrite Hu in *.
  apply sortSlice_sorted.
  eapply Permutation_Forall; [symmetry; apply sortSlice_perm | exact Hwf].
Qed.

End SortTheorems.

(** ** EV against its reference definition *)

Section ReferenceEV.

Context {P : Platform}.

Lemma expected_win_fold : forall t tiers acc,
  fold_left (ev_tier t) tiers acc
  = fold_left F64.add
      (map (Spec.weighted_value t) (filter Spec.qualifies tiers)) acc.
Proof.
  intros t tiers. induction tiers as [|p tiers IH]; intros acc; [reflexivity|].
  cbn [fold_left filter]. rewrite IH. unfold ev_tier, Spec.qualifies.
  destruct (Z.leb_spec (RemainingCount p) 0) as [H1|H1];
    destruct (Z.ltb_spec 0 (RemainingCount p)) as [H1'|H1']; try lia;
    cbn [orb andb]; [reflexivity|].
  destruct (Z.leb_spec (Value p) 0) as [H2|H2];
    destruct (Z.ltb_spec 0 (Value p)) as [H2'|H2']; try lia;
    reflexivity.
Qed.

Lemma no_remaining_prizes_no_tickets : forall g,
  TotalRemainingPrizes g = 0 -> F64.is_finite (Odds g) = true ->
  RemainingTickets g = 0.
Proof.
  intros g Ht Hf. unfold RemainingTickets. rewrite Ht.
  change (F64.of_int 0) with (S754_zero false).
  destruct (Odds g) as [s|s| |s m e]; try discriminate Hf; reflexivity.
Qed.

(** C3, as the program has it.  EV is the reference definition: the price
    when RemainingTickets is 0, otherwise the price minus the sum, over the
    tiers of positive remaining count and positive value, of
    (remainingCount / RemainingTickets) × value.  In particular EV is the
    price when the remaining prizes total 0 and the odds are finite, and
    EV is the price minus W when RemainingTickets is not 0 and the
    probability-weighted sum is W. *)
Theorem EV_is_reference_EV :
  forall g,
    EV g = Spec.EV g
    /\ (TotalRemainingPrizes g = 0 -> F64.is_finite (Odds g) = true ->
        EV g = F64.of_int (Price g))
    /\ (forall W, RemainingTickets g <> 0 -> Spec.expected_win g = W ->
                  EV g = F64.sub (F64.of_int (Price g)) W).
Proof.
  intros g.
  assert (Href : EV g = Spec.EV g).
  { unfold EV, Spec.EV, Spec.expected_win, Spec.fsum.
    rewrite expected_win_fold. reflexivity. }
  split; [exact Href|]. split.
  - intros Ht Hf. unfold EV.
    rewrite (no_remaining_prizes_no_tickets g Ht Hf). reflexivity.
  - intros W Hnz HW. rewrite Href. unfold Spec.EV.
    destruct (Z.eqb_spec (RemainingTickets g) 0) as [E|_]; [contradiction|].
    rewrite HW. reflexivity.
Qed.

End ReferenceEV.

(** A run of two games that finishes: the report lists them by
    decreasing EV. *)
Lemma report_rows_in_non_increasing_EV_witness :
  let s := sequential_main (P := Reference.platform) Fixture.net_ok in
  let first := nth 0 (games s) Fixture.sold_out in
  let second := nth 1 (games s) Fixture.sold_out in
  report s
  = Some (csv_header :: map (csv_record (P := Reference.platform)) (games s))
  /\ nth_error (games s) 0 = Some first
  /\ nth_error (games s) 1 = Some second
  /\ F64.geb (EV (P := Reference.platform) first)
             (EV (P := Reference.platform) second) = true.
Proof.
  cbv zeta.
  set (s := sequential_main (P := Reference.platform) Fixture.net_ok).
  assert (Hrep : report s
                 = Some (csv_header
                         :: map (csv_record (P := Reference.platform)) (games s)))
    by (vm_compute; reflexivity).
  assert (H0 : nth_error (games s) 0 = Some (nth 0 (games s) Fixture.sold_out))
    by (vm_compute; reflexivity).
  assert (H1 : nth_error (games s) 1 = Some (nth 1 (games s) Fixture.sold_out))
    by (vm_compute; reflexivity).
  destruct (report_rows_in_non_increasing_EV (P := Reference.platform)
              Fixture.net_ok s _
              (sequential_reachable Fixture.net_ok) Hrep) as [_ Hord].
  split; [exact Hrep|]. split; [exact H0|]. split; [exact H1|].
  apply (Hord 0%nat 1%nat _ _ ltac:(lia) H0 H1).
Defined.

(** A game without remaining prizes, and the game of the fixture
    tables. *)
Lemma EV_is_reference_EV_witness :
  EV (P := Reference.platform) Fixture.sold_out = F64.of_int 5
  /\ EV (P := Reference.platform) Fixture.lucky_game
     = F64.sub (F64.of_int 5)
               (Spec.expected_win (P := Reference.platform) Fixture.lucky_game).
Proof.
  split.
  - apply (proj1 (proj2 (EV_is_reference_EV (P := Reference.platform)
                           Fixture.sold_out))); vm_compute; reflexivity.
  - apply (proj2 (proj2 (EV_is_reference_EV (P := Reference.platform)
                           Fixture.lucky_game))); [|reflexivity].
    vm_compute. discriminate.
Defined.

(** C3 as it is worded fails in its two particular cases.

    The page of the first game gives the odds as "1:Inf" and remaining
    counts that add up to zero: the product of the odds by zero is NaN,
    its conversion to [int] is not 0 on this platform, and EV leaves the
    price by the weighted value of the first tier.

    The page of the second game gives no odds: RemainingTickets is 0 and
    EV is the price, while the probability-weighted sum of the values,
    each divided by zero tickets, is +Inf. *)
Lemma EV_departs_from_the_particular_cases :
  (BuildGame (P := Reference.platform)
     [Fixture.odd_meta; Fixture.odd_prizes] "lucky 7" "/games/lucky-7"
   = Ret Fixture.odd_game
   /\ TotalRemainingPrizes Fixture.odd_game = 0
   /\ F64.of_int (Price Fixture.odd_game) = S754_zero false
   /\ EV (P := Reference.platform) Fixture.odd_game
      = S754_finite false 8796093022208000 (-107)
   /\ EV (P := Reference.platform) Fixture.odd_game
      <> F64.of_int (Price Fixture.odd_game))
  /\ (BuildGame (P := Reference.platform)
        [Fixture.no_odds_meta;
         ["Prize"; "Original"; "Remaining"] :: Fixture.prize_rows]
        "lucky 7" "/games/lucky-7"
      = Ret Fixture.no_odds_game
      /\ Spec.expected_win (P := Reference.platform) Fixture.no_odds_game
         = S754_infinity false
      /\ EV (P := Reference.platform) Fixture.no_odds_game = F64.of_int 5
      /\ EV (P := Reference.platform) Fixture.no_odds_game
         <> F64.sub (F64.of_int (Price Fixture.no_odds_game))
                    (Spec.expected_win (P := Reference.platform)
                                       Fixture.no_odds_game)).
Proof.
  split.
  - split; [vm_compute; reflexivity|]. split; [reflexivity|].
    split; [vm_compute; reflexivity|]. split; [vm_compute; reflexivity|].
    vm_compute. discriminate.
  - split; [vm_compute; reflexivity|]. split; [vm_compute; reflexivity|].
    split; [vm_compute; reflexivity|]. vm_compute. discriminate.
Qed.

(* ================================================================= *)
(** * Further properties of the program *)

(** ** ExtractTables *)

Lemma table_cell : forall s rest st,
  inRow st = true ->
  exists st',
    table_tokens (Fixture.cell s ++ rest) st = table_tokens rest st'
    /\ tables st' = tables st
    /\ currentTable st' = currentTable st
    /\ currentRow st' = currentRow st ++ clean_row [s]
    /\ inTable st' = inTable st
    /\ inRow st' = true.
Proof.
  intros s rest st Hrow. unfold Fixture.cell, clean_row.
  cbn [app table_tokens Fixture.tag Fixture.text Kind TokenType_eqb map filter].
  unfold table_token. cbn -[strings.TrimSpace String.eqb]. rewrite Hrow.
  cbn -[strings.TrimSpace].
  destruct (String.eqb (strings.TrimSpace s) "") eqn:E;
    cbn -[strings.TrimSpace];
    (eexists; split; [reflexivity|]); cbn -[strings.TrimSpace];
    rewrite ?app_nil_r; repeat split; reflexivity.
Qed.

Lemma table_cells : forall cells rest st,
  inRow st = true ->
  exists st',
    table_tokens (List.concat (map Fixture.cell cells) ++ rest) st
    = table_tokens rest st'
    /\ tables st' = tables st
    /\ currentTable st' = currentTable st
    /\ currentRow st' = currentRow st ++ clean_row cells
    /\ inTable st' = inTable st
    /\ inRow st' = true.
Proof.
  induction cells as [|c cells IH]; intros rest st Hrow.
  - exists st. cbn. rewrite app_nil_r.
    repeat split; try reflexivity; assumption.
  - cbn [map List.concat]. rewrite <- app_assoc.
    destruct (table_cell c (List.concat (map Fixture.cell cells) ++ rest) st Hrow)
      as (st1 & E1 & T1 & C1 & R1 & I1 & W1).
    destruct (IH rest st1 W1) as (st2 & E2 & T2 & C2 & R2 & I2 & W2).
    exists st2. rewrite E1, E2, T2, C2, R2, I2, T1, C1, R1, I1.
    repeat split; try assumption.
    rewrite <- app_assoc. f_equal.
    unfold clean_row. cbn [map filter].
    destruct (negb (String.eqb (strings.TrimSpace c) "")); reflexivity.
Qed.

Lemma table_row : forall cells rest st,
  inTable st = true ->
  exists st',
    table_tokens (Fixture.row cells ++ rest) st = table_tokens rest st'
    /\ tables st' = tables st
    /\ currentTable st' = currentTable st ++ [clean_row cells]
    /\ inTable st' = true.
Proof.
  intros cells rest st Htab. unfold Fixture.row.
  cbn [app]. rewrite <- app_assoc.
  cbn [table_tokens Fixture.tag Kind TokenType_eqb].
  set (st0 := table_token st (Fixture.tag StartTagToken "tr" [])).
  assert (H0 : tables st0 = tables st /\ currentTable st0 = currentTable st
               /\ currentRow st0 = [] /\ inTable st0 = true /\ inRow st0 = true).
  { subst st0. unfold table_token. cbn. rewrite Htab. cbn. auto. }
  destruct H0 as (T0 & C0 & R0 & I0 & W0).
  destruct (table_cells cells ([Fixture.tag EndTagToken "tr" []] ++ rest) st0 W0)
    as (st1 & E1 & T1 & C1 & R1 & I1 & W1).
  rewrite E1. cbn [app table_tokens Fixture.tag Kind TokenType_eqb].
  eexists. split; [reflexivity|].
  unfold table_token. cbn. rewrite W1. cbn.
  rewrite T1, C1, R1, I1, T0, C0, R0, I0. auto.
Qed.

Lemma table_rows : forall rows rest st,
  inTable st = true ->
  exists st',
    table_tokens (List.concat (map Fixture.row rows) ++ rest) st
    = table_tokens rest st'
    /\ tables st' = tables st
    /\ currentTable st' = currentTable st ++ map clean_row rows
    /\ inTable st' = true.
Proof.
  induction rows as [|r rows IH]; intros rest st Htab.
  - exists st. cbn. rewrite app_nil_r.
    repeat split; try reflexivity; assumption.
  - cbn [map List.concat]. rewrite <- app_assoc.
    destruct (table_row r (List.concat (map Fixture.row rows) ++ rest) st Htab)
      as (st1 & E1 & T1 & C1 & I1).
    destruct (IH rest st1 I1) as (st2 & E2 & T2 & C2 & I2).
    exists st2. rewrite E1, E2, T2, C2, T1, C1.
    repeat split; try assumption. rewrite <- app_assoc. reflexivity.
Qed.

Lemma table_table : forall rows rest st,
  exists st',
    table_tokens (Fixture.table rows ++ rest) st = table_tokens rest st'
    /\ tables st' = tables st ++ [map clean_row rows].
Proof.
  intros rows rest st. unfold Fixture.table.
  cbn [app]. rewrite <- app_assoc.
  cbn [table_tokens Fixture.tag Kind TokenType_eqb].
  set (st0 := table_token st (Fixture.tag StartTagToken "table" [])).
  assert (H0 : tables st0 = tables st /\ currentTable st0 = []
               /\ inTable st0 = true).
  { subst st0. unfold table_token. cbn. auto. }
  destruct H0 as (T0 & C0 & I0).
  destruct (table_rows rows ([Fixture.tag EndTagToken "table" []] ++ rest) st0 I0)
    as (st1 & E1 & T1 & C1 & I1).
  rewrite E1. cbn [app table_tokens Fixture.tag Kind TokenType_eqb].
  eexists. split; [reflexivity|].
  unfold table_token. cbn. rewrite I1. cbn.
  rewrite T1, C1, T0, C0. reflexivity.
Qed.

Lemma table_tables : forall ts st,
  tables (table_tokens (Render.tables ts) st)
  = tables st ++ map (map clean_row) ts.
Proof.
  induction ts as [|t ts IH]; intros st.
  - cbn. rewrite app_nil_r. reflexivity.
  - unfold Render.tables. cbn [map List.concat].
    destruct (table_table t (List.concat (map Fixture.table ts)) st)
      as (st1 & E1 & T1).
    rewrite E1. fold (Render.tables ts). rewrite IH, T1.
    rewrite <- app_assoc. reflexivity.
Qed.

Lemma clean_row_id : forall cells,
  Forall (fun c => strings.TrimSpace c = c /\ c <> EmptyString) cells ->
  clean_row cells = cells.
Proof.
  induction cells as [|c cells IH]; intros H; [reflexivity|].
  inversion H as [|? ? [Ht Hne] Hrest]; subst.
  unfold clean_row. cbn [map filter]. rewrite Ht.
  destruct (String.eqb_spec c ""); [contradiction|]. cbn [negb].
  f_equal. apply IH, Hrest.
Qed.

(** X1.  Tables written out as [table], [tr], [td] and text tokens are read
    back by [ExtractTables] in their order, each cell trimmed of white
    space and the cells left empty dropped; tables whose cells are already
    trimmed and not empty are read back unchanged. *)
Theorem ExtractTables_reads_back_tables :
  (forall ts, ExtractTables (Render.tables ts) = map (map clean_row) ts)
  /\ (forall ts,
        Forall (Forall (Forall (fun c => strings.TrimSpace c = c
                                         /\ c <> EmptyString))) ts ->
        ExtractTables (Render.tables ts) = ts).
Proof.
  assert (H : forall ts, ExtractTables (Render.tables ts)
                         = map (map clean_row) ts).
  { intros ts. unfold ExtractTables. rewrite table_tables. reflexivity. }
  split; [exact H|].
  intros ts Hts. rewrite H.
  induction Hts as [|t ts Ht _ IH]; [reflexivity|].
  cbn [map]. rewrite IH. f_equal.
  induction Ht as [|r rs Hr _ IHr]; [reflexivity|].
  cbn [map]. rewrite IHr, (clean_row_id r Hr). reflexivity.
Qed.

(** The two tables of the fixture page. *)
Lemma ExtractTables_reads_back_tables_witness :
  ExtractTables (Render.tables [Fixture.meta; Fixture.prize_rows])
  = [Fixture.meta; Fixture.prize_rows].
Proof.
  apply (proj2 ExtractTables_reads_back_tables).
  repeat constructor; vm_compute; discriminate.
Defined.

(** How many tables a page can give. *)
Lemma table_token_count : forall st t,
  (List.length (tables (table_token st t))
   <= List.length (tables st)
      + (if is_tag EndTagToken "table" t then 1 else 0))%nat
  /\ (List.length (tables (table_token st t))
      + (if inTable (table_token st t) then 1 else 0)
      <= List.length (tables st) + (if inTable st then 1 else 0)
         + (if is_tag StartTagToken "table" t then 1 else 0))%nat.
Proof.
  intros st t. unfold table_token, is_tag.
  assert (Hex : forall a : string,
            String.eqb (Data t) a = true ->
            forall b : string, String.eqb a b = false ->
                               String.eqb (Data t) b = false).
  { intros a Ha b Hb. apply String.eqb_eq in Ha. rewrite Ha. exact Hb. }
  destruct (inTable st) eqn:Et; destruct (inRow st) eqn:Er;
    destruct (inCell st) eqn:Ec;
    destruct (Kind t); cbn [TokenType_eqb andb]; cbn; rewrite ?Et; cbn;
    try lia;
    try (destruct (String.eqb (strings.TrimSpace (Data t)) "");
         cbn; rewrite ?Et; cbn; lia);
    destruct (String.eqb (Data t) "table") eqn:E1;
    destruct (String.eqb (Data t) "tr") eqn:E2;
    destruct (String.eqb (Data t) "td") eqn:E3;
    destruct (String.eqb (Data t) "th") eqn:E4;
    try (rewrite (Hex _ E1 "tr" eq_refl) in E2; discriminate E2);
    try (rewrite (Hex _ E1 "td" eq_refl) in E3; discriminate E3);
    try (rewrite (Hex _ E1 "th" eq_refl) in E4; discriminate E4);
    cbn; rewrite ?Et; cbn; rewrite ?length_app; cbn; lia.
Qed.

Lemma table_tokens_count : forall page st,
  (List.length (tables (table_tokens page st))
   <= List.length (tables st)
      + count_tokens (is_tag EndTagToken "table") page)%nat
  /\ (List.length (tables (table_tokens page st))
      <= List.length (tables st) + (if inTable st then 1 else 0)
         + count_tokens (is_tag StartTagToken "table") page)%nat.
Proof.
  induction page as [|t page IH]; intros st.
  - cbn. split; lia.
  - cbn [table_tokens].
    destruct (TokenType_eqb (Kind t) ErrorToken); [cbn; split; lia|].
    destruct (IH (table_token st t)) as [I1 I2].
    destruct (table_token_count st t) as [C1 C2].
    unfold count_tokens in *. cbn [filter].
    destruct (is_tag EndTagToken "table" t);
      destruct (is_tag StartTagToken "table" t);
      cbn [List.length]; split; lia.
Qed.

(** X2.  [ExtractTables] gives at most one table per table start tag and
    at most one per table end tag: a table is only emitted when its end
    tag is read, so a page without table tags gives no table and a table
    left open at the end of the page is dropped. *)
Theorem ExtractTables_emits_on_end_tags :
  (forall page,
     (List.length (ExtractTables page)
      <= count_tokens (is_tag StartTagToken "table") page)%nat
     /\ (List.length (ExtractTables page)
         <= count_tokens (is_tag EndTagToken "table") page)%nat)
  /\ (forall ts rows,
        ExtractTables
          (Render.tables ts
           ++ Fixture.tag StartTagToken "table" []
              :: List.concat (map Fixture.row rows))
        = map (map clean_row) ts).
Proof.
  split.
  - intros page. unfold ExtractTables.
    match goal with
    | |- context [table_tokens page ?st0] =>
        destruct (table_tokens_count page st0) as [H1 H2]
    end.
    cbn in H1, H2. split; lia.
  - intros ts rows. unfold ExtractTables, Render.tables.
    match goal with
    | |- context [table_tokens _ ?st0] => set (s0 := st0)
    end.
    assert (Happ : forall ts st rest,
              exists st',
                table_tokens (List.concat (map Fixture.table ts) ++ rest) st
                = table_tokens rest st'
                /\ tables st' = tables st ++ map (map clean_row) ts).
    { clear. induction ts as [|t ts IH]; intros st rest.
      - exists st. cbn. rewrite app_nil_r. auto.
      - cbn [map List.concat]. rewrite <- app_assoc.
        destruct (table_table t (List.concat (map Fixture.table ts) ++ rest) st)
          as (st1 & E1 & T1).
        destruct (IH st1 rest) as (st2 & E2 & T2).
        exists st2. rewrite E1, E2, T2, T1, <- app_assoc. auto. }
    destruct (Happ ts s0 (Fixture.tag StartTagToken "table" []
                          :: List.concat (map Fixture.row rows)))
      as (st1 & E1 & T1).
    rewrite E1. cbn [table_tokens Fixture.tag Kind TokenType_eqb].
    set (st2 := table_token st1 (Fixture.tag StartTagToken "table" [])).
    assert (H2 : tables st2 = tables st1 /\ inTable st2 = true).
    { subst st2. unfold table_token. cbn. auto. }
    destruct H2 as [T2 I2].
    destruct (table_rows rows [] st2 I2) as (st3 & E3 & T3 & _).
    rewrite app_nil_r in E3. rewrite E3. cbn [table_tokens].
    rewrite T3, T2, T1. reflexivity.
Qed.

(** ** GetLinks *)

Lemma scan_tokens_outside : forall hs rest l,
  scan_tokens (Render.anchors hs ++ rest)
    {| links := l; inActiveSession := false; divDepth := 0 |}
  = scan_tokens rest {| links := l; inActiveSession := false; divDepth := 0 |}.
Proof.
  induction hs as [|h hs IH]; intros rest l; [reflexivity|].
  unfold Render.anchors. cbn [map List.concat app].
  cbn [scan_tokens Fixture.anchor Fixture.anchor_close Fixture.tag Kind
       TokenType_eqb].
  unfold scan_token. cbn. apply IH.
Qed.

Lemma scan_tokens_inside : forall hs rest l,
  scan_tokens (Render.anchors hs ++ rest)
    {| links := l; inActiveSession := true; divDepth := 1 |}
  = scan_tokens rest
      {| links := l ++ hs; inActiveSession := true; divDepth := 1 |}.
Proof.
  induction hs as [|h hs IH]; intros rest l.
  - cbn. rewrite app_nil_r. reflexivity.
  - unfold Render.anchors. cbn [map List.concat app].
    cbn [scan_tokens Fixture.anchor Fixture.anchor_close Fixture.tag Kind
         TokenType_eqb].
    unfold scan_token. cbn.
    fold (Render.anchors hs). rewrite IH. rewrite <- app_assoc. reflexivity.
Qed.

Lemma scan_tokens_container : forall hs rest l,
  scan_tokens (Render.container hs ++ rest)
    {| links := l; inActiveSession := false; divDepth := 0 |}
  = scan_tokens rest
      {| links := l ++ hs; inActiveSession := false; divDepth := 0 |}.
Proof.
  intros hs rest l. unfold Render.container.
  cbn [app scan_tokens Fixture.div_open Fixture.tag Kind TokenType_eqb].
  unfold scan_token. cbn. rewrite <- app_assoc.
  rewrite scan_tokens_inside.
  cbn [app scan_tokens Fixture.div_close Fixture.tag Kind TokenType_eqb].
  unfold scan_token. cbn. reflexivity.
Qed.

Lemma scan_tokens_blocks : forall bs rest l,
  scan_tokens (List.concat (map Render.block bs) ++ rest)
    {| links := l; inActiveSession := false; divDepth := 0 |}
  = scan_tokens rest
      {| links := l ++ List.concat (map snd bs);
         inActiveSession := false; divDepth := 0 |}.
Proof.
  induction bs as [|[out hs] bs IH]; intros rest l.
  - cbn. rewrite app_nil_r. reflexivity.
  - cbn [map List.concat snd]. unfold Render.block at 1. cbn [fst snd].
    rewrite <- !app_assoc.
    rewrite scan_tokens_outside, scan_tokens_container, IH.
    rewrite <- app_assoc. reflexivity.
Qed.

(** X3.  On a landing page made of any number of marked containers that
    hold anchors only, with anchors before, between and after them,
    [GetLinks] returns the hrefs of the anchors of every container, in
    document order, and none of the others. *)
Theorem GetLinks_reads_every_container :
  forall bs trailing,
    page_links (Render.landing bs trailing) = List.concat (map snd bs).
Proof.
  intros bs trailing. unfold page_links, Render.landing, scan_start.
  rewrite scan_tokens_blocks.
  rewrite <- (app_nil_r (Render.anchors trailing)).
  rewrite scan_tokens_outside. reflexivity.
Qed.

Lemma scan_token_quiet : forall st t,
  inActiveSession st = false ->
  opens_session t = false ->
  scan_token st t = st.
Proof.
  intros [l a d] t Ha Ho. cbn in Ha. subst a.
  unfold opens_session, is_tag in Ho. unfold scan_token.
  cbn [inActiveSession links divDepth].
  destruct (TokenType_eqb (Kind t) StartTagToken) eqn:Ek;
    destruct (String.eqb (Data t) "div") eqn:Ed; cbn [andb] in *.
  - rewrite Ho. cbn.
    destruct (Kind t); try discriminate Ek. cbn. reflexivity.
  - destruct (Kind t); try discriminate Ek. cbn. reflexivity.
  - destruct (Kind t); try discriminate Ek; cbn; reflexivity.
  - destruct (Kind t); try discriminate Ek; cbn; reflexivity.
Qed.

(** X4.  When no [div] start tag of the page carries the marker class,
    [GetLinks] returns no link at all. *)
Theorem GetLinks_without_marker :
  forall page,
    existsb opens_session page = false -> page_links page = [].
Proof.
  intros page H. unfold page_links.
  assert (G : forall st, inActiveSession st = false ->
                         scan_tokens page st = st).
  { induction page as [|t page IH]; intros st Ha; [reflexivity|].
    cbn [existsb] in H. apply orb_false_iff in H as [Ht Hp].
    cbn [scan_tokens].
    destruct (TokenType_eqb (Kind t) ErrorToken); [reflexivity|].
    rewrite (scan_token_quiet st t Ha Ht). apply IH; assumption. }
  rewrite G; reflexivity.
Qed.

(** A page with anchors and an unmarked [div], but no marked one. *)
Lemma GetLinks_without_marker_witness :
  page_links (Fixture.anchor "/about" :: Fixture.div_open "footer"
              :: Fixture.anchor "/contact" :: [Fixture.div_close]) = [].
Proof.
  apply GetLinks_without_marker. vm_compute. reflexivity.
Defined.

Lemma scan_token_links : forall st t,
  links (scan_token st t) = links st
  \/ (is_tag StartTagToken "a" t = true
      /\ links (scan_token st t) = links st ++ hrefs (Attr t)).
Proof.
  intros st t. unfold scan_token, is_tag. cbv zeta.
  match goal with
  | |- context [if inActiveSession ?s2 && _ && _ then _ else _] =>
      set (st2 := s2);
      assert (H2 : links st2 = links st)
  end.
  { subst st2.
    repeat match goal with
      | |- context [if ?b then _ else _] => destruct b; cbn [links]
      end; reflexivity. }
  destruct (inActiveSession st2
            && TokenType_eqb (Kind t) StartTagToken
            && String.eqb (Data t) "a") eqn:E.
  - right. apply andb_true_iff in E as [E Ea].
    apply andb_true_iff in E as [_ Ek].
    rewrite Ek, Ea. cbn [links]. rewrite H2. split; reflexivity.
  - left. exact H2.
Qed.

Lemma scan_tokens_links : forall page st,
  exists found,
    links (scan_tokens page st) = links st ++ found
    /\ incl found (anchor_hrefs page)
    /\ (List.length found <= List.length (anchor_hrefs page))%nat.
Proof.
  induction page as [|t page IH]; intros st.
  - exists []. cbn. rewrite app_nil_r. repeat split; [apply incl_refl|lia].
  - cbn [scan_tokens].
    destruct (TokenType_eqb (Kind t) ErrorToken).
    { exists []. rewrite app_nil_r.
      repeat split; [apply incl_nil_l | cbn; lia]. }
    destruct (IH (scan_token st t)) as (found & E & Hin & Hlen).
    unfold anchor_hrefs in *. cbn [map List.concat].
    destruct (scan_token_links st t) as [H|[Ha H]].
    + exists found. rewrite E, H. repeat split.
      * apply incl_appr, Hin.
      * rewrite length_app. lia.
    + exists (hrefs (Attr t) ++ found). rewrite E, H, Ha, <- app_assoc.
      repeat split.
      * apply incl_app; [apply incl_appl, incl_refl | apply incl_appr, Hin].
      * rewrite !length_app. lia.
Qed.

(** X5.  [GetLinks] invents nothing: every link it returns is the value of
    an [href] attribute of an anchor start tag of the page, and it returns
    no more links than the page has such values. *)
Theorem GetLinks_returns_anchor_hrefs :
  forall page,
    incl (page_links page) (anchor_hrefs page)
    /\ (List.length (page_links page) <= List.length (anchor_hrefs page))%nat.
Proof.
  intros page. unfold page_links.
  destruct (scan_tokens_links page scan_start) as (found & E & Hin & Hlen).
  rewrite E. cbn [links scan_start app]. split; assumption.
Qed.

(** ** parseInt *)

Lemma without_count_bytes : forall s,
  all_bytes (fun c => strconv.is_digit c || Ascii.eqb c ",") s = true ->
  without_byte "," s = keep_digits s
  /\ all_bytes strconv.is_digit (keep_digits s) = true.
Proof.
  induction s as [|d s IH]; intros H; [split; reflexivity|].
  cbn in H. apply andb_true_iff in H as [Hd Hs].
  destruct (IH Hs) as [IH1 IH2].
  cbn [without_byte keep_digits].
  destruct (strconv.is_digit d) eqn:Ed.
  - assert (E : Ascii.eqb d "," = false).
    { apply Ascii.eqb_neq. intros ->. discriminate Ed. }
    rewrite E, IH1. cbn. rewrite Ed, IH2. split; reflexivity.
  - cbn in Hd. rewrite Hd. split; assumption.
Qed.

(** X6.  [parseInt] reads a count printed with thousands separators as the
    number its digits denote, and with a leading minus sign as its
    opposite, as long as the number is an [int]; it does not remove a
    currency symbol, so a cell that starts with one reads as 0. *)
Theorem parseInt_count :
  (forall s,
     count_string s = true ->
     decimal_value 0 (keep_digits s) <= GoInt.maxInt64 ->
     parseInt s = decimal_value 0 (keep_digits s))
  /\ (forall s,
        count_string s = true ->
        decimal_value 0 (keep_digits s) <= 2 ^ 63 ->
        parseInt (String "-" s) = - decimal_value 0 (keep_digits s))
  /\ (forall s, parseInt (String "$" s) = 0).
Proof.
  split; [|split].
  - intros s Hs Hmax. unfold count_string in Hs.
    apply andb_true_iff in Hs as [Hb Hne].
    destruct (without_count_bytes s Hb) as [Hw Hd].
    unfold parseInt. rewrite replace_byte_away, Hw.
    rewrite Atoi_digits; [reflexivity| |exact Hd|exact Hmax].
    intros E. rewrite E in Hne. discriminate Hne.
  - intros s Hs Hmax. unfold count_string in Hs.
    apply andb_true_iff in Hs as [Hb Hne].
    destruct (without_count_bytes s Hb) as [Hw Hd].
    unfold parseInt. rewrite replace_byte_away.
    cbn [without_byte Ascii.eqb Bool.eqb]. rewrite Hw.
    rewrite Atoi_negative; [reflexivity| |exact Hd|exact Hmax].
    intros E. rewrite E in Hne. discriminate Hne.
  - intros s. unfold parseInt. rewrite replace_byte_away.
    cbn [without_byte Ascii.eqb Bool.eqb].
    rewrite Atoi_malformed by reflexivity.
    cbn [strconv.strip_sign snd digit_prefix strconv.is_digit].
    reflexivity.
Qed.

(** "1,000" is 1000, "-5" is -5. *)
Lemma parseInt_count_witness :
  parseInt "1,000" = 1000 /\ parseInt "-5" = -5.
Proof.
  split.
  - apply (proj1 parseInt_count "1,000"); [vm_compute; reflexivity|].
    vm_compute. discriminate.
  - apply (proj1 (proj2 parseInt_count) "5"); [vm_compute; reflexivity|].
    vm_compute. discriminate.
Defined.

(** ** exctractGameName *)

Lemma replace_byte_one : forall c d s,
  strings.ReplaceAll s (String c EmptyString) (String d EmptyString)
  = replace_byte c d s.
Proof.
  intros c d s. unfold strings.ReplaceAll.
  induction s as [|x s IH]; [reflexivity|].
  cbn [strings.replace_from replace_byte]. rewrite prefix_byte.
  cbn [String.length Nat.sub]. rewrite IH.
  destruct (Ascii.eqb x c); reflexivity.
Qed.

Lemma replace_byte_counts : forall c d e s,
  c <> d ->
  strings.count_byte c (replace_byte c d s) = O
  /\ (e <> d -> strings.count_byte e s = O ->
      strings.count_byte e (replace_byte c d s) = O).
Proof.
  intros c d e s Hcd. induction s as [|x s [IH1 IH2]]; [split; reflexivity|].
  cbn [replace_byte strings.count_byte]. split.
  - rewrite IH1. destruct (Ascii.eqb_spec x c) as [->|Hx].
    + destruct (Ascii.eqb_spec d c); [congruence|reflexivity].
    + destruct (Ascii.eqb_spec x c); [congruence|reflexivity].
  - intros Hed H.
    destruct (Ascii.eqb_spec x e) as [->|Hxe]; [discriminate H|].
    cbn in H. rewrite (IH2 Hed H).
    destruct (Ascii.eqb x c).
    + destruct (Ascii.eqb_spec d e); [congruence|reflexivity].
    + destruct (Ascii.eqb_spec x e); [congruence|reflexivity].
Qed.

Lemma count_byte_app : forall c a b,
  strings.count_byte c (a ++ b)%string
  = (strings.count_byte c a + strings.count_byte c b)%nat.
Proof.
  intros c a b. induction a as [|x a IH]; [reflexivity|].
  cbn [String.append strings.count_byte]. rewrite IH. lia.
Qed.

Lemma split_last_clean : forall c s cur,
  strings.count_byte c cur = O ->
  strings.count_byte c
    (last (strings.split_from 0 s (String c EmptyString) cur) EmptyString) = O.
Proof.
  intros c s. induction s as [|x s IH]; intros cur Hcur; [exact Hcur|].
  rewrite split_byte_cons. destruct (Ascii.eqb_spec x c) as [->|Hx].
  - pose proof (split_length c s EmptyString) as Hl.
    destruct (strings.split_from 0 s (String c EmptyString) EmptyString)
      as [|y l] eqn:E; [discriminate Hl|].
    change (last (cur :: y :: l) EmptyString) with (last (y :: l) EmptyString).
    rewrite <- E. apply IH. reflexivity.
  - apply IH. rewrite count_byte_app, Hcur. cbn.
    destruct (Ascii.eqb_spec x c); [congruence|reflexivity].
Qed.

Lemma split_last_segment : forall c x seg cur,
  strings.count_byte c seg = O ->
  last (strings.split_from 0 (x ++ String c seg)%string
          (String c EmptyString) cur) EmptyString = seg.
Proof.
  intros c x. induction x as [|y x IH]; intros seg cur Hseg.
  - cbn [String.append]. rewrite split_byte_cons, Ascii.eqb_refl.
    rewrite split_no_sep by exact Hseg. reflexivity.
  - cbn [String.append]. rewrite split_byte_cons.
    destruct (Ascii.eqb y c).
    + pose proof (split_length c (x ++ String c seg)%string EmptyString) as Hl.
      destruct (strings.split_from 0 (x ++ String c seg)
                  (String c EmptyString) EmptyString) as [|z l] eqn:E;
        [discriminate Hl|].
      change (last (cur :: z :: l) EmptyString) with (last (z :: l) EmptyString).
      rewrite <- E. apply IH, Hseg.
    + apply IH, Hseg.
Qed.

Lemma trim_right_slashes : forall f y n,
  f "/"%char = true ->
  strings.trim_right f (y ++ slashes n)%string = strings.trim_right f y.
Proof.
  intros f y n Hf. induction y as [|c y IH].
  - cbn [String.append]. induction n as [|n IHn]; [reflexivity|].
    cbn [slashes strings.trim_right]. rewrite IHn, Hf. reflexivity.
  - cbn [String.append strings.trim_right]. rewrite IH. reflexivity.
Qed.

Lemma trim_right_keeps : forall f x seg,
  seg <> EmptyString ->
  all_bytes (fun c => negb (f c)) seg = true ->
  strings.trim_right f (x ++ seg)%string = (x ++ seg)%string.
Proof.
  intros f x seg Hne Hseg.
  assert (Hbase : strings.trim_right f seg = seg).
  { clear Hne. induction seg as [|c seg IH]; [reflexivity|].
    cbn in Hseg. apply andb_true_iff in Hseg as [Hc Hs].
    cbn [strings.trim_right]. rewrite (IH Hs).
    destruct seg; [|reflexivity].
    destruct (f c); [discriminate Hc|reflexivity]. }
  induction x as [|c x IH]; [exact Hbase|].
  cbn [String.append strings.trim_right]. rewrite IH.
  destruct (x ++ seg)%string eqn:E; [|reflexivity].
  destruct x; cbn in E; [congruence|discriminate E].
Qed.

Lemma segment_no_slash : forall seg,
  strings.count_byte "/" seg = O ->
  all_bytes (fun c => negb (strings.mem_byte c "/")) seg = true.
Proof.
  induction seg as [|c seg IH]; intros H; [reflexivity|].
  cbn [strings.count_byte] in H. cbn [all_bytes strings.mem_byte].
  destruct (Ascii.eqb c "/"); [discriminate H|].
  cbn. apply IH. exact H.
Qed.

(** X7.  When the URL, once trimmed of slashes, holds no slash,
    [exctractGameName] returns the URL as it was given, untrimmed;
    otherwise it returns the last segment of the trimmed URL with every
    hyphen turned into a space, a name that holds neither a slash nor a
    hyphen. *)
Theorem exctractGameName_cases :
  (forall url,
     strings.count_byte "/" (strings.Trim url "/") = O ->
     exctractGameName url = url)
  /\ (forall url,
        strings.count_byte "/" (strings.Trim url "/") <> O ->
        exctractGameName url
        = replace_byte "-" " "
            (last (strings.Split (strings.Trim url "/") "/") EmptyString)
        /\ strings.count_byte "/" (exctractGameName url) = O
        /\ strings.count_byte "-" (exctractGameName url) = O).
Proof.
  split.
  - intros url H. unfold exctractGameName, strings.Split.
    rewrite split_length, H. reflexivity.
  - intros url H. unfold exctractGameName, strings.Split.
    rewrite split_length.
    destruct (strings.count_byte "/" (strings.Trim url "/")) as [|k] eqn:E;
      [congruence|].
    cbn [Nat.ltb Nat.leb]. rewrite replace_byte_one.
    split; [reflexivity|].
    destruct (replace_byte_counts "-" " " "/"
                (last (strings.split_from 0 (strings.Trim url "/") "/" "") "")
                ltac:(discriminate)) as [H1 H2].
    split; [|exact H1].
    apply H2; [discriminate|]. apply split_last_clean. reflexivity.
Qed.

(** A bare name, and the URL of a game page. *)
Lemma exctractGameName_cases_witness :
  exctractGameName "/lucky-7/" = "/lucky-7/"
  /\ strings.count_byte "-" (exctractGameName "/game/lucky-7/") = O.
Proof.
  split.
  - apply (proj1 exctractGameName_cases). vm_compute. reflexivity.
  - apply (proj2 exctractGameName_cases). vm_compute. discriminate.
Defined.

(** X8.  For a URL that does not start with a slash and ends with a
    non-empty segment followed by any number of slashes,
    [exctractGameName] returns that segment with its hyphens turned into
    spaces. *)
Theorem exctractGameName_last_segment :
  forall c prefix seg n,
    c <> "/"%char ->
    segment seg = true ->
    exctractGameName (String c prefix ++ "/" ++ seg ++ slashes n)%string
    = replace_byte "-" " " seg.
Proof.
  intros c prefix seg n Hc Hseg. unfold segment in Hseg.
  apply andb_true_iff in Hseg as [Hne Hcount].
  apply Nat.eqb_eq in Hcount.
  assert (Hne' : seg <> EmptyString).
  { intros ->. discriminate Hne. }
  assert (Htrim : strings.Trim (String c prefix ++ "/" ++ seg ++ slashes n) "/"
                  = (String c prefix ++ String "/" seg)%string).
  { unfold strings.Trim.
    set (f := fun b : ascii => strings.mem_byte b "/").
    assert (Hfc : f c = false).
    { unfold f. cbn. destruct (Ascii.eqb_spec c "/"); [contradiction|reflexivity]. }
    assert (Hleft : forall r, strings.trim_left f (String c r) = String c r).
    { intros r. cbn [strings.trim_left]. rewrite Hfc. reflexivity. }
    change (String c prefix ++ "/" ++ seg ++ slashes n)%string
      with (String c (prefix ++ "/" ++ seg ++ slashes n))%string.
    rewrite Hleft.
    replace (String c (prefix ++ "/" ++ seg ++ slashes n))%string
      with (((String c prefix ++ "/") ++ seg) ++ slashes n)%string
      by (rewrite !append_assoc; reflexivity).
    rewrite trim_right_slashes by reflexivity.
    rewrite trim_right_keeps;
      [rewrite append_assoc; reflexivity | exact Hne' |].
    apply segment_no_slash, Hcount. }
  unfold exctractGameName. rewrite Htrim. unfold strings.Split.
  rewrite split_length, count_byte_app.
  cbn [strings.count_byte Ascii.eqb Bool.eqb].
  rewrite split_last_segment by exact Hcount.
  rewrite replace_byte_one.
  destruct (1 <? S _)%nat eqn:E; [reflexivity|].
  apply Nat.ltb_ge in E. lia.
Qed.

(** The URL of a game page. *)
Lemma exctractGameName_last_segment_witness :
  exctractGameName "https://www.mslottery.com/game/lucky-7-doubler//"
  = "lucky 7 doubler".
Proof.
  apply (exctractGameName_last_segment "h"
           "ttps://www.mslottery.com/game" "lucky-7-doubler" 2);
    [discriminate | vm_compute; reflexivity].
Defined.

(** ** ParseMetaData, ParsePrizes, BuildGame *)

Section Tables.

Context {P : Platform}.

Lemma meta_row_skips : forall acc row,
  meta_label row = false -> meta_row acc row = acc.
Proof.
  intros [[price odds] launch] row H. unfold meta_row.
  destruct row as [|row0 [|val rest]]; try reflexivity.
  unfold meta_label in H. cbv zeta in H.
  apply orb_false_iff in H as [H H3]. apply orb_false_iff in H as [H1 H2].
  cbv zeta. rewrite H1, H2, H3. reflexivity.
Qed.

Lemma fold_meta_filter : forall table acc,
  fold_left meta_row table acc = fold_left meta_row (filter meta_label table) acc.
Proof.
  induction table as [|row table IH]; intros acc; [reflexivity|].
  cbn [fold_left filter]. destruct (meta_label row) eqn:E.
  - cbn [fold_left]. apply IH.
  - rewrite meta_row_skips by exact E. apply IH.
Qed.

(** X9.  [ParseMetaData] looks only at the rows of at least two cells
    whose first cell holds one of the three labels, whatever their place
    in the table; in a table without such a row the price is 0, the odds
    are 0 and the launch date is empty. *)
Theorem ParseMetaData_reads_labelled_rows :
  forall table,
    ParseMetaData table = ParseMetaData (filter meta_label table)
    /\ (forallb (fun row => negb (meta_label row)) table = true ->
        ParseMetaData table = (0, F64.zero, EmptyString)).
Proof.
  intros table. unfold ParseMetaData. split; [apply fold_meta_filter|].
  intros H. rewrite fold_meta_filter.
  replace (filter meta_label table) with (@nil (list string)); [reflexivity|].
  induction table as [|row table IH]; [reflexivity|].
  cbn in H. apply andb_true_iff in H as [Hr Ht].
  cbn [filter]. destruct (meta_label row); [discriminate Hr|]. apply IH, Ht.
Qed.

(** X10.  A later row of the metadata table overrides an earlier one with
    the same label and leaves the two other fields as they were; a first
    cell that holds several labels counts for the first of ticket price,
    overall odds and launch date, in that order. *)
Theorem ParseMetaData_last_row_wins :
  forall table key val rest,
    let before := ParseMetaData table in
    let after := ParseMetaData (table ++ [key :: val :: rest]) in
    let k := strings.ToLower key in
    (strings.Contains k "ticket price" = true ->
     after = (parseDollar val, snd (fst before), snd before))
    /\ (strings.Contains k "ticket price" = false ->
        strings.Contains k "overall odds" = true ->
        after = (fst (fst before), parseOdds val, snd before))
    /\ (strings.Contains k "ticket price" = false ->
        strings.Contains k "overall odds" = false ->
        strings.Contains k "launch date" = true ->
        after = (fst (fst before), snd (fst before), val)).
Proof.
  intros table key val rest. cbv zeta. unfold ParseMetaData.
  rewrite fold_left_app. cbn [fold_left].
  destruct (fold_left meta_row table (0, F64.zero, EmptyString))
    as [[price odds] launch].
  unfold meta_row. cbv zeta. cbn [fst snd].
  split; [|split].
  - intros ->. reflexivity.
  - intros -> ->. reflexivity.
  - intros -> -> ->. reflexivity.
Qed.

Lemma prize_row_tier : forall prizes row,
  prize_row prizes row
  = prizes ++ (if keeps_prize_row row then [tier_of_row row] else []).
Proof.
  intros prizes row. unfold prize_row, keeps_prize_row, tier_of_row.
  destruct row as [|row0 [|row1 [|row2 rest]]];
    try (rewrite app_nil_r; reflexivity).
  destruct (strings.Contains (strings.ToLower row0) "2nd chance");
    [rewrite app_nil_r|]; reflexivity.
Qed.

Lemma fold_prize_rows : forall rows prizes,
  fold_left prize_row rows prizes
  = prizes ++ map tier_of_row (filter keeps_prize_row rows).
Proof.
  induction rows as [|row rows IH]; intros prizes.
  - cbn. rewrite app_nil_r. reflexivity.
  - cbn [fold_left filter]. rewrite IH, prize_row_tier.
    destruct (keeps_prize_row row); cbn [map].
    + rewrite <- app_assoc. reflexivity.
    + rewrite app_nil_r. reflexivity.
Qed.

(** X11.  [ParsePrizes] drops the first row of the table unread and
    returns one tier for each later row of at least three cells whose
    first cell does not hold "2nd chance", in the order of the table, read
    from the first three cells of the row; it never has more tiers than
    the table has rows after the first. *)
Theorem ParsePrizes_tiers :
  forall header rows,
    ParsePrizes (header :: rows)
    = Ret (map tier_of_row (filter keeps_prize_row rows))
    /\ (List.length (map tier_of_row (filter keeps_prize_row rows))
        <= List.length rows)%nat.
Proof.
  intros header rows. unfold ParsePrizes. rewrite fold_prize_rows.
  split; [reflexivity|].
  rewrite length_map. apply filter_length_le.
Qed.

(** X12.  [BuildGame] returns a game exactly when it is given at least two
    tables of which the second has a row; it never exits, it reads the
    first two tables only, and the game it returns has the given name and
    URL, game number 0, and the tiers of the rows of the second table. *)
Theorem BuildGame_needs_two_tables :
  forall tables name url,
    ((exists g, BuildGame tables name url = Ret g)
     <-> exists meta header rows rest,
           tables = meta :: (header :: rows) :: rest)
    /\ (forall c, BuildGame tables name url <> Exit c)
    /\ (forall meta prizes rest,
          tables = meta :: prizes :: rest ->
          BuildGame tables name url = BuildGame [meta; prizes] name url)
    /\ (forall g meta header rows rest,
          tables = meta :: (header :: rows) :: rest ->
          BuildGame tables name url = Ret g ->
          Name g = name /\ URL g = url /\ GameNumber g = 0
          /\ PrizeTiers g = map tier_of_row (filter keeps_prize_row rows)).
Proof.
  intros tables name url.
  assert (Hshape : forall meta header rows rest,
            tables = meta :: (header :: rows) :: rest ->
            exists g, BuildGame tables name url = Ret g
                      /\ Name g = name /\ URL g = url /\ GameNumber g = 0
                      /\ PrizeTiers g
                         = map tier_of_row (filter keeps_prize_row rows)).
  { intros meta header rows rest ->. unfold BuildGame. cbn [nth_error].
    destruct (ParseMetaData meta) as [[price odds] launch].
    unfold ParsePrizes. rewrite fold_prize_rows. cbn [app].
    eexists. split; [reflexivity|]. cbn. repeat split. }
  split; [split|split; [|split]].
  - intros [g Hg]. unfold BuildGame in Hg.
    destruct tables as [|meta [|[|header rows] rest]]; cbn in Hg;
      try discriminate Hg.
    + destruct (ParseMetaData meta) as [[? ?] ?]. discriminate Hg.
    + exists meta, header, rows, rest. reflexivity.
  - intros (meta & header & rows & rest & E).
    destruct (Hshape _ _ _ _ E) as (g & Hg & _). exists g. exact Hg.
  - intros c H. unfold BuildGame in H.
    destruct tables as [|meta [|prizes rest]]; cbn in H; try discriminate H.
    destruct (ParseMetaData meta) as [[? ?] ?].
    destruct prizes; cbn in H; discriminate H.
  - intros meta prizes rest ->. reflexivity.
  - intros g meta header rows rest E Hg.
    destruct (Hshape _ _ _ _ E) as (g' & Hg' & H).
    rewrite Hg in Hg'. injection Hg' as ->. exact H.
Qed.

End Tables.

(** A table of one-cell rows and unknown labels. *)
Lemma ParseMetaData_reads_labelled_rows_witness :
  ParseMetaData (P := Reference.platform)
    [["Ticket Price"]; ["Top Prize"; "$5,000"]; []]
  = (0, F64.zero, EmptyString).
Proof.
  apply (proj2 (ParseMetaData_reads_labelled_rows (P := Reference.platform)
                  [["Ticket Price"]; ["Top Prize"; "$5,000"]; []])).
  vm_compute. reflexivity.
Defined.

(** Two prices: the second one is kept. *)
Lemma ParseMetaData_last_row_wins_witness :
  ParseMetaData (P := Reference.platform)
    ([["Ticket Price"; "$5"]] ++ [["TICKET PRICE"; "$10"; "now"]])
  = (10, F64.zero, EmptyString).
Proof.
  apply (proj1 (ParseMetaData_last_row_wins (P := Reference.platform)
                  [["Ticket Price"; "$5"]] "TICKET PRICE" "$10" ["now"])).
  vm_compute. reflexivity.
Defined.

(** The two tables of a game page, and a third one. *)
Lemma BuildGame_needs_two_tables_witness :
  BuildGame (P := Reference.platform)
    [Fixture.meta; Fixture.odd_prizes; []] "lucky 7" "/games/lucky-7"
  = BuildGame (P := Reference.platform)
      [Fixture.meta; Fixture.odd_prizes] "lucky 7" "/games/lucky-7".
Proof.
  apply (proj1 (proj2 (proj2 (BuildGame_needs_two_tables (P := Reference.platform)
           [Fixture.meta; Fixture.odd_prizes; []] "lucky 7" "/games/lucky-7")))
           Fixture.meta Fixture.odd_prizes [[]]).
  reflexivity.
Defined.

(** ** The methods of Game *)

Section Methods.

Context {P : Platform}.

Lemma sub_zero_r : forall x, F64.sub x F64.zero = x.
Proof. intros [[]|[]| |[] m e]; reflexivity. Qed.

Lemma expected_win_nothing : forall t tiers acc,
  forallb (fun p => (RemainingCount p <=? 0) || (Value p <=? 0)) tiers = true ->
  fold_left (ev_tier t) tiers acc = acc.
Proof.
  intros t tiers. induction tiers as [|p tiers IH]; intros acc H; [reflexivity|].
  cbn in H. apply andb_true_iff in H as [Hp Ht].
  cbn [fold_left]. unfold ev_tier at 2. rewrite Hp. apply IH, Ht.
Qed.

(** X13.  When no tier has both a positive remaining count and a positive
    value, [EV] is the price, whatever the odds, the totals and the
    estimated number of remaining tickets are. *)
Theorem EV_with_nothing_to_win :
  forall g, nothing_to_win g = true -> EV g = F64.of_int (Price g).
Proof.
  intros g H. unfold EV. cbv zeta.
  destruct (RemainingTickets g =? 0); [reflexivity|].
  rewrite expected_win_nothing by exact H. apply sub_zero_r.
Qed.

Lemma tickets_of_zero_odds : forall s y,
  F64.is_finite y = true ->
  int_of_float (math.Round (F64.mul (S754_zero s) y)) = 0.
Proof.
  intros s y H. destruct y as [sy|sy| |sy m e]; try discriminate H;
    reflexivity.
Qed.

(** X14.  For a game whose odds are zero, the value [parseOdds] gives a
    cell it cannot read and [ParseMetaData] a page without odds, both
    estimated numbers of tickets are 0 and [EV] is the price; this holds
    of every game [BuildGame] returns with such odds. *)
Theorem zero_odds_estimate_no_tickets :
  (forall g s,
     Odds g = S754_zero s ->
     GoInt.in_range (TotalOriginalPrizes g) ->
     GoInt.in_range (TotalRemainingPrizes g) ->
     OriginalTickets g = 0 /\ RemainingTickets g = 0
     /\ EV g = F64.of_int (Price g))
  /\ (forall tables name url g s,
        BuildGame tables name url = Ret g ->
        Odds g = S754_zero s ->
        OriginalTickets g = 0 /\ RemainingTickets g = 0
        /\ EV g = F64.of_int (Price g)).
Proof.
  assert (H1 : forall g s,
     Odds g = S754_zero s ->
     GoInt.in_range (TotalOriginalPrizes g) ->
     GoInt.in_range (TotalRemainingPrizes g) ->
     OriginalTickets g = 0 /\ RemainingTickets g = 0
     /\ EV g = F64.of_int (Price g)).
  { intros g s Ho Hor Hre.
    assert (Hr : RemainingTickets g = 0).
    { unfold RemainingTickets. rewrite Ho.
      apply tickets_of_zero_odds, of_int_finite, Hre. }
    split; [|split; [exact Hr|]].
    - unfold OriginalTickets. rewrite Ho.
      apply tickets_of_zero_odds, of_int_finite, Hor.
    - unfold EV. cbv zeta. rewrite Hr. reflexivity. }
  split; [exact H1|].
  intros tables name url g s Hb Ho.
  destruct (BuildGame_totals _ _ _ _ Hb) as [Ht1 Ht2].
  apply (H1 g s Ho).
  - rewrite Ht1. apply wrap_in_range.
  - rewrite Ht2. apply wrap_in_range.
Qed.

(** X15.  The [EV] of a game [BuildGame] returns is never NaN, whatever
    the page held, odds that are infinite or NaN included; the same holds
    of every game collected in a run. *)
Theorem EV_of_built_game_is_a_number :
  (forall tables name url g,
     BuildGame tables name url = Ret g -> EV g <> S754_nan)
  /\ (forall w s g,
        reachable w s -> In g (games s) -> EV g <> S754_nan).
Proof.
  split.
  - intros tables name url g H. eapply EV_not_nan, BuildGame_wf, H.
  - intros w s g Hr Hg. apply EV_not_nan.
    pose proof (reachable_wf w s Hr) as Hall.
    rewrite Forall_forall in Hall. apply Hall, Hg.
Qed.

End Methods.

(** A game that is sold out. *)
Lemma EV_with_nothing_to_win_witness :
  EV (P := Reference.platform) Fixture.sold_out = F64.of_int 5.
Proof.
  apply (EV_with_nothing_to_win (P := Reference.platform) Fixture.sold_out).
  vm_compute. reflexivity.
Defined.

(** A game whose page gives no odds. *)
Lemma zero_odds_estimate_no_tickets_witness :
  RemainingTickets (P := Reference.platform) Fixture.no_odds_game = 0.
Proof.
  apply (proj1 (zero_odds_estimate_no_tickets (P := Reference.platform))
           Fixture.no_odds_game false).
  - reflexivity.
  - vm_compute. split; discriminate.
  - vm_compute. split; discriminate.
Defined.

(** The game of a page whose odds are infinite. *)
Lemma EV_of_built_game_is_a_number_witness :
  EV (P := Reference.platform) Fixture.odd_game <> S754_nan.
Proof.
  apply (proj1 (EV_of_built_game_is_a_number (P := Reference.platform))
           [Fixture.odd_meta; Fixture.odd_prizes]
           "lucky 7" "/games/lucky-7").
  vm_compute. reflexivity.
Defined.

(** ** main *)

Section Runs.

Context {P : Platform}.

Lemma run_steps : forall w n s s',
  main_run w n s s' -> main_steps w s s'.
Proof.
  intros w n s s' H. induction H as [s|n s1 s2 s3 _ IH Hs].
  - apply steps_refl.
  - eapply steps_step; [exact IH | exact Hs].
Qed.

Lemma steps_cons : forall w s1 s2 s3,
  main_step w s1 s2 -> main_steps w s2 s3 -> main_steps w s1 s3.
Proof.
  intros w s1 s2 s3 H12 H23. induction H23 as [s|s2 s3 s4 _ IH H34].
  - eapply steps_step; [apply steps_refl | exact H12].
  - eapply steps_step; [apply IH, H12 | exact H34].
Qed.

Lemma finish_ctl : forall w s,
  alive (ctl (finish w s)) = false.
Proof.
  intros w s. unfold finish.
  destruct (WriteCSV w (sortSlice (games s)) "mslotto_games.csv") as [[err|] file];
    reflexivity.
Qed.

Lemma step_from_alive : forall w s s',
  main_step w s s' -> alive (ctl s) = true.
Proof.
  intros w s s' H. destruct H;
    try assumption;
    match goal with Hc : ctl _ = _ |- _ => rewrite Hc; reflexivity end.
Qed.

Lemma step_steps_left : forall w s s',
  main_step w s s' -> (steps_left s' < steps_left s)%nat.
Proof.
  intros w s s' H.
  destruct H as [s l todo Hc Hlt | s Hc | s before l after out g Ha Hr Hw
                 | s before l after out status Ha Hr Hw
                 | s before l after out msg Ha Hr Hw
                 | s l out msg Ha Hl Hw | s i Hc Hi Hlt | s Hc];
    unfold steps_left, semCap in *; cbn [ctl running].
  - rewrite Hc. cbn [List.length]. lia.
  - rewrite Hc. cbn [List.length]. lia.
  - rewrite Hr, !length_app. cbn [List.length].
    destruct (ctl s); try discriminate Ha; lia.
  - destruct (ctl s); try discriminate Ha; lia.
  - rewrite Hr, !length_app. cbn [List.length].
    destruct (ctl s); try discriminate Ha; lia.
  - destruct (ctl s); try discriminate Ha; lia.
  - rewrite Hc. lia.
  - pose proof (finish_ctl w s) as Hf.
    destruct (ctl (finish w s)); try discriminate Hf; rewrite Hc; lia.
Qed.

(** X16.  [main] never deadlocks: in every state of a run in which it has
    neither returned nor died a step can be taken, by [main] or by one of
    its goroutines, and from there some run goes on to the return of
    [main] or to the death of the process. *)
Theorem main_never_deadlocks :
  forall w s,
    reachable w s -> alive (ctl s) = true ->
    (exists s', main_step w s s')
    /\ (exists s', main_steps w s s' /\ alive (ctl s') = false).
Proof.
  intros w s Hr Ha. split.
  - apply (alive_can_step w s (reachable_Inv w s Hr) Ha).
  - remember (steps_left s) as n eqn:Hn.
    revert s Hr Ha Hn.
    induction n as [n IH] using (well_founded_induction lt_wf).
    intros s Hr Ha Hn.
    destruct (alive_can_step w s (reachable_Inv w s Hr) Ha) as [s1 Hs1].
    pose proof (step_steps_left w s s1 Hs1) as Hlt.
    destruct (alive (ctl s1)) eqn:Ha1.
    + assert (Hr1 : reachable w s1).
      { eapply steps_step; [exact Hr | exact Hs1]. }
      destruct (IH (steps_left s1) ltac:(lia) s1 Hr1 Ha1 eq_refl)
        as (s2 & H12 & H2).
      exists s2. split; [|exact H2]. eapply steps_cons; eassumption.
    + exists s1. split; [|exact Ha1].
      eapply steps_step; [apply steps_refl | exact Hs1].
Qed.

Lemma run_cons : forall w n s1 s2 s3,
  main_step w s1 s2 -> main_run w n s2 s3 -> main_run w (S n) s1 s3.
Proof.
  intros w n s1 s2 s3 H12 H23. induction H23 as [s|n s2 s3 s4 _ IH H34].
  - eapply run_step; [apply run_refl | exact H12].
  - eapply run_step; [apply IH, H12 | exact H34].
Qed.

Lemma run_schedule_run : forall w acts s s',
  run_schedule w acts s = Some s' -> main_run w (List.length acts) s s'.
Proof.
  intros w acts. induction acts as [|a acts IH]; intros s s' H.
  - cbn in H. injection H as <-. apply run_refl.
  - cbn [run_schedule] in H.
    destruct (act w a s) as [s1|] eqn:E; [|discriminate H].
    cbn [List.length].
    eapply run_cons; [exact (act_step w a s s1 E) | apply IH, H].
Qed.

(** X17.  As long as every fetch returns, and [World] describes no fetch
    that hangs, every run of [main] is finite: a run that has found [n]
    links takes at most [2 n + 77] steps, two for each link, one for each
    of the 75 values put back into the channel, and the two steps that
    leave the loops. *)
Theorem every_run_is_bounded :
  forall w n s,
    main_run w n (main_start w) s ->
    (n + steps_left s <= 2 * List.length (discovered w) + 77)%nat.
Proof.
  intros w n s H. remember (main_start w) as s0 eqn:E.
  induction H as [s|n s1 s2 s3 _ IH Hs]; subst.
  - unfold main_start, discovered, steps_left.
    destruct (GetLinks w) as [out [ls| |]]; cbn; unfold semCap; lia.
  - specialize (IH eq_refl).
    pose proof (step_steps_left w s2 s3 Hs). lia.
Qed.

Lemma games_among_links : forall w s,
  reachable w s ->
  exists rest, Permutation (discovered w) (map URL (games s) ++ rest).
Proof.
  intros w s Hr. unfold reachable in Hr.
  remember (main_start w) as s0 eqn:E.
  destruct Hr as [s|s1 s2 s3 H12 H23]; subst.
  - exists (discovered w). unfold main_start.
    destruct (GetLinks w) as [out [ls| |]]; reflexivity.
  - pose proof (reachable_Inv w s2 H12) as I2.
    pose proof (inv_links w _ (step_Inv w s2 s3 I2 H23)) as Hl3.
    pose proof (inv_links w s2 I2 (step_from_alive w s2 s3 H23)) as Hl2.
    destruct H23 as [s l todo Hc Hlt | s Hc | s before l after out g Ha Hr Hw
                 | s before l after out status Ha Hr Hw
                 | s before l after out msg Ha Hr Hw
                 | s l out msg Ha Hl Hw | s i Hc Hi Hlt | s Hc];
      cbn [games ctl] in *; try (eexists; exact Hl2).
    + eexists. apply Hl3, Ha.
    + eexists. unfold finish.
      destruct (WriteCSV w (sortSlice (games s)) "mslotto_games.csv")
        as [[err|] file]; cbn [games];
        rewrite <- (sortSlice_perm (games s)); exact Hl2.
Qed.

(** X18.  Every game collected in a run was built from the page of a link
    found on the landing page: that page was fetched and held at least two
    tables, the second with a row; the game carries the URL of the link,
    the name [exctractGameName] gives that URL and game number 0; and no
    link has more games than it has entries among the links found. *)
Theorem collected_games_come_from_their_pages :
  forall w s,
    reachable w s ->
    (exists rest, Permutation (discovered w) (map URL (games s) ++ rest))
    /\ (List.length (games s) <= List.length (discovered w))%nat
    /\ Forall (fun g =>
                 In (URL g) (discovered w)
                 /\ Name g = exctractGameName (URL g)
                 /\ GameNumber g = 0
                 /\ exists page meta header rows rest,
                      http_get w (URL g) = Body page
                      /\ ExtractTables page = meta :: (header :: rows) :: rest
                      /\ BuildGame (ExtractTables page) (Name g) (URL g)
                         = Ret g)
              (games s).
Proof.
  intros w s Hr.
  destruct (games_among_links w s Hr) as [rest Hp].
  split; [exists rest; exact Hp|]. split.
  - apply Permutation_length in Hp.
    rewrite length_app, length_map in Hp. lia.
  - pose proof (inv_games w s (reachable_Inv w s Hr)) as Hg.
    rewrite Forall_forall in *. intros g Hin.
    destruct (Hg g Hin) as [out Hw]. split.
    + eapply Permutation_in; [symmetry; exact Hp|].
      apply in_or_app. left. apply in_map, Hin.
    + rewrite worker_unfold in Hw.
      destruct (http_get w (URL g)) as [err|err|page] eqn:Hget;
        try discriminate Hw.
      injection Hw as _ Hb.
      destruct (BuildGame_Ret _ _ _ _ Hb)
        as (meta & header & rows & rest' & Ht & Hrec).
      assert (Hname : Name g = exctractGameName (URL g)).
      { rewrite Hrec at 1. reflexivity. }
      split; [exact Hname|]. split; [rewrite Hrec; reflexivity|].
      exists page, meta, header, rows, rest'.
      split; [reflexivity|]. split; [exact Ht|].
      rewrite Hname. exact Hb.
Qed.

Lemma quiet_run : forall w s,
  (forall l, In l (discovered w) -> exists out g, worker w l = (out, Ret g)) ->
  (exists out ls, GetLinks w = (out, Ret ls)) ->
  os_create w "mslotto_games.csv" = None ->
  reachable w s ->
  (forall o, ctl s <> Dead o) /\ panicked s = [].
Proof.
  intros w s Hall (out0 & ls & Hget) Hfile Hr. unfold reachable in Hr.
  remember (main_start w) as s0 eqn:E.
  induction Hr as [s|s1 s2 s3 H12 IH H23]; subst.
  - unfold main_start. rewrite Hget. split; [discriminate|reflexivity].
  - destruct (IH eq_refl) as [Hnd Hpan].
    pose proof (reachable_Inv w s2 H12) as I2.
    pose proof (inv_links w s2 I2 (step_from_alive w s2 s3 H23)) as Hl2.
    assert (Hrun : forall before l after,
              running s2 = before ++ l :: after ->
              exists out g, worker w l = (out, Ret g)).
    { intros before l after E. apply Hall.
      eapply Permutation_in; [symmetry; exact Hl2|].
      rewrite E. apply in_or_app. right. apply in_or_app. right.
      apply in_or_app. left. apply in_or_app. right. left. reflexivity. }
    destruct H23 as [s l todo Hc Hlt | s Hc | s before l after out g Ha Hr Hw
                 | s before l after out status Ha Hr Hw
                 | s before l after out msg Ha Hr Hw
                 | s l out msg Ha Hl Hw | s i Hc Hi Hlt | s Hc];
      cbn [ctl panicked].
    + split; [discriminate|exact Hpan].
    + split; [discriminate|exact Hpan].
    + split; [exact Hnd|exact Hpan].
    + destruct (Hrun _ _ _ Hr) as (o' & g' & Hw'). congruence.
    + destruct (Hrun _ _ _ Hr) as (o' & g' & Hw'). congruence.
    + rewrite Hpan in Hl. destruct Hl.
    + split; [discriminate|exact Hpan].
    + unfold finish, WriteCSV. rewrite Hfile. cbn [ctl panicked].
      split; [discriminate|exact Hpan].
Qed.

(** X19.  When the landing page is read, every page of a link yields a
    game and the report file can be created, no run ends in the death of
    the process and no goroutine panics; a run that has returned has
    written a report with one record for each link found, and the URLs of
    its games are the links found, up to their order. *)
Theorem run_without_failures :
  forall w s,
    (forall l, In l (discovered w) ->
               exists out g, worker w l = (out, Ret g)) ->
    (exists out ls, GetLinks w = (out, Ret ls)) ->
    os_create w "mslotto_games.csv" = None ->
    reachable w s ->
    (forall o, ctl s <> Dead o)
    /\ panicked s = []
    /\ (ctl s = Finished ->
        Permutation (discovered w) (map URL (games s))
        /\ exists rows,
             report s = Some (csv_header :: rows)
             /\ List.length rows = List.length (discovered w)).
Proof.
  intros w s Hall Hget Hfile Hr.
  destruct (quiet_run w s Hall Hget Hfile Hr) as [Hnd Hpan].
  split; [exact Hnd|]. split; [exact Hpan|].
  intros Hf. pose proof (reachable_Inv w s Hr) as I.
  destruct (inv_finished w s I Hf) as [_ Hp].
  rewrite Hpan, app_nil_r in Hp. split; [exact Hp|].
  destruct (inv_report w s I Hf) as [Hrep _].
  exists (map csv_record (games s)). split; [exact Hrep|].
  apply Permutation_length in Hp. rewrite !length_map in *. lia.
Qed.

Lemma never_finished : forall w err s,
  os_create w "mslotto_games.csv" = Some err ->
  reachable w s -> ctl s <> Finished.
Proof.
  intros w err s Hfile Hr. unfold reachable in Hr.
  remember (main_start w) as s0 eqn:E.
  destruct Hr as [s|s1 s2 s3 H12 H23]; subst.
  - unfold main_start. destruct (GetLinks w) as [out [ls| |]]; discriminate.
  - destruct H23; cbn [ctl]; try discriminate;
      try (intros Hf; rewrite Hf in *; discriminate).
    unfold finish, WriteCSV. rewrite Hfile. discriminate.
Qed.

(** X20.  When the report file cannot be created, no run returns from
    [main] and no report is written; the run that has filled the channel
    again logs the error and exits with status 1, its games sorted. *)
Theorem unwritable_report_file :
  forall w err s,
    os_create w "mslotto_games.csv" = Some err ->
    reachable w s ->
    ctl s <> Finished
    /\ report s = None
    /\ (ctl s = Draining semCap ->
        main_step w s (finish w s)
        /\ ctl (finish w s) = Dead (Exit 1)
        /\ output (finish w s)
           = output s ++ [("Error writing CSV:" ++ err)%string]
        /\ report (finish w s) = None).
Proof.
  intros w err s Hfile Hr.
  pose proof (never_finished w err s Hfile Hr) as Hnf.
  split; [exact Hnf|]. split.
  - apply (inv_no_report w s (reachable_Inv w s Hr) Hnf).
  - intros Hc. split; [apply step_finish, Hc|].
    unfold finish, WriteCSV. rewrite Hfile. cbn. repeat split.
Qed.

Lemma finished_by_finish : forall w s,
  reachable w s -> ctl s = Finished ->
  exists s0, reachable w s0 /\ ctl s0 = Draining semCap /\ s = finish w s0.
Proof.
  intros w s Hr Hf. unfold reachable in Hr.
  remember (main_start w) as s0 eqn:E.
  destruct Hr as [s|s1 s2 s3 H12 H23]; subst.
  - unfold main_start in Hf.
    destruct (GetLinks w) as [out [ls| |]]; discriminate Hf.
  - destruct H23; cbn [ctl] in Hf; try discriminate Hf;
      try (rewrite Hf in *; discriminate).
    exists s. repeat split; assumption.
Qed.

Lemma csv_record_url : forall gs,
  url_column (map csv_record gs) = map URL gs.
Proof.
  intros gs. unfold url_column. rewrite map_map.
  apply map_ext. intros g. reflexivity.
Qed.

(** X21.  A report that is written holds the header and then one record
    of ten fields for each collected game, in the order of the games; the
    first field of a record is the name of its game and the last one its
    URL, and together with the links whose goroutine panicked these URLs
    are the links found on the landing page, up to their order.  The
    message that the data is written is then the last line printed. *)
Theorem report_has_a_record_for_each_game :
  forall w s rows,
    reachable w s ->
    report s = Some rows ->
    Forall (fun r => List.length r = 10%nat) rows
    /\ last (output s) EmptyString = "Data written to mslotto_games.csv"
    /\ exists body,
         rows = csv_header :: body
         /\ List.length body = List.length (games s)
         /\ map (fun r => nth 0 r EmptyString) body = map Name (games s)
         /\ url_column body = map URL (games s)
         /\ Permutation (discovered w) (url_column body ++ panicked s).
Proof.
  intros w s rows Hr Hrep.
  pose proof (reachable_Inv w s Hr) as I.
  assert (Hf : ctl s = Finished).
  { destruct (ctl s) eqn:Hc; try reflexivity;
      rewrite (inv_no_report w s I) in Hrep by (rewrite Hc; discriminate);
      discriminate Hrep. }
  destruct (inv_report w s I Hf) as [Hrows _].
  rewrite Hrows in Hrep. injection Hrep as <-.
  split; [|split].
  - constructor; [reflexivity|].
    rewrite Forall_forall. intros r Hin.
    apply in_map_iff in Hin as (g & <- & _). reflexivity.
  - destruct (finished_by_finish w s Hr Hf) as (s0 & _ & _ & ->).
    clear Hrows I Hr. unfold finish in Hf |- *.
    destruct (WriteCSV w (sortSlice (games s0)) "mslotto_games.csv")
      as [[err|] file]; [discriminate Hf|].
    cbn [output]. apply last_last.
  - exists (map csv_record (games s)).
    split; [reflexivity|]. split; [apply length_map|].
    split; [rewrite map_map; apply map_ext; intros g; reflexivity|].
    split; [apply csv_record_url|].
    rewrite csv_record_url. apply (inv_finished w s I Hf).
Qed.

End Runs.

(** The start of a run on a network without failures. *)
Lemma main_never_deadlocks_witness :
  exists s',
    @main_step Reference.platform Fixture.net_ok
      (main_start Fixture.net_ok) s'.
Proof.
  apply (main_never_deadlocks (P := Reference.platform) Fixture.net_ok
           (main_start Fixture.net_ok)).
  - apply steps_refl.
  - vm_compute. reflexivity.
Defined.

(** The run of two games in which the goroutines end one after the
    other: 81 steps, the bound for two links. *)
Lemma every_run_is_bounded_witness :
  (81 + steps_left (sequential_main (P := Reference.platform) Fixture.net_ok)
   <= 2 * List.length (discovered Fixture.net_ok) + 77)%nat.
Proof.
  apply (every_run_is_bounded (P := Reference.platform) Fixture.net_ok 81).
  apply (run_schedule_run (P := Reference.platform) Fixture.net_ok
           (one_by_one ++ [Finish])).
  vm_compute. reflexivity.
Defined.

(** The games of the run in which the goroutines end one after the
    other. *)
Lemma collected_games_come_from_their_pages_witness :
  (List.length (games (sequential_main (P := Reference.platform)
                         Fixture.net_ok))
   <= List.length (discovered Fixture.net_ok))%nat.
Proof.
  apply (collected_games_come_from_their_pages (P := Reference.platform)
           Fixture.net_ok (sequential_main Fixture.net_ok)).
  apply sequential_reachable.
Defined.

Lemma run_without_failures_witness :
  panicked (sequential_main (P := Reference.platform) Fixture.net_ok) = [].
Proof.
  apply (run_without_failures (P := Reference.platform) Fixture.net_ok
           (sequential_main Fixture.net_ok)).
  - intros l Hl. vm_compute in Hl.
    destruct Hl as [<-|[<-|[]]]; eexists; eexists; vm_compute; reflexivity.
  - eexists. eexists. vm_compute. reflexivity.
  - reflexivity.
  - apply sequential_reachable.
Defined.

(** The two games are collected and the channel is full again: the file
    cannot be created, and the process exits. *)
Lemma unwritable_report_file_witness :
  ctl (finish (P := Reference.platform) net_unwritable
         (after (P := Reference.platform) net_unwritable one_by_one))
  = Dead (Exit 1)
  /\ output (finish (P := Reference.platform) net_unwritable
               (after (P := Reference.platform) net_unwritable one_by_one))
     = ["Error writing CSV:permission denied"].
Proof.
  destruct (unwritable_report_file (P := Reference.platform) net_unwritable
              "permission denied"
              (after (P := Reference.platform) net_unwritable one_by_one)
              eq_refl (after_reachable _ _)) as (_ & _ & H).
  destruct H as (_ & Hc & Ho & _); [vm_compute; reflexivity|].
  split; [exact Hc | exact Ho].
Defined.

(** The report of the run in which the goroutines end one after the
    other. *)
Lemma report_has_a_record_for_each_game_witness :
  last (output (sequential_main (P := Reference.platform) Fixture.net_ok))
       EmptyString
  = "Data written to mslotto_games.csv".
Proof.
  apply (report_has_a_record_for_each_game (P := Reference.platform)
           Fixture.net_ok (sequential_main Fixture.net_ok)
           (csv_header
            :: map (csv_record (P := Reference.platform))
                 (games (sequential_main (P := Reference.platform)
                           Fixture.net_ok)))).
  - apply sequential_reachable.
  - vm_compute. reflexivity.
Defined.

(** ** The two scans and the end of the input *)

Lemma scan_tokens_error : forall t after before st,
  Kind t = ErrorToken ->
  scan_tokens (before ++ t :: after) st = scan_tokens before st.
Proof.
  intros t after before. induction before as [|x before IH]; intros st H.
  - cbn. rewrite H. reflexivity.
  - cbn [app scan_tokens].
    destruct (TokenType_eqb (Kind x) ErrorToken); [reflexivity|apply IH, H].
Qed.

Lemma table_tokens_error : forall t after before st,
  Kind t = ErrorToken ->
  table_tokens (before ++ t :: after) st = table_tokens before st.
Proof.
  intros t after before. induction before as [|x before IH]; intros st H.
  - cbn. rewrite H. reflexivity.
  - cbn [app table_tokens].
    destruct (TokenType_eqb (Kind x) ErrorToken); [reflexivity|apply IH, H].
Qed.

(** X22.  Both scans stop at the first error token, the end of the input
    included: what follows it on the page is never read, by [GetLinks] or
    by [ExtractTables]. *)
Theorem scans_stop_at_error_token :
  forall before t after,
    Kind t = ErrorToken ->
    page_links (before ++ t :: after) = page_links before
    /\ ExtractTables (before ++ t :: after) = ExtractTables before.
Proof.
  intros before t after H. unfold page_links, ExtractTables.
  rewrite scan_tokens_error, table_tokens_error by exact H.
  split; reflexivity.
Qed.

(** The landing page cut short after its first link. *)
Lemma scans_stop_at_error_token_witness :
  page_links
    ([Fixture.div_open "col-lg-3 gamebox"; Fixture.anchor "/games/lucky-7"]
     ++ Fixture.tag ErrorToken "" [] :: [Fixture.anchor "/games/gold-rush"])
  = ["/games/lucky-7"].
Proof.
  apply (scans_stop_at_error_token
           [Fixture.div_open "col-lg-3 gamebox"; Fixture.anchor "/games/lucky-7"]
           (Fixture.tag ErrorToken "" []) [Fixture.anchor "/games/gold-rush"]).
  reflexivity.
Defined.

Lemma scan_tokens_app : forall a b st,
  scan_tokens (a ++ b) st = scan_tokens a st
  \/ scan_tokens (a ++ b) st = scan_tokens b (scan_tokens a st).
Proof.
  induction a as [|x a IH]; intros b st; [right; reflexivity|].
  cbn [app scan_tokens].
  destruct (TokenType_eqb (Kind x) ErrorToken); [left; reflexivity|apply IH].
Qed.

Lemma table_token_tables : forall st t,
  exists more, tables (table_token st t) = tables st ++ more.
Proof.
  intros st t. unfold table_token.
  repeat match goal with
    | |- context [match ?b with _ => _ end] => destruct b; cbn [tables]
    end;
    try (exists []; rewrite app_nil_r; reflexivity);
    eexists; reflexivity.
Qed.

Lemma table_tokens_tables : forall page st,
  exists more, tables (table_tokens page st) = tables st ++ more.
Proof.
  induction page as [|t page IH]; intros st.
  - exists []. cbn. rewrite app_nil_r. reflexivity.
  - cbn [table_tokens]. destruct (TokenType_eqb (Kind t) ErrorToken).
    + exists []. rewrite app_nil_r. reflexivity.
    + destruct (IH (table_token st t)) as [m1 E1].
      destruct (table_token_tables st t) as [m2 E2].
      exists (m2 ++ m1). rewrite E1, E2, app_assoc. reflexivity.
Qed.

Lemma table_tokens_app : forall a b st,
  table_tokens (a ++ b) st = table_tokens a st
  \/ table_tokens (a ++ b) st = table_tokens b (table_tokens a st).
Proof.
  induction a as [|x a IH]; intros b st; [right; reflexivity|].
  cbn [app table_tokens].
  destruct (TokenType_eqb (Kind x) ErrorToken); [left; reflexivity|apply IH].
Qed.

(** X23.  Both scans only ever add to what they have found: the links,
    and the tables, found on the first part of a page are the first of
    those found on the whole page, in the same order. *)
Theorem scans_only_append :
  forall before after,
    (exists more,
       page_links (before ++ after) = page_links before ++ more)
    /\ (exists more,
          ExtractTables (before ++ after) = ExtractTables before ++ more).
Proof.
  intros before after. unfold page_links, ExtractTables. split.
  - destruct (scan_tokens_app before after scan_start) as [E|E]; rewrite E.
    + exists []. rewrite app_nil_r. reflexivity.
    + destruct (scan_tokens_links after (scan_tokens before scan_start))
        as (found & H & _). exists found. exact H.
  - match goal with
    | |- context [table_tokens (before ++ after) ?s] =>
        destruct (table_tokens_app before after s) as [E|E]; rewrite E
    end.
    + exists []. rewrite app_nil_r. reflexivity.
    + apply table_tokens_tables.
Qed.

(** ** strconv.Itoa and the parsers *)

Lemma digit_char_digit : forall d,
  0 <= d < 10 ->
  strconv.is_digit (strconv.digit_char d) = true
  /\ strconv.digit_val (strconv.digit_char d) = d.
Proof.
  intros d H.
  assert (Hd : d = 0 \/ d = 1 \/ d = 2 \/ d = 3 \/ d = 4 \/ d = 5 \/ d = 6
               \/ d = 7 \/ d = 8 \/ d = 9) by lia.
  repeat (destruct Hd as [->|Hd]; [split; reflexivity|]).
  subst d. split; reflexivity.
Qed.

Lemma utoa_value : forall fuel n acc,
  0 <= n < 2 ^ Z.of_nat fuel ->
  strconv.digits_val 0 (strconv.utoa fuel n acc) = strconv.digits_val n acc.
Proof.
  induction fuel as [|k IH]; intros n acc Hn.
  - cbn in Hn. assert (n = 0) by lia. subst n. reflexivity.
  - cbn [strconv.utoa]. cbv zeta.
    assert (Hm : 0 <= n mod 10 < 10) by (apply Z.mod_pos_bound; lia).
    destruct (digit_char_digit (n mod 10) Hm) as [Hd Hv].
    destruct (Z.ltb_spec n 10) as [Hlt|Hge].
    + cbn [strconv.digits_val]. rewrite Hd, Hv.
      rewrite Z.mod_small by lia. reflexivity.
    + rewrite IH.
      * cbn [strconv.digits_val]. rewrite Hd, Hv.
        f_equal. pose proof (Z.div_mod n 10 ltac:(lia)). lia.
      * rewrite Nat2Z.inj_succ, Z.pow_succ_r in Hn by lia.
        split; [apply Z.div_pos; lia|].
        apply Z.div_lt_upper_bound; lia.
Qed.

Lemma utoa_digits : forall fuel n acc,
  0 <= n ->
  all_bytes strconv.is_digit acc = true ->
  all_bytes strconv.is_digit (strconv.utoa fuel n acc) = true.
Proof.
  induction fuel as [|k IH]; intros n acc Hn Hacc; [exact Hacc|].
  cbn [strconv.utoa]. cbv zeta.
  assert (Hm : 0 <= n mod 10 < 10) by (apply Z.mod_pos_bound; lia).
  destruct (digit_char_digit (n mod 10) Hm) as [Hd _].
  assert (Hacc' : all_bytes strconv.is_digit
                    (String (strconv.digit_char (n mod 10)) acc) = true).
  { cbn [all_bytes]. rewrite Hd, Hacc. reflexivity. }
  destruct (n <? 10); [exact Hacc'|].
  apply IH; [apply Z.div_pos; lia|exact Hacc'].
Qed.

Lemma utoa_not_empty : forall fuel n acc,
  acc <> EmptyString -> strconv.utoa fuel n acc <> EmptyString.
Proof.
  induction fuel as [|k IH]; intros n acc Hacc; [exact Hacc|].
  cbn [strconv.utoa]. cbv zeta.
  destruct (n <? 10); [discriminate|]. apply IH. discriminate.
Qed.

Lemma Utoa_reads_back : forall n,
  0 <= n ->
  all_bytes strconv.is_digit (strconv.Utoa n) = true
  /\ strconv.Utoa n <> EmptyString
  /\ decimal_value 0 (strconv.Utoa n) = n.
Proof.
  intros n Hn. unfold strconv.Utoa.
  assert (Hd : all_bytes strconv.is_digit
                 (strconv.utoa (S (Z.to_nat (Z.log2 n))) n EmptyString) = true).
  { apply utoa_digits; [exact Hn|reflexivity]. }
  split; [exact Hd|]. split.
  - cbn [strconv.utoa]. cbv zeta.
    destruct (n <? 10); [discriminate|]. apply utoa_not_empty. discriminate.
  - pose proof (digits_val_decimal _ 0 Hd) as Hv.
    rewrite utoa_value in Hv.
    + cbn in Hv. injection Hv as Hv. symmetry. exact Hv.
    + split; [exact Hn|].
      rewrite Nat2Z.inj_succ, Z2Nat.id by apply Z.log2_nonneg.
      destruct (Z.eq_dec n 0) as [->|Hz]; [reflexivity|].
      apply Z.log2_spec. lia.
Qed.

Lemma without_digits : forall c s,
  strconv.is_digit c = false ->
  all_bytes strconv.is_digit s = true ->
  without_byte c s = s.
Proof.
  intros c s Hc. induction s as [|d s IH]; intros H; [reflexivity|].
  cbn in H. apply andb_true_iff in H as [Hd Hs].
  cbn [without_byte].
  destruct (Ascii.eqb_spec d c) as [->|_]; [congruence|].
  rewrite (IH Hs). reflexivity.
Qed.

Lemma Atoi_Itoa : forall n,
  GoInt.in_range n ->
  strconv.Atoi (strconv.Itoa n) = (n, None)
  /\ without_byte "," (strconv.Itoa n) = strconv.Itoa n
  /\ without_byte "$" (strconv.Itoa n) = strconv.Itoa n.
Proof.
  intros n [Hlo Hhi]. unfold strconv.Itoa.
  assert (Hmin : GoInt.minInt64 = - 2 ^ 63) by reflexivity.
  assert (Hmax : GoInt.maxInt64 = 2 ^ 63 - 1) by reflexivity.
  destruct (Z.ltb_spec n 0) as [Hneg|Hpos].
  - destruct (Utoa_reads_back (- n) ltac:(lia)) as (Hd & Hne & Hv).
    split; [|split].
    + rewrite Atoi_negative; [|exact Hne|exact Hd|lia].
      rewrite Hv. f_equal. lia.
    + cbn [without_byte Ascii.eqb Bool.eqb].
      rewrite without_digits by (reflexivity || exact Hd). reflexivity.
    + cbn [without_byte Ascii.eqb Bool.eqb].
      rewrite without_digits by (reflexivity || exact Hd). reflexivity.
  - destruct (Utoa_reads_back n Hpos) as (Hd & Hne & Hv).
    split; [|split].
    + rewrite Atoi_digits; [|exact Hne|exact Hd|lia].
      rewrite Hv. reflexivity.
    + apply without_digits; [reflexivity|exact Hd].
    + apply without_digits; [reflexivity|exact Hd].
Qed.

Section ReadBack.

Context {P : Platform}.

(** X24.  What [strconv.Itoa] prints of an [int], [parseInt] and
    [parseDollar] read back as that [int]; so the price and the two
    estimated numbers of tickets of a record of the report read back as
    those of its game, and so do the two totals of a game collected in a
    run. *)
Theorem report_integers_read_back :
  (forall n,
     GoInt.in_range n ->
     parseInt (strconv.Itoa n) = n /\ parseDollar (strconv.Itoa n) = n)
  /\ (forall g,
        Game_wf g ->
        parseInt (nth 1 (csv_record g) EmptyString) = Price g
        /\ parseInt (nth 6 (csv_record g) EmptyString) = OriginalTickets g
        /\ parseInt (nth 7 (csv_record g) EmptyString) = RemainingTickets g)
  /\ (forall w s g,
        reachable w s -> In g (games s) ->
        parseInt (nth 4 (csv_record g) EmptyString) = TotalOriginalPrizes g
        /\ parseInt (nth 5 (csv_record g) EmptyString)
           = TotalRemainingPrizes g).
Proof.
  assert (Hint : forall n, GoInt.in_range n -> parseInt (strconv.Itoa n) = n).
  { intros n Hn. destruct (Atoi_Itoa n Hn) as (Ha & Hc & _).
    unfold parseInt. rewrite replace_byte_away, Hc, Ha. reflexivity. }
  split; [|split].
  - intros n Hn. split; [apply Hint, Hn|].
    destruct (Atoi_Itoa n Hn) as (Ha & Hc & Hd).
    unfold parseDollar. cbv zeta.
    rewrite !replace_byte_away, Hd, Hc, Ha. reflexivity.
  - intros g [Hp _]. cbn [csv_record nth]. cbv zeta. cbn [nth].
    split; [apply Hint, Hp|].
    split; apply Hint, int_of_float_in_range.
  - intros w s g Hr Hg.
    pose proof (inv_games w s (reachable_Inv w s Hr)) as Hall.
    rewrite Forall_forall in Hall. destruct (Hall g Hg) as [out Hw].
    destruct (worker_totals _ _ _ _ Hw) as [H1 H2].
    cbn [csv_record nth]. cbv zeta. cbn [nth].
    split; apply Hint; [rewrite H1|rewrite H2]; apply wrap_in_range.
Qed.

End ReadBack.

(** The smallest [int], and the game of the fixture tables. *)
Lemma report_integers_read_back_witness :
  parseInt (strconv.Itoa (-9223372036854775808)) = -9223372036854775808
  /\ parseInt (nth 1 (csv_record (P := Reference.platform) Fixture.lucky_game)
                 EmptyString) = 5.
Proof.
  split.
  - apply (proj1 (report_integers_read_back (P := Reference.platform))
             (-9223372036854775808)).
    vm_compute. split; discriminate.
  - apply (proj1 (proj2 (report_integers_read_back (P := Reference.platform)))
             Fixture.lucky_game).
    split; [vm_compute; split; discriminate|].
    repeat constructor; vm_compute; discriminate.
Defined.

(** ** Header cells *)

Lemma table_token_th : forall st t,
  table_token st (th_to_td t) = table_token st t.
Proof.
  intros st t. unfold th_to_td.
  destruct (Kind t) eqn:Ek; try reflexivity;
    destruct (String.eqb_spec (Data t) "th") as [E|_]; try reflexivity;
    unfold table_token; cbn [Kind Data]; rewrite Ek, E; reflexivity.
Qed.

Lemma th_to_td_kind : forall t, Kind (th_to_td t) = Kind t.
Proof.
  intros t. unfold th_to_td.
  destruct (Kind t) eqn:Ek; try exact Ek;
    destruct (String.eqb (Data t) "th"); (exact Ek || reflexivity).
Qed.

(** X25.  [ExtractTables] reads a header cell as it reads a data cell:
    the tables of a page are those of the page with every [th] tag
    written [td]. *)
Theorem ExtractTables_reads_th_as_td :
  forall page, ExtractTables (map th_to_td page) = ExtractTables page.
Proof.
  intros page. unfold ExtractTables. f_equal.
  generalize {| tables := []; currentTable := []; currentRow := [];
                inTable := false; inRow := false; inCell := false |}.
  induction page as [|t page IH]; intros st; [reflexivity|].
  cbn [map table_tokens]. rewrite th_to_td_kind, table_token_th, IH.
  reflexivity.
Qed.

(** ** The games of a run and its schedule *)

Section Schedules.

Context {P : Platform}.

Lemma games_of_links : forall w s,
  reachable w s ->
  map Some (games s) = map (game_of w) (map URL (games s)).
Proof.
  intros w s Hr.
  pose proof (inv_games w s (reachable_Inv w s Hr)) as Hall.
  induction (games s) as [|g gs IH]; [reflexivity|].
  inversion Hall as [|? ? [out Hw] Hrest]; subst.
  cbn [map]. rewrite <- (IH Hrest). f_equal.
  unfold game_of. rewrite Hw. reflexivity.
Qed.

(** X26.  The games of a run do not depend on its schedule: two runs
    that have taken every slot back, or have returned from [main], with
    the same links lost to a panic, have collected the same games, up to
    their order, and the reports they have written have the same number
    of records. *)
Theorem games_do_not_depend_on_the_schedule :
  forall w s s',
    reachable w s -> reachable w s' ->
    ctl s = Draining semCap \/ ctl s = Finished ->
    ctl s' = Draining semCap \/ ctl s' = Finished ->
    Permutation (panicked s) (panicked s') ->
    Permutation (games s) (games s')
    /\ (forall rows rows',
          report s = Some rows -> report s' = Some rows' ->
          List.length rows = List.length rows').
Proof.
  intros w s s' Hr Hr' Hj Hj' Hpan.
  pose proof (reachable_Inv w s Hr) as I.
  pose proof (reachable_Inv w s' Hr') as I'.
  assert (Hgames : Permutation (games s) (games s')).
  { destruct (joined_links w s Hr Hj) as [_ Hp].
    destruct (joined_links w s' Hr' Hj') as [_ Hp'].
    assert (Hu : Permutation (map URL (games s)) (map URL (games s'))).
    { apply (Permutation_app_inv_r (panicked s')).
      rewrite <- Hp'. rewrite <- Hpan. symmetry. exact Hp. }
    apply (Permutation_map (game_of w)) in Hu.
    rewrite <- !games_of_links in Hu by assumption.
    apply Permutation_map_inv in Hu as (l3 & E & Hp3).
    assert (El : games s = l3).
    { clear - E. revert l3 E. induction (games s) as [|g gs IH];
        intros [|x l3] E; try discriminate E; [reflexivity|].
      cbn in E. injection E as -> E. f_equal. apply IH, E. }
    rewrite El. symmetry. exact Hp3. }
  split; [exact Hgames|].
  intros rows rows' Hrep Hrep'.
  assert (Hf : ctl s = Finished).
  { destruct (ctl s) eqn:Hc; try reflexivity;
      rewrite (inv_no_report w s I) in Hrep by (rewrite Hc; discriminate);
      discriminate Hrep. }
  assert (Hf' : ctl s' = Finished).
  { destruct (ctl s') eqn:Hc; try reflexivity;
      rewrite (inv_no_report w s' I') in Hrep' by (rewrite Hc; discriminate);
      discriminate Hrep'. }
  destruct (inv_report w s I Hf) as [E _].
  destruct (inv_report w s' I' Hf') as [E' _].
  rewrite E in Hrep. rewrite E' in Hrep'.
  injection Hrep as <-. injection Hrep' as <-.
  cbn [List.length]. rewrite !length_map.
  f_equal. apply Permutation_length, Hgames.
Qed.

End Schedules.

(** Two schedules of the run of two games: the games are collected in
    the order of the links, or in the opposite order. *)
Lemma games_do_not_depend_on_the_schedule_witness :
  games (after (P := Reference.platform) Fixture.net_ok one_by_one)
  <> games (after (P := Reference.platform) Fixture.net_ok second_first)
  /\ Permutation
       (games (after (P := Reference.platform) Fixture.net_ok one_by_one))
       (games (after (P := Reference.platform) Fixture.net_ok second_first)).
Proof.
  split; [vm_compute; discriminate|].
  apply (games_do_not_depend_on_the_schedule (P := Reference.platform)
           Fixture.net_ok (after Fixture.net_ok one_by_one)
           (after Fixture.net_ok second_first)).
  - apply after_reachable.
  - apply after_reachable.
  - left. vm_compute. reflexivity.
  - left. vm_compute. reflexivity.
  - vm_compute. apply Permutation_refl.
Defined.
